(** * The vistk pipeline builder ([pipeline.cxx]) as a state-and-exception
    monad over the private state [pipeline::priv], with the process, edge and
    configuration classes taken as interfaces. *)

From Stdlib Require Import QArith.
From stdpp Require Import base option list gmap sets strings sorting.

Set Warnings "-register-all".
Local Open Scope string_scope.
Local Open Scope list_scope.

(** ** Basic types of [process.h] as [pipeline.cxx] uses them *)

Abbreviation name_t := string (only parsing).
Abbreviation port_t := string (only parsing).
Abbreviation port_type_t := string (only parsing).
Abbreviation port_flag_t := string (only parsing).
Abbreviation port_flags_t := (gset string) (only parsing).

(** Modelled from the spec: [process::port_frequency_t] is declared in
    [process.h], which is not part of the sources; the spec asks for exact
    rationals kept in lowest terms.  The code tests [!freq] for an unknown
    frequency, which on a rational is a zero numerator. *)
Abbreviation port_frequency_t := Q (only parsing).

Definition freq_unknown (f : port_frequency_t) : bool := (Qnum f =? 0)%Z.
Definition freq_mul (a b : port_frequency_t) : port_frequency_t := Qred (a * b).
Definition freq_div (a b : port_frequency_t) : port_frequency_t := Qred (a / b).
Definition freq_neq (a b : port_frequency_t) : bool := negb (Qeq_bool a b).
Definition freq_denominator (f : port_frequency_t) : Z := Zpos (Qden (Qred f)).
Definition freq_scale (k : Z) (f : port_frequency_t) : port_frequency_t :=
  Qred (inject_Z k * f).
Definition base_freq : port_frequency_t := 1 # 1.

Definition port_addr_t : Type := name_t * port_t.
Definition connection_t : Type := port_addr_t * port_addr_t.
Definition connections_t : Type := list connection_t.

(** [process::port_info]: the fields the pipeline reads. *)
Record port_info := PortInfo {
  type : port_type_t;
  flags : port_flags_t;
  frequency : port_frequency_t
}.

(** ** Exceptions thrown by the pipeline *)

Inductive exception :=
| null_pipeline_config_exception
| null_process_addition_exception
| add_after_setup_exception (name : name_t)
| duplicate_process_name_exception (name : name_t)
| remove_after_setup_exception (name : name_t)
| no_such_process_exception (name : name_t)
| no_such_port_exception (name : name_t) (port : port_t)
| connection_after_setup_exception (c : connection_t)
| disconnection_after_setup_exception (c : connection_t)
| connection_flag_mismatch_exception (c : connection_t)
| connection_type_mismatch_exception (c : connection_t) (up_type down_type : port_type_t)
| pipeline_duplicate_setup_exception
| no_processes_exception
| untyped_data_dependent_exception (name : name_t) (port : port_t)
| untyped_connection_exception
| connection_dependent_type_exception (c : connection_t) (t : port_type_t) (push_up : bool)
| connection_dependent_type_cascade_exception
    (name : name_t) (port : port_t) (t : port_type_t)
    (c : connection_t) (ct : port_type_t) (push_up : bool)
| propagation_exception (c : connection_t) (t : port_type_t) (push_up : bool)
| missing_connection_exception (name : name_t) (port : port_t) (reason : string)
| orphaned_processes_exception
| not_a_dag_exception
| frequency_mismatch_exception (c : connection_t) (up_freq down_freq : port_frequency_t)
| pipeline_not_setup_exception
| pipeline_not_ready_exception
| reset_running_pipeline_exception
| logic_error (reason : string)
| foreign_exception (what : string).

(** What a call produces: a value, a thrown exception, or no answer within
    the given number of loop iterations. *)
Inductive outcome (A : Type) :=
| Ret (a : A)
| Throw (e : exception)
| Timeout.
Arguments Ret {A} a.
Arguments Throw {A} e.
Arguments Timeout {A}.

(** ** Interfaces of the external collaborators *)

(** Configuration blocks ([config.h]): only the operations
    [make_connections] calls. *)
Class Config (C : Type) := {
  subblock : C → string → C;
  merge_config : C → C → outcome C;
  set_value : C → string → string → outcome C;
  mark_read_only : C → string → C
}.

(** The process class: its static constants and the virtual interface. *)
Class Process (E P : Type) := {
  type_any : port_type_t;
  type_data_dependent : port_type_t;
  type_flow_dependent : port_type_t;
  flag_output_const : port_flag_t;
  flag_input_mutable : port_flag_t;
  flag_input_nodep : port_flag_t;
  flag_required : port_flag_t;
  name : P → name_t;
  input_ports : P → list port_t;
  output_ports : P → list port_t;
  input_port_info : P → port_t → outcome port_info;
  output_port_info : P → port_t → outcome port_info;
  set_input_port_type : P → port_t → port_type_t → outcome (bool * P);
  set_output_port_type : P → port_t → port_type_t → outcome (bool * P);
  configure : P → outcome P;
  init : P → outcome P;
  reset_process : P → outcome P;
  connect_input_port : P → port_t → E → outcome P;
  connect_output_port : P → port_t → E → outcome P;
  set_core_frequency : P → port_frequency_t → outcome P
}.

(** Edges ([edge.h]). *)
Class Edge (C E P : Type) := {
  config_dependency : string;
  make_edge : C → outcome E;
  set_upstream_process : E → P → E;
  set_downstream_process : E → P → E
}.

(** A process handed to [add_process] is a plain process or a
    [process_cluster], which additionally carries its children, its internal
    connections and its port mappings. *)
Inductive process_t (P : Type) :=
| plain_process (p : P)
| process_cluster (cluster_name : name_t)
    (processes : list (process_t P))
    (internal_connections input_mappings output_mappings : connections_t).
Arguments plain_process {P} p.
Arguments process_cluster {P} cluster_name processes
  internal_connections input_mappings output_mappings.

Inductive cluster_connection_type_t := cluster_upstream | cluster_downstream.
Definition cluster_connection_t : Type := connection_t * cluster_connection_type_t.
Definition cluster_connections_t : Type := list cluster_connection_t.

Inductive direction_t := push_upstream | push_downstream.
Definition type_pinning_t : Type := connection_t * direction_t.
Definition type_pinnings_t : Type := list type_pinning_t.

Inductive port_type_status := type_deferred | type_mismatch | type_compatible.

(** The calls into the processes that the statements below count, kept as
    a ghost log. *)
Inductive call :=
| call_configure (name : name_t)
| call_init (name : name_t)
| call_reset (name : name_t)
| call_set_core_frequency (name : name_t) (f : port_frequency_t).

Global Instance cluster_connection_type_eq_dec : EqDecision cluster_connection_type_t.
Proof. solve_decision. Defined.
Global Instance direction_eq_dec : EqDecision direction_t.
Proof. solve_decision. Defined.
Global Instance port_type_status_eq_dec : EqDecision port_type_status.
Proof. solve_decision. Defined.

(** [std::map] and [std::set] iterate in key order. *)
Definition name_le (a b : name_t) : Prop := String.leb a b = true.
Global Instance name_le_dec : RelDecision name_le.
Proof. intros a b. unfold name_le. apply _. Defined.

Definition sorted_names (l : list name_t) : list name_t := merge_sort name_le l.

Definition name_key_le {V} (a b : name_t * V) : Prop := name_le a.1 b.1.
Global Instance name_key_le_dec {V} : RelDecision (@name_key_le V).
Proof. intros a b. unfold name_key_le. apply _. Defined.

Definition index_key_le {V} (a b : nat * V) : Prop := (a.1 <= b.1)%nat.
Global Instance index_key_le_dec {V} : RelDecision (@index_key_le V).
Proof. intros a b. unfold index_key_le. apply _. Defined.

Definition is_cluster_of {P} (p : process_t P) : bool :=
  match p with plain_process _ => false | process_cluster _ _ _ _ _ => true end.

Definition cluster_processes {P} (p : process_t P) : list (process_t P) :=
  match p with plain_process _ => [] | process_cluster _ ps _ _ _ => ps end.
Definition cluster_internal_connections {P} (p : process_t P) : connections_t :=
  match p with plain_process _ => [] | process_cluster _ _ ic _ _ => ic end.
Definition cluster_input_mappings {P} (p : process_t P) : connections_t :=
  match p with plain_process _ => [] | process_cluster _ _ _ im _ => im end.
Definition cluster_output_mappings {P} (p : process_t P) : connections_t :=
  match p with plain_process _ => [] | process_cluster _ _ _ _ om => om end.

Section Pipeline.
Context {C E P : Type} `{!Config C} `{!Process E P} `{!Edge C E P}.

(** A possibly null [edge_t] and a possibly null [process_t] handle. *)
Definition edge_t : Type := option E.
Definition edges_t : Type := list edge_t.

(** ** The private state [pipeline::priv] *)

Record priv := Priv {
  config : C;
  planned_connections : connections_t;
  connections : connections_t;
  process_map : gmap string P;
  cluster_map : gmap string (process_t P);
  edge_map : gmap nat edge_t;
  process_parent_map : gmap string name_t;
  parent_stack : list name_t;
  data_dep_connections : connections_t;
  cluster_connections : cluster_connections_t;
  untyped_connections : connections_t;
  type_pinnings : type_pinnings_t;
  setup : bool;
  setup_in_progress : bool;
  setup_successful : bool;
  running : bool;
  calls : list call
}.

Definition with_planned_connections (f : connections_t → connections_t) (s : priv) : priv :=
  Priv (config s) (f (planned_connections s)) (connections s) (process_map s)
    (cluster_map s) (edge_map s) (process_parent_map s) (parent_stack s)
    (data_dep_connections s) (cluster_connections s) (untyped_connections s)
    (type_pinnings s) (setup s) (setup_in_progress s) (setup_successful s)
    (running s) (calls s).
Definition with_connections (f : connections_t → connections_t) (s : priv) : priv :=
  Priv (config s) (planned_connections s) (f (connections s)) (process_map s)
    (cluster_map s) (edge_map s) (process_parent_map s) (parent_stack s)
    (data_dep_connections s) (cluster_connections s) (untyped_connections s)
    (type_pinnings s) (setup s) (setup_in_progress s) (setup_successful s)
    (running s) (calls s).
Definition with_process_map (f : gmap string P → gmap string P) (s : priv) : priv :=
  Priv (config s) (planned_connections s) (connections s) (f (process_map s))
    (cluster_map s) (edge_map s) (process_parent_map s) (parent_stack s)
    (data_dep_connections s) (cluster_connections s) (untyped_connections s)
    (type_pinnings s) (setup s) (setup_in_progress s) (setup_successful s)
    (running s) (calls s).
Definition with_cluster_map
    (f : gmap string (process_t P) → gmap string (process_t P)) (s : priv) : priv :=
  Priv (config s) (planned_connections s) (connections s) (process_map s)
    (f (cluster_map s)) (edge_map s) (process_parent_map s) (parent_stack s)
    (data_dep_connections s) (cluster_connections s) (untyped_connections s)
    (type_pinnings s) (setup s) (setup_in_progress s) (setup_successful s)
    (running s) (calls s).
Definition with_edge_map (f : gmap nat edge_t → gmap nat edge_t) (s : priv) : priv :=
  Priv (config s) (planned_connections s) (connections s) (process_map s)
    (cluster_map s) (f (edge_map s)) (process_parent_map s) (parent_stack s)
    (data_dep_connections s) (cluster_connections s) (untyped_connections s)
    (type_pinnings s) (setup s) (setup_in_progress s) (setup_successful s)
    (running s) (calls s).
Definition with_process_parent_map
    (f : gmap string name_t → gmap string name_t) (s : priv) : priv :=
  Priv (config s) (planned_connections s) (connections s) (process_map s)
    (cluster_map s) (edge_map s) (f (process_parent_map s)) (parent_stack s)
    (data_dep_connections s) (cluster_connections s) (untyped_connections s)
    (type_pinnings s) (setup s) (setup_in_progress s) (setup_successful s)
    (running s) (calls s).
Definition with_parent_stack (f : list name_t → list name_t) (s : priv) : priv :=
  Priv (config s) (planned_connections s) (connections s) (process_map s)
    (cluster_map s) (edge_map s) (process_parent_map s) (f (parent_stack s))
    (data_dep_connections s) (cluster_connections s) (untyped_connections s)
    (type_pinnings s) (setup s) (setup_in_progress s) (setup_successful s)
    (running s) (calls s).
Definition with_data_dep_connections (f : connections_t → connections_t) (s : priv) : priv :=
  Priv (config s) (planned_connections s) (connections s) (process_map s)
    (cluster_map s) (edge_map s) (process_parent_map s) (parent_stack s)
    (f (data_dep_connections s)) (cluster_connections s) (untyped_connections s)
    (type_pinnings s) (setup s) (setup_in_progress s) (setup_successful s)
    (running s) (calls s).
Definition with_cluster_connections
    (f : cluster_connections_t → cluster_connections_t) (s : priv) : priv :=
  Priv (config s) (planned_connections s) (connections s) (process_map s)
    (cluster_map s) (edge_map s) (process_parent_map s) (parent_stack s)
    (data_dep_connections s) (f (cluster_connections s)) (untyped_connections s)
    (type_pinnings s) (setup s) (setup_in_progress s) (setup_successful s)
    (running s) (calls s).
Definition with_untyped_connections (f : connections_t → connections_t) (s : priv) : priv :=
  Priv (config s) (planned_connections s) (connections s) (process_map s)
    (cluster_map s) (edge_map s) (process_parent_map s) (parent_stack s)
    (data_dep_connections s) (cluster_connections s) (f (untyped_connections s))
    (type_pinnings s) (setup s) (setup_in_progress s) (setup_successful s)
    (running s) (calls s).
Definition with_type_pinnings (f : type_pinnings_t → type_pinnings_t) (s : priv) : priv :=
  Priv (config s) (planned_connections s) (connections s) (process_map s)
    (cluster_map s) (edge_map s) (process_parent_map s) (parent_stack s)
    (data_dep_connections s) (cluster_connections s) (untyped_connections s)
    (f (type_pinnings s)) (setup s) (setup_in_progress s) (setup_successful s)
    (running s) (calls s).
Definition with_setup (b : bool) (s : priv) : priv :=
  Priv (config s) (planned_connections s) (connections s) (process_map s)
    (cluster_map s) (edge_map s) (process_parent_map s) (parent_stack s)
    (data_dep_connections s) (cluster_connections s) (untyped_connections s)
    (type_pinnings s) b (setup_in_progress s) (setup_successful s)
    (running s) (calls s).
Definition with_setup_in_progress (b : bool) (s : priv) : priv :=
  Priv (config s) (planned_connections s) (connections s) (process_map s)
    (cluster_map s) (edge_map s) (process_parent_map s) (parent_stack s)
    (data_dep_connections s) (cluster_connections s) (untyped_connections s)
    (type_pinnings s) (setup s) b (setup_successful s)
    (running s) (calls s).
Definition with_setup_successful (b : bool) (s : priv) : priv :=
  Priv (config s) (planned_connections s) (connections s) (process_map s)
    (cluster_map s) (edge_map s) (process_parent_map s) (parent_stack s)
    (data_dep_connections s) (cluster_connections s) (untyped_connections s)
    (type_pinnings s) (setup s) (setup_in_progress s) b
    (running s) (calls s).
Definition with_running (b : bool) (s : priv) : priv :=
  Priv (config s) (planned_connections s) (connections s) (process_map s)
    (cluster_map s) (edge_map s) (process_parent_map s) (parent_stack s)
    (data_dep_connections s) (cluster_connections s) (untyped_connections s)
    (type_pinnings s) (setup s) (setup_in_progress s) (setup_successful s)
    b (calls s).
Definition with_calls (f : list call → list call) (s : priv) : priv :=
  Priv (config s) (planned_connections s) (connections s) (process_map s)
    (cluster_map s) (edge_map s) (process_parent_map s) (parent_stack s)
    (data_dep_connections s) (cluster_connections s) (untyped_connections s)
    (type_pinnings s) (setup s) (setup_in_progress s) (setup_successful s)
    (running s) (f (calls s)).

(** [pipeline::priv::priv]: every container empty, every flag false. *)
Definition new_priv (conf : C) : priv :=
  Priv conf [] [] ∅ ∅ ∅ ∅ [] [] [] [] [] false false false false [].

(** [pipeline::pipeline]: a null configuration is refused. *)
Definition new_pipeline (conf : option C) : outcome priv :=
  match conf with
  | None => Throw null_pipeline_config_exception
  | Some c => Ret (new_priv c)
  end.

(** ** The monad: state that survives a throw, exceptions, fuel *)

Definition M (A : Type) : Type := priv → outcome A * priv.

Definition ret {A} (a : A) : M A := λ s, (Ret a, s).
Definition throw {A} (e : exception) : M A := λ s, (Throw e, s).
Definition timeout {A} : M A := λ s, (Timeout, s).
Definition bind {A B} (m : M A) (f : A → M B) : M B := λ s,
  match m s with
  | (Ret a, s') => f a s'
  | (Throw e, s') => (Throw e, s')
  | (Timeout, s') => (Timeout, s')
  end.
Definition gets {A} (f : priv → A) : M A := λ s, (Ret (f s), s).
Definition modify (f : priv → priv) : M unit := λ s, (Ret tt, f s).
Definition lift {A} (o : outcome A) : M A := λ s, (o, s).
Definition try_catch {A} (m : M A) (handler : exception → M A) : M A := λ s,
  match m s with
  | (Throw e, s') => handler e s'
  | r => r
  end.

Notation "'let*' x ':=' m 'in' k" := (bind m (λ x, k))
  (at level 10, x name, m at level 100, k at level 200).
Notation "m ';;;' k" := (bind m (λ _, k))
  (at level 100, k at level 200, right associativity).

Fixpoint foreach {A} (l : list A) (body : A → M unit) : M unit :=
  match l with
  | [] => ret tt
  | x :: l' => body x ;;; foreach l' body
  end.

Fixpoint fold_each {A B} (l : list A) (acc : B) (body : B → A → M B) : M B :=
  match l with
  | [] => ret acc
  | x :: l' => let* acc' := body acc x in fold_each l' acc' body
  end.

Definition when (b : bool) (m : M unit) : M unit := if b then m else ret tt.

Definition push_back {A} (x : A) (l : list A) : list A := l ++ [x].

Definition starts_with (s prefix : string) : bool := String.prefix prefix s.

Definition conn_upstream_name (c : connection_t) : name_t := c.1.1.
Definition conn_upstream_port (c : connection_t) : port_t := c.1.2.
Definition conn_downstream_name (c : connection_t) : name_t := c.2.1.
Definition conn_downstream_port (c : connection_t) : port_t := c.2.2.

Definition process_name (p : process_t P) : name_t :=
  match p with
  | plain_process p => name p
  | process_cluster n _ _ _ _ => n
  end.

(** ** Static predicates on connections *)

Definition is_upstream_for (addr : port_addr_t) (connection : connection_t) : bool :=
  bool_decide (addr = connection.1).
Definition is_downstream_for (addr : port_addr_t) (connection : connection_t) : bool :=
  bool_decide (addr = connection.2).
Definition is_addr_on (n : name_t) (addr : port_addr_t) : bool :=
  bool_decide (n = addr.1).
Definition is_connection_with (n : name_t) (connection : connection_t) : bool :=
  is_addr_on n connection.1 || is_addr_on n connection.2.
Definition is_cluster_connection_with (n : name_t) (cc : cluster_connection_t) : bool :=
  is_connection_with n cc.1.
Definition is_cluster_connection_for (connection : connection_t)
    (cc : cluster_connection_t) : bool :=
  bool_decide (connection = cc.1).

(** [std::remove_if] followed by [erase]. *)
Definition forget {A} (f : A → bool) (l : list A) : list A :=
  List.filter (λ x, negb (f x)) l.

(** ** Registry *)

Definition check_duplicate_name (n : name_t) : M unit :=
  let* s := gets id in
  if bool_decide (is_Some (process_map s !! n)) || bool_decide (is_Some (cluster_map s !! n))
  then throw (duplicate_process_name_exception n)
  else ret tt.

Definition remove_from_pipeline (n : name_t) : M unit :=
  modify (with_planned_connections (forget (is_connection_with n))) ;;;
  modify (with_connections (forget (is_connection_with n))) ;;;
  modify (with_data_dep_connections (forget (is_connection_with n))) ;;;
  modify (with_untyped_connections (forget (is_connection_with n))) ;;;
  modify (with_cluster_connections (forget (is_cluster_connection_with n))).

Definition process_by_name (n : name_t) : M P :=
  let* s := gets id in
  match process_map s !! n with
  | None => throw (no_such_process_exception n)
  | Some p => ret p
  end.

Definition process_names : M (list name_t) :=
  gets (λ s, sorted_names (elements (dom (process_map s)))).

Definition parent_cluster (n : name_t) : M name_t :=
  let* s := gets id in
  match process_parent_map s !! n with
  | None => throw (no_such_process_exception n)
  | Some parent => ret parent
  end.

Definition cluster_names : M (list name_t) :=
  gets (λ s, sorted_names (elements (dom (cluster_map s)))).

Definition cluster_by_name (n : name_t) : M (process_t P) :=
  let* s := gets id in
  match cluster_map s !! n with
  | None => throw (no_such_process_exception n)
  | Some c => ret c
  end.

(** ** Type-check kernel *)

Definition check_connection_types (connection : connection_t)
    (up_type down_type : port_type_t) : M port_type_status :=
  let up_data_dep := bool_decide (up_type = type_data_dependent) in
  if up_data_dep then
    modify (with_data_dep_connections (push_back connection)) ;;;
    ret type_deferred
  else
    let up_flow_dep := starts_with up_type type_flow_dependent in
    let down_flow_dep := starts_with down_type type_flow_dependent in
    if up_flow_dep || down_flow_dep then
      (if up_flow_dep && down_flow_dep then
         modify (with_untyped_connections (push_back connection))
       else if up_flow_dep then
         modify (with_type_pinnings (push_back (connection, push_upstream)))
       else if down_flow_dep then
         modify (with_type_pinnings (push_back (connection, push_downstream)))
       else ret tt) ;;;
      ret type_deferred
    else if negb (bool_decide (up_type = type_any))
            && negb (bool_decide (down_type = type_any))
            && negb (bool_decide (up_type = down_type)) then
      ret type_mismatch
    else
      ret type_compatible.

Definition check_connection_flags (up_flags down_flags : port_flags_t) : bool :=
  let is_const := bool_decide (flag_output_const ∈ up_flags) in
  let requires_mutable := bool_decide (flag_input_mutable ∈ down_flags) in
  if is_const && requires_mutable then false else true.

(** ** [pipeline::connect] *)

Definition connect (upstream_name : name_t) (upstream_port : port_t)
    (downstream_name : name_t) (downstream_port : port_t) : M unit :=
  let up_addr : port_addr_t := (upstream_name, upstream_port) in
  let down_addr : port_addr_t := (downstream_name, downstream_port) in
  let connection : connection_t := (up_addr, down_addr) in
  let* s := gets id in
  if setup s && negb (setup_in_progress s) then
    throw (connection_after_setup_exception connection)
  else
    when (negb (setup_in_progress s))
      (modify (with_planned_connections (push_back connection))) ;;;
    let upstream_is_cluster := bool_decide (is_Some (cluster_map s !! upstream_name)) in
    let downstream_is_cluster := bool_decide (is_Some (cluster_map s !! downstream_name)) in
    if upstream_is_cluster || downstream_is_cluster then
      if upstream_is_cluster then
        modify (with_cluster_connections (push_back (connection, cluster_upstream)))
      else if downstream_is_cluster then
        modify (with_cluster_connections (push_back (connection, cluster_downstream)))
      else ret tt
    else
      let* up_proc := process_by_name upstream_name in
      let* down_proc := process_by_name downstream_name in
      let* up_info := lift (output_port_info up_proc upstream_port) in
      let* down_info := lift (input_port_info down_proc downstream_port) in
      if negb (check_connection_flags (flags up_info) (flags down_info)) then
        throw (connection_flag_mismatch_exception connection)
      else
        let up_type := type up_info in
        let down_type := type down_info in
        let* status := check_connection_types connection up_type down_type in
        match status with
        | type_deferred => ret tt
        | type_mismatch =>
            throw (connection_type_mismatch_exception connection up_type down_type)
        | type_compatible =>
            modify (with_connections (push_back connection))
        end.

Definition connect_connection (c : connection_t) : M unit :=
  connect (conn_upstream_name c) (conn_upstream_port c)
          (conn_downstream_name c) (conn_downstream_port c).


(** ** [pipeline::add_process] and [pipeline::remove_process] *)

Fixpoint add_process_node (process : process_t P) : M unit :=
  let* s := gets id in
  if setup s then throw (add_after_setup_exception (process_name process))
  else
    let n := process_name process in
    check_duplicate_name n ;;;
    let parent := match parent_stack s with [] => "" | top :: _ => top end in
    match process with
    | process_cluster _ cluster_procs internal _ _ =>
        modify (with_cluster_map (insert n process)) ;;;
        modify (with_process_parent_map (insert n parent)) ;;;
        modify (with_parent_stack (cons n)) ;;;
        (fix add_all (l : list (process_t P)) : M unit :=
           match l with
           | [] => ret tt
           | cluster_proc :: l' => add_process_node cluster_proc ;;; add_all l'
           end) cluster_procs ;;;
        foreach internal connect_connection ;;;
        modify (with_parent_stack (drop 1))
    | plain_process p =>
        modify (with_process_map (insert n p)) ;;;
        modify (with_process_parent_map (insert n parent))
    end.

(** The argument is a shared pointer, which may be null. *)
Definition add_process (process : option (process_t P)) : M unit :=
  match process with
  | None => throw null_process_addition_exception
  | Some p => add_process_node p
  end.

(** The recursion follows whatever [cluster_map] holds under the children's
    names, so it is bounded by [fuel] levels of nesting. *)
Fixpoint remove_process (fuel : nat) (n : name_t) : M unit :=
  match fuel with
  | O => timeout
  | S fuel' =>
      let* s := gets id in
      if setup s then throw (remove_after_setup_exception n)
      else
        match cluster_map s !! n with
        | Some cluster =>
            foreach (cluster_processes cluster)
              (λ cluster_proc, remove_process fuel' (process_name cluster_proc)) ;;;
            modify (with_cluster_map (delete n))
        | None =>
            match process_map s !! n with
            | None => throw (no_such_process_exception n)
            | Some _ =>
                modify (with_process_map (delete n)) ;;;
                remove_from_pipeline n
            end
        end
  end.

Definition disconnect (upstream_name : name_t) (upstream_port : port_t)
    (downstream_name : name_t) (downstream_port : port_t) : M unit :=
  let conn : connection_t :=
    ((upstream_name, upstream_port), (downstream_name, downstream_port)) in
  let* s := gets id in
  if setup s then throw (disconnection_after_setup_exception conn)
  else
    let eq := λ c : connection_t, bool_decide (conn = c) in
    modify (with_planned_connections (forget eq)) ;;;
    modify (with_connections (forget eq)) ;;;
    modify (with_data_dep_connections (forget eq)) ;;;
    modify (with_untyped_connections (forget eq)) ;;;
    modify (with_cluster_connections (forget (is_cluster_connection_for conn))).

Definition is_setup : M bool := gets setup.
Definition is_setup_successful : M bool := gets setup_successful.

(** ** Queries *)

Definition ensure_setup : M unit :=
  let* s := gets id in
  if negb (setup s) then throw pipeline_not_setup_exception
  else if negb (setup_in_progress s) && negb (setup_successful s) then
    throw pipeline_not_ready_exception
  else ret tt.

Definition connections_from_addr (n : name_t) (port : port_t) : M (list port_addr_t) :=
  gets (λ s, (λ c : connection_t, c.2) <$>
    List.filter (λ c, bool_decide (conn_upstream_name c = n)
                      && bool_decide (conn_upstream_port c = port))
                (planned_connections s)).

Definition connection_to_addr (n : name_t) (port : port_t) : M port_addr_t :=
  gets (λ s,
    match List.find (λ c, bool_decide (conn_downstream_name c = n)
                          && bool_decide (conn_downstream_port c = port))
                    (planned_connections s) with
    | Some c => c.1
    | None => ("", "")
    end).

(** Handles for the names of a [std::set], in key order; a name the process
    map does not hold has no handle to give. *)
Definition processes_of (s : priv) (names : gset string) : list P :=
  omap (λ n, process_map s !! n) (sorted_names (elements names)).

Definition upstream_for_process (n : name_t) : M (list P) :=
  ensure_setup ;;;
  gets (λ s, processes_of s (list_to_set (conn_upstream_name <$>
    List.filter (λ c, bool_decide (conn_downstream_name c = n)) (connections s)))).

Definition upstream_for_port (n : name_t) (port : port_t) : M (option P) :=
  ensure_setup ;;;
  gets (λ s,
    match List.find (λ c, bool_decide (conn_downstream_name c = n)
                          && bool_decide (conn_downstream_port c = port))
                    (connections s) with
    | Some c => process_map s !! conn_upstream_name c
    | None => None
    end).

Definition downstream_for_process (n : name_t) : M (list P) :=
  ensure_setup ;;;
  gets (λ s, processes_of s (list_to_set (conn_downstream_name <$>
    List.filter (λ c, bool_decide (conn_upstream_name c = n)) (connections s)))).

Definition downstream_for_port (n : name_t) (port : port_t) : M (list P) :=
  ensure_setup ;;;
  gets (λ s, processes_of s (list_to_set (conn_downstream_name <$>
    List.filter (λ c, bool_decide (conn_upstream_name c = n)
                      && bool_decide (conn_upstream_port c = port))
                (connections s)))).

Definition sender_for_port (n : name_t) (port : port_t) : M port_addr_t :=
  ensure_setup ;;;
  gets (λ s,
    match List.find (λ c, bool_decide (conn_downstream_name c = n)
                          && bool_decide (conn_downstream_port c = port))
                    (connections s) with
    | Some c => c.1
    | None => ("", "")
    end).

Definition receivers_for_port (n : name_t) (port : port_t) : M (list port_addr_t) :=
  ensure_setup ;;;
  gets (λ s, (λ c : connection_t, c.2) <$>
    List.filter (λ c, bool_decide (conn_upstream_name c = n)
                      && bool_decide (conn_upstream_port c = port))
                (connections s)).

(** Index of the first element of [l] that satisfies [f]. *)
Fixpoint find_index {A} (f : A → bool) (l : list A) : option nat :=
  match l with
  | [] => None
  | x :: l' => if f x then Some 0 else S <$> find_index f l'
  end.

(** [edge_map[i]] on a [std::map]: a missing key is inserted with a null
    edge. *)
Definition edge_map_at (i : nat) : M edge_t :=
  let* s := gets id in
  match edge_map s !! i with
  | Some e => ret e
  | None => modify (with_edge_map (insert i None)) ;;; ret None
  end.

Definition edge_for_connection (upstream_name : name_t) (upstream_port : port_t)
    (downstream_name : name_t) (downstream_port : port_t) : M edge_t :=
  ensure_setup ;;;
  let* s := gets id in
  match find_index (λ c, bool_decide (conn_upstream_name c = upstream_name)
                         && bool_decide (conn_upstream_port c = upstream_port)
                         && bool_decide (conn_downstream_name c = downstream_name)
                         && bool_decide (conn_downstream_port c = downstream_port))
                   (connections s) with
  | Some i => edge_map_at i
  | None => ret None
  end.

(** The entries of [edge_map] in key order, each with the connection stored
    at its index; an index past the end of [connections] selects nothing. *)
Definition edge_entries (s : priv) : list (connection_t * edge_t) :=
  omap (λ ie : nat * edge_t, (λ c, (c, ie.2)) <$> connections s !! ie.1)
       (merge_sort index_key_le (map_to_list (edge_map s))).

Definition input_edges_for_process (n : name_t) : M edges_t :=
  ensure_setup ;;;
  gets (λ s, snd <$> List.filter
    (λ ce : connection_t * edge_t, bool_decide (conn_downstream_name ce.1 = n))
    (edge_entries s)).

Definition input_edge_for_port (n : name_t) (port : port_t) : M edge_t :=
  ensure_setup ;;;
  gets (λ s,
    match List.find (λ ce : connection_t * edge_t,
                       bool_decide (conn_downstream_name ce.1 = n)
                       && bool_decide (conn_downstream_port ce.1 = port))
                    (edge_entries s) with
    | Some ce => ce.2
    | None => None
    end).

Definition output_edges_for_process (n : name_t) : M edges_t :=
  ensure_setup ;;;
  gets (λ s, snd <$> List.filter
    (λ ce : connection_t * edge_t, bool_decide (conn_upstream_name ce.1 = n))
    (edge_entries s)).

Definition output_edges_for_port (n : name_t) (port : port_t) : M edges_t :=
  ensure_setup ;;;
  gets (λ s, snd <$> List.filter
    (λ ce : connection_t * edge_t,
       bool_decide (conn_upstream_name ce.1 = n)
       && bool_decide (conn_upstream_port ce.1 = port))
    (edge_entries s)).

Definition start : M unit :=
  ensure_setup ;;; modify (with_running true).

Definition stop : M unit :=
  let* s := gets id in
  if negb (running s) then throw (logic_error "Start/stop pipeline state tracking failed")
  else modify (with_running false).

(** ** Setup passes *)

Definition log_call (c : call) : M unit := modify (with_calls (push_back c)).

(** Processes are shared objects: a method that changes the process
    registered as [n] is seen by every later lookup of [n]. *)
Definition store_process (n : name_t) (p : P) : M unit :=
  modify (with_process_map (insert n p)).

Definition invoke {A} (n : name_t) (method : P → outcome (A * P)) : M A :=
  let* proc := process_by_name n in
  let* r := lift (method proc) in
  store_process n r.2 ;;;
  ret r.1.

Definition void_method (method : P → outcome P) (p : P) : outcome (unit * P) :=
  match method p with
  | Ret p' => Ret (tt, p')
  | Throw e => Throw e
  | Timeout => Timeout
  end.

Definition check_for_processes : M unit :=
  let* s := gets id in
  if bool_decide (size (process_map s) = 0) then throw no_processes_exception
  else ret tt.

(** One entry of the snapshot of [cluster_connections]. *)
Definition map_cluster_connection (cconnection : cluster_connection_t) : M unit :=
  let connection := cconnection.1 in
  let upstream_addr := connection.1 in
  let downstream_addr := connection.2 in
  match cconnection.2 with
  | cluster_upstream =>
      let cluster_name := upstream_addr.1 in
      let cluster_port := upstream_addr.2 in
      let* s := gets id in
      match cluster_map s !! cluster_name with
      | None => throw (no_such_process_exception cluster_name)
      | Some cluster =>
          let mapped_connections :=
            List.filter (is_downstream_for upstream_addr) (cluster_output_mappings cluster) in
          match mapped_connections with
          | [] => throw (no_such_port_exception cluster_name cluster_port)
          | [mapped_port_conn] =>
              let mapped_port_addr := mapped_port_conn.1 in
              connect mapped_port_addr.1 mapped_port_addr.2
                      downstream_addr.1 downstream_addr.2
          | _ => throw (logic_error
                   "Failed to ensure that only one output mapping is allowed on a cluster port")
          end
      end
  | cluster_downstream =>
      let cluster_name := downstream_addr.1 in
      let cluster_port := downstream_addr.2 in
      let* s := gets id in
      match cluster_map s !! cluster_name with
      | None => throw (no_such_process_exception cluster_name)
      | Some cluster =>
          let mapped_connections :=
            List.filter (is_upstream_for downstream_addr) (cluster_input_mappings cluster) in
          match mapped_connections with
          | [] => throw (no_such_port_exception cluster_name cluster_port)
          | _ =>
              foreach mapped_connections (λ mapped_port_conn,
                let mapped_port_addr := mapped_port_conn.2 in
                connect upstream_addr.1 upstream_addr.2
                        mapped_port_addr.1 mapped_port_addr.2)
          end
      end
  end.

Fixpoint map_cluster_connections (fuel : nat) : M unit :=
  match fuel with
  | O => timeout
  | S fuel' =>
      let* cconnections := gets cluster_connections in
      modify (with_cluster_connections (λ _, [])) ;;;
      foreach cconnections map_cluster_connection ;;;
      let* remaining := gets cluster_connections in
      match remaining with
      | [] => ret tt
      | _ => map_cluster_connections fuel'
      end
  end.

Definition configure_processes : M unit :=
  let* names := process_names in
  foreach names (λ n,
    process_by_name n ;;;
    log_call (call_configure n) ;;;
    invoke n (void_method configure) ;;;
    let* data_deps := gets data_dep_connections in
    let* r := fold_each data_deps (false, [])
      (λ (acc : bool * connections_t) data_dep_connection,
         let data_name := conn_upstream_name data_dep_connection in
         let data_port := conn_upstream_port data_dep_connection in
         if bool_decide (n = data_name) then
           let* proc := process_by_name n in
           let* info := lift (output_port_info proc data_port) in
           if bool_decide (type info = type_data_dependent) then
             throw (untyped_data_dependent_exception data_name data_port)
           else
             connect_connection data_dep_connection ;;;
             ret (true, acc.2)
         else ret (acc.1, push_back data_dep_connection acc.2)) in
    when r.1 (modify (with_data_dep_connections (λ _, r.2)))).

Definition check_for_data_dep_ports : M unit :=
  let* s := gets id in
  match data_dep_connections s with
  | [] => ret tt
  | _ => throw (logic_error "Data dependency port tracking failed")
  end.

(** One connection of the snapshot taken by [propagate] for the process
    [n] at the front of the queue [kyu]. *)
Definition propagate_connection (n : name_t) (kyu : list name_t)
    (connection : connection_t) : M (list name_t) :=
  let upstream_name := conn_upstream_name connection in
  let upstream_port := conn_upstream_port connection in
  let downstream_name := conn_downstream_name connection in
  let downstream_port := conn_downstream_port connection in
  let* proc := process_by_name n in
  if bool_decide (downstream_name = n) then
    let* info := lift (input_port_info proc downstream_port) in
    let ty := type info in
    if negb (starts_with ty type_flow_dependent) then
      let* ok := invoke upstream_name (λ p, set_output_port_type p upstream_port ty) in
      if negb ok then throw (propagation_exception connection ty true)
      else
        connect_connection connection ;;;
        ret (push_back upstream_name kyu)
    else
      modify (with_untyped_connections (push_back connection)) ;;; ret kyu
  else if bool_decide (upstream_name = n) then
    let* info := lift (output_port_info proc upstream_port) in
    let ty := type info in
    if negb (starts_with ty type_flow_dependent) then
      let* ok := invoke downstream_name (λ p, set_input_port_type p downstream_port ty) in
      if negb ok then throw (propagation_exception connection ty false)
      else
        connect_connection connection ;;;
        ret (push_back downstream_name kyu)
    else
      modify (with_untyped_connections (push_back connection)) ;;; ret kyu
  else
    modify (with_untyped_connections (push_back connection)) ;;; ret kyu.

Fixpoint propagate_loop (fuel : nat) (kyu : list name_t) : M unit :=
  match fuel with
  | O => timeout
  | S fuel' =>
      match kyu with
      | [] => ret tt
      | n :: rest =>
          process_by_name n ;;;
          let* conns := gets untyped_connections in
          modify (with_untyped_connections (λ _, [])) ;;;
          let* kyu' := fold_each conns rest (propagate_connection n) in
          propagate_loop fuel' kyu'
      end
  end.

Definition propagate (fuel : nat) (root : name_t) : M unit :=
  propagate_loop fuel [root].

Definition propagate_pinning (fuel : nat) (pinning : type_pinning_t) : M unit :=
  let connection := pinning.1 in
  let upstream_name := conn_upstream_name connection in
  let upstream_port := conn_upstream_port connection in
  let downstream_name := conn_downstream_name connection in
  let downstream_port := conn_downstream_port connection in
  let* up_proc := process_by_name upstream_name in
  let* down_proc := process_by_name downstream_name in
  let* up_info := lift (output_port_info up_proc upstream_port) in
  let* down_info := lift (input_port_info down_proc downstream_port) in
  let up_type := type up_info in
  let down_type := type down_info in
  let* pinned :=
    match pinning.2 with
    | push_upstream =>
        let* ok := invoke upstream_name
                     (λ p, set_output_port_type p upstream_port down_type) in
        if negb ok then
          throw (connection_dependent_type_exception connection down_type true)
        else ret (upstream_name, upstream_port, down_type)
    | push_downstream =>
        let* ok := invoke downstream_name
                     (λ p, set_input_port_type p downstream_port up_type) in
        if negb ok then
          throw (connection_dependent_type_exception connection up_type false)
        else ret (downstream_name, downstream_port, up_type)
    end in
  try_catch (propagate fuel pinned.1.1)
    (λ e, match e with
          | propagation_exception c t push_up =>
              throw (connection_dependent_type_cascade_exception
                       pinned.1.1 pinned.1.2 pinned.2 c t push_up)
          | _ => throw e
          end) ;;;
  connect_connection connection.

Fixpoint propagate_pinned_types (fuel_propagate fuel : nat) : M unit :=
  match fuel with
  | O => timeout
  | S fuel' =>
      let* pinnings := gets type_pinnings in
      modify (with_type_pinnings (λ _, [])) ;;;
      foreach pinnings (propagate_pinning fuel_propagate) ;;;
      let* remaining := gets type_pinnings in
      match remaining with
      | [] => ret tt
      | _ => propagate_pinned_types fuel_propagate fuel'
      end
  end.

Definition check_for_untyped_ports : M unit :=
  let* s := gets id in
  match untyped_connections s with
  | [] => ret tt
  | _ => throw untyped_connection_exception
  end.

Definition port_sep : string := ".".
Definition config_edge : string := "_edge".
Definition config_edge_type : string := "_edge_by_type".
Definition config_edge_conn : string := "_edge_by_conn".

(** The edge of the connection stored at index [i].  The edge object is
    shared by the edge map and the two processes; no operation of the
    pipeline reads it back through a process, so the processes are handed
    the edge as constructed. *)
Definition make_connection (i : nat) (connection : connection_t) : M unit :=
  let upstream_name := conn_upstream_name connection in
  let upstream_port := conn_upstream_port connection in
  let downstream_name := conn_downstream_name connection in
  let downstream_port := conn_downstream_port connection in
  let* up_proc := process_by_name upstream_name in
  let* down_proc := process_by_name downstream_name in
  let* down_info := lift (input_port_info down_proc downstream_port) in
  let down_flags := flags down_info in
  let* conf := gets config in
  let edge_config := subblock conf config_edge in
  let down_type := type down_info in
  let type_config := subblock conf config_edge_type in
  let edge_type_config := subblock type_config down_type in
  let* edge_config := lift (merge_config edge_config edge_type_config) in
  let conn_config := subblock conf config_edge_conn in
  let up_config := subblock conn_config (upstream_name +:+ port_sep +:+ upstream_port) in
  let down_config := subblock conn_config (downstream_name +:+ port_sep +:+ downstream_port) in
  let* edge_config := lift (merge_config edge_config up_config) in
  let* edge_config := lift (merge_config edge_config down_config) in
  let has_nodep := bool_decide (flag_input_nodep ∈ down_flags) in
  let* edge_config :=
    lift (set_value edge_config config_dependency (if has_nodep then "false" else "true")) in
  let edge_config := mark_read_only edge_config config_dependency in
  let* e := lift (make_edge edge_config) in
  modify (with_edge_map (insert i (Some e))) ;;;
  invoke upstream_name (void_method (λ p, connect_output_port p upstream_port e)) ;;;
  invoke downstream_name (void_method (λ p, connect_input_port p downstream_port e)) ;;;
  let* up_proc := process_by_name upstream_name in
  let e := set_upstream_process e up_proc in
  let* down_proc := process_by_name downstream_name in
  let e := set_downstream_process e down_proc in
  modify (with_edge_map (insert i (Some e))).

Definition make_connections : M unit :=
  let* conns := gets connections in
  foreach (imap (λ i c, (i, c)) conns) (λ ic, make_connection ic.1 ic.2).

Definition check_required_inputs (cur_proc : name_t) (process : P) : M unit :=
  foreach (input_ports process) (λ port,
    let* info := lift (input_port_info process port) in
    if bool_decide (flag_required ∈ flags info) then
      let* e := input_edge_for_port cur_proc port in
      match e with
      | None => throw (missing_connection_exception cur_proc port
                         "The input port has the required flag")
      | Some _ => ret tt
      end
    else ret tt).

Definition check_required_outputs (cur_proc : name_t) (process : P) : M unit :=
  foreach (output_ports process) (λ port,
    let* info := lift (output_port_info process port) in
    if bool_decide (flag_required ∈ flags info) then
      let* es := output_edges_for_port cur_proc port in
      match es with
      | [] => throw (missing_connection_exception cur_proc port
                       "The output port has the required flag")
      | _ => ret tt
      end
    else ret tt).

Fixpoint visit_processes (fuel : nat) (to_visit : list name_t) (procs : gset string)
    : M (gset string) :=
  match fuel with
  | O => timeout
  | S fuel' =>
      match to_visit with
      | [] => ret procs
      | cur_proc :: rest =>
          if bool_decide (cur_proc ∈ procs) then visit_processes fuel' rest procs
          else
            let procs' := {[cur_proc]} ∪ procs in
            let* process := process_by_name cur_proc in
            check_required_inputs cur_proc process ;;;
            check_required_outputs cur_proc process ;;;
            let* upstream_procs := upstream_for_process cur_proc in
            let* downstream_procs := downstream_for_process cur_proc in
            let connected_procs := upstream_procs ++ downstream_procs in
            visit_processes fuel' (rest ++ (name <$> connected_procs)) procs'
      end
  end.

Definition check_for_required_ports (fuel : nat) : M unit :=
  let* names := process_names in
  let* procs := visit_processes fuel (take 1 names) ∅ in
  let* s := gets id in
  if bool_decide (size procs = size (process_map s)) then ret tt
  else throw orphaned_processes_exception.

(** [boost::topological_sort] throws [not_a_dag] exactly when the graph has
    a cycle; decided here by removing, round after round, the vertices that
    no remaining vertex points to. *)
Fixpoint acyclic_from (fuel : nat) (vertices : list nat) (edges : list (nat * nat))
    : bool :=
  match fuel with
  | O => bool_decide (vertices = [])
  | S fuel' =>
      let sources :=
        List.filter (λ v, forallb (λ e : nat * nat,
          negb (bool_decide (e.2 = v) && bool_decide (e.1 ∈ vertices))) edges) vertices in
      match sources with
      | [] => bool_decide (vertices = [])
      | _ => acyclic_from fuel' (List.filter (λ v, bool_decide (v ∉ sources)) vertices) edges
      end
  end.

Definition topological_sort_succeeds (n : nat) (edges : list (nat * nat)) : bool :=
  acyclic_from n (seq 0 n) edges.

(** [vertex_map[n]]: a missing name yields the default descriptor. *)
Definition vertex_of (names : list name_t) (n : name_t) : nat :=
  default 0 (find_index (λ m, bool_decide (m = n)) names).

Definition check_for_dag : M unit :=
  let* names := process_names in
  let* edges := fold_each names []
    (λ (edges : list (nat * nat)) n,
       let* proc := process_by_name n in
       let t := vertex_of names n in
       fold_each (input_ports proc) edges
         (λ (edges : list (nat * nat)) port,
            let* sender := sender_for_port n port in
            if bool_decide (sender = ("", "")) then ret edges
            else
              let* info := lift (input_port_info proc port) in
              if bool_decide (flag_input_nodep ∈ flags info) then ret edges
              else ret (push_back (vertex_of names sender.1, t) edges))) in
  if topological_sort_succeeds (length names) edges then ret tt
  else throw not_a_dag_exception.

Definition initialize_processes : M unit :=
  let* names := process_names in
  foreach names (λ n,
    process_by_name n ;;;
    log_call (call_init n) ;;;
    invoke n (void_method init)).

(** ** Frequency solver *)

(** The body of the work-queue loop once both port frequencies are known:
    the new frequency map and what goes back on the queue. *)
Definition check_connection_frequency (freq_map : gmap string port_frequency_t)
    (connection : connection_t) (up_port_freq down_port_freq : port_frequency_t)
    : outcome (gmap string port_frequency_t * list connection_t) :=
  let upstream_name := conn_upstream_name connection in
  let downstream_name := conn_downstream_name connection in
  let i_up := freq_map !! upstream_name in
  let i_down := freq_map !! downstream_name in
  let seed := bool_decide (i_up = None) && bool_decide (i_down = None)
              && bool_decide (size freq_map = 0) in
  let freq_map := if seed then <[upstream_name := base_freq]> freq_map else freq_map in
  let have_upstream := seed || negb (bool_decide (i_up = None)) in
  let have_downstream := negb (bool_decide (i_down = None)) in
  if have_upstream && have_downstream then
    let up_proc_freq := default 0%Q (freq_map !! upstream_name) in
    let edge_freq := freq_mul up_proc_freq up_port_freq in
    let expect_freq := freq_div edge_freq down_port_freq in
    let down_proc_freq := default 0%Q (freq_map !! downstream_name) in
    if freq_neq down_proc_freq expect_freq then
      Throw (frequency_mismatch_exception connection up_proc_freq down_proc_freq)
    else Ret (freq_map, [])
  else if have_upstream then
    let up_proc_freq := default 0%Q (freq_map !! upstream_name) in
    let edge_freq := freq_mul up_proc_freq up_port_freq in
    let expect_freq := freq_div edge_freq down_port_freq in
    Ret (<[downstream_name := expect_freq]> freq_map, [])
  else if have_downstream then
    let down_proc_freq := default 0%Q (freq_map !! downstream_name) in
    let edge_freq := freq_mul down_proc_freq down_port_freq in
    let expect_freq := freq_div edge_freq up_port_freq in
    Ret (<[upstream_name := expect_freq]> freq_map, [])
  else Ret (freq_map, [connection]).

(** The two port frequencies of a connection, as the loop reads them. *)
Definition connection_port_frequencies (connection : connection_t)
    : M (port_frequency_t * port_frequency_t) :=
  let* up_proc := process_by_name (conn_upstream_name connection) in
  let* up_info := lift (output_port_info up_proc (conn_upstream_port connection)) in
  let* down_proc := process_by_name (conn_downstream_name connection) in
  let* down_info := lift (input_port_info down_proc (conn_downstream_port connection)) in
  ret (frequency up_info, frequency down_info).

Fixpoint solve_frequencies (fuel : nat) (freq_map : gmap string port_frequency_t)
    (unchecked_connections : list connection_t) : M (gmap string port_frequency_t) :=
  match fuel with
  | O => timeout
  | S fuel' =>
      match unchecked_connections with
      | [] => ret freq_map
      | connection :: rest =>
          let* fs := connection_port_frequencies connection in
          if freq_unknown fs.1 || freq_unknown fs.2 then
            solve_frequencies fuel' freq_map rest
          else
            let* r := lift (check_connection_frequency freq_map connection fs.1 fs.2) in
            solve_frequencies fuel' r.1 (rest ++ r.2)
      end
  end.

Definition freq_entries (freq_map : gmap string port_frequency_t)
    : list (name_t * port_frequency_t) :=
  merge_sort name_key_le (map_to_list freq_map).

Definition denominators_lcm (entries : list (name_t * port_frequency_t)) : Z :=
  foldl (λ freq_gcd proc_freq, Z.lcm freq_gcd (freq_denominator proc_freq.2)) 1%Z entries.

Definition set_process_core_frequency (n : name_t) (core_freq : port_frequency_t) : M unit :=
  process_by_name n ;;;
  log_call (call_set_core_frequency n core_freq) ;;;
  invoke n (void_method (λ p, set_core_frequency p core_freq)).

Definition check_port_frequencies (fuel : nat) : M unit :=
  let* s := gets id in
  if bool_decide (size (process_map s) = 1) then
    match sorted_names (elements (dom (process_map s))) with
    | n :: _ => set_process_core_frequency n base_freq
    | [] => ret tt
    end
  else
    let* freq_map := solve_frequencies fuel ∅ (connections s) in
    let entries := freq_entries freq_map in
    let freq_gcd := denominators_lcm entries in
    foreach entries (λ proc_freq,
      set_process_core_frequency proc_freq.1 (freq_scale freq_gcd proc_freq.2)).

(** ** [setup_pipeline] and [reset] *)

Definition setup_passes (fuel : nat) : M unit :=
  map_cluster_connections fuel ;;;
  configure_processes ;;;
  check_for_data_dep_ports ;;;
  propagate_pinned_types fuel fuel ;;;
  check_for_untyped_ports ;;;
  make_connections ;;;
  check_for_required_ports fuel ;;;
  check_for_dag ;;;
  initialize_processes ;;;
  check_port_frequencies fuel.

Definition setup_pipeline (fuel : nat) : M unit :=
  let* s := gets id in
  if setup s then throw pipeline_duplicate_setup_exception
  else
    check_for_processes ;;;
    modify (with_setup true) ;;;
    modify (with_setup_in_progress true) ;;;
    modify (with_setup_successful false) ;;;
    try_catch (setup_passes fuel)
      (λ e, modify (with_setup_in_progress false) ;;; throw e) ;;;
    modify (with_setup_in_progress false) ;;;
    modify (with_setup_successful true).

Definition reset : M unit :=
  let* s := gets id in
  if running s then throw reset_running_pipeline_exception
  else
    modify (with_setup false) ;;;
    modify (with_setup_successful false) ;;;
    let* names := process_names in
    foreach names (λ n,
      process_by_name n ;;;
      log_call (call_reset n) ;;;
      invoke n (void_method reset_process)) ;;;
    modify (with_connections (λ _, [])) ;;;
    modify (with_edge_map (λ _, ∅)) ;;;
    modify (with_data_dep_connections (λ _, [])) ;;;
    modify (with_cluster_connections (λ _, [])) ;;;
    modify (with_untyped_connections (λ _, [])) ;;;
    modify (with_type_pinnings (λ _, [])) ;;;
    modify (with_setup_in_progress true) ;;;
    let* replayed := gets planned_connections in
    foreach replayed connect_connection ;;;
    modify (with_setup_in_progress false).

(** ** Vocabulary of the statements below *)

(** The state [connect] works on once the connection is recorded as planned
    (which happens only outside of [setup_pipeline]). *)
Definition planned (s : priv) (c : connection_t) : priv :=
  if setup_in_progress s then s else with_planned_connections (push_back c) s.

Definition is_flag_mismatch {A} (r : outcome A) : Prop :=
  ∃ c, r = Throw (connection_flag_mismatch_exception c).

(** The operations that begin with [ensure_setup], and what they answer. *)
Inductive query :=
| ask_upstream_for_process (n : name_t)
| ask_upstream_for_port (n : name_t) (port : port_t)
| ask_downstream_for_process (n : name_t)
| ask_downstream_for_port (n : name_t) (port : port_t)
| ask_sender_for_port (n : name_t) (port : port_t)
| ask_receivers_for_port (n : name_t) (port : port_t)
| ask_edge_for_connection (upstream_name : name_t) (upstream_port : port_t)
    (downstream_name : name_t) (downstream_port : port_t)
| ask_input_edges_for_process (n : name_t)
| ask_input_edge_for_port (n : name_t) (port : port_t)
| ask_output_edges_for_process (n : name_t)
| ask_output_edges_for_port (n : name_t) (port : port_t)
| ask_start.

Inductive answer :=
| answer_processes (ps : list P)
| answer_process (p : option P)
| answer_addr (a : port_addr_t)
| answer_addrs (l : list port_addr_t)
| answer_edge (e : edge_t)
| answer_edges (es : edges_t)
| answer_done.

Definition run_query (q : query) : M answer :=
  match q with
  | ask_upstream_for_process n =>
      let* r := upstream_for_process n in ret (answer_processes r)
  | ask_upstream_for_port n port =>
      let* r := upstream_for_port n port in ret (answer_process r)
  | ask_downstream_for_process n =>
      let* r := downstream_for_process n in ret (answer_processes r)
  | ask_downstream_for_port n port =>
      let* r := downstream_for_port n port in ret (answer_processes r)
  | ask_sender_for_port n port =>
      let* r := sender_for_port n port in ret (answer_addr r)
  | ask_receivers_for_port n port =>
      let* r := receivers_for_port n port in ret (answer_addrs r)
  | ask_edge_for_connection un up dn dp =>
      let* r := edge_for_connection un up dn dp in ret (answer_edge r)
  | ask_input_edges_for_process n =>
      let* r := input_edges_for_process n in ret (answer_edges r)
  | ask_input_edge_for_port n port =>
      let* r := input_edge_for_port n port in ret (answer_edge r)
  | ask_output_edges_for_process n =>
      let* r := output_edges_for_process n in ret (answer_edges r)
  | ask_output_edges_for_port n port =>
      let* r := output_edges_for_port n port in ret (answer_edges r)
  | ask_start => start ;;; ret answer_done
  end.

(** [ks] lists the names in [X] once each, in the order of the names. *)
Definition names_listed (X : name_t → Prop) (ks : list name_t) : Prop :=
  Sorted name_le ks ∧ NoDup ks ∧ ∀ k, k ∈ ks ↔ X k.

(** [r] is the first resolved connection in [X], if there is one. *)
Definition first_resolved (X : connection_t → Prop) (s : priv)
    (r : option connection_t) : Prop :=
  match r with
  | Some c =>
      ∃ before after, connections s = before ++ c :: after ∧ X c
                      ∧ ∀ c', c' ∈ before → ¬ X c'
  | None => ∀ c, c ∈ connections s → ¬ X c
  end.

(** [es] lists, by increasing index, the entries of the edge map at the
    indices of the resolved connections in [X]. *)
Definition edges_listed (X : connection_t → Prop) (s : priv) (es : edges_t) : Prop :=
  ∃ indices : list nat,
    StronglySorted lt indices
    ∧ (∀ i, i ∈ indices ↔
         is_Some (edge_map s !! i) ∧ ∃ c, connections s !! i = Some c ∧ X c)
    ∧ Forall2 (λ i e, edge_map s !! i = Some e) indices es.

(** What each guarded operation reads off the resolved connections, the
    registered processes and the edge map of [s] when it answers [a] and
    leaves [s']. *)
Definition lookup_answer (q : query) (s : priv) (a : answer) (s' : priv) : Prop :=
  match q with
  | ask_upstream_for_process n =>
      s' = s ∧ ∃ ks,
        names_listed (λ k, ∃ c, c ∈ connections s ∧ c.2.1 = n ∧ c.1.1 = k) ks
        ∧ a = answer_processes (omap (λ k, process_map s !! k) ks)
  | ask_upstream_for_port n port =>
      s' = s ∧ ∃ r,
        first_resolved (λ c, c.2 = (n, port)) s r
        ∧ a = answer_process
                match r with Some c => process_map s !! c.1.1 | None => None end
  | ask_downstream_for_process n =>
      s' = s ∧ ∃ ks,
        names_listed (λ k, ∃ c, c ∈ connections s ∧ c.1.1 = n ∧ c.2.1 = k) ks
        ∧ a = answer_processes (omap (λ k, process_map s !! k) ks)
  | ask_downstream_for_port n port =>
      s' = s ∧ ∃ ks,
        names_listed (λ k, ∃ c, c ∈ connections s ∧ c.1 = (n, port) ∧ c.2.1 = k) ks
        ∧ a = answer_processes (omap (λ k, process_map s !! k) ks)
  | ask_sender_for_port n port =>
      s' = s ∧ ∃ r,
        first_resolved (λ c, c.2 = (n, port)) s r
        ∧ a = answer_addr match r with Some c => c.1 | None => ("", "") end
  | ask_receivers_for_port n port =>
      s' = s
      ∧ a = answer_addrs (snd <$> filter (λ c, c.1 = (n, port)) (connections s))
  | ask_edge_for_connection un up dn dp =>
      let c : connection_t := ((un, up), (dn, dp)) in
      ((c ∉ connections s) ∧ a = answer_edge None ∧ s' = s)
      ∨ ∃ i, connections s !! i = Some c
             ∧ (∀ j, (j < i)%nat → connections s !! j ≠ Some c)
             ∧ match edge_map s !! i with
               | Some e => a = answer_edge e ∧ s' = s
               | None => a = answer_edge None ∧ s' = with_edge_map (insert i None) s
               end
  | ask_input_edges_for_process n =>
      s' = s ∧ ∃ es, edges_listed (λ c, c.2.1 = n) s es ∧ a = answer_edges es
  | ask_input_edge_for_port n port =>
      s' = s ∧ ∃ es,
        edges_listed (λ c, c.2 = (n, port)) s es
        ∧ a = answer_edge (default None (head es))
  | ask_output_edges_for_process n =>
      s' = s ∧ ∃ es, edges_listed (λ c, c.1.1 = n) s es ∧ a = answer_edges es
  | ask_output_edges_for_port n port =>
      s' = s ∧ ∃ es, edges_listed (λ c, c.1 = (n, port)) s es ∧ a = answer_edges es
  | ask_start => a = answer_done ∧ s' = with_running true s
  end.

Definition is_core_frequency_call (c : call) : Prop :=
  match c with call_set_core_frequency _ _ => True | _ => False end.

(** The port frequencies of a connection as the solver reads them, when
    both processes and both ports exist. *)
Definition port_frequencies_of (s : priv) (c : connection_t)
    : option (port_frequency_t * port_frequency_t) :=
  match (connection_port_frequencies c s).1 with
  | Ret fs => Some fs
  | _ => None
  end.

(** Both endpoint ports of [c] declare a frequency. *)
Definition known_frequencies (s : priv) (c : connection_t)
    (up_port_freq down_port_freq : port_frequency_t) : Prop :=
  port_frequencies_of s c = Some (up_port_freq, down_port_freq)
  ∧ freq_unknown up_port_freq = false ∧ freq_unknown down_port_freq = false.

(** The test of the solver: both endpoint ports of [c] declare a
    frequency. *)
Definition frequencies_known (s : priv) (c : connection_t) : bool :=
  match port_frequencies_of s c with
  | Some (up_port_freq, down_port_freq) =>
      negb (freq_unknown up_port_freq) && negb (freq_unknown down_port_freq)
  | None => false
  end.

(** The index in [connections] of the connection that seeds the frequency
    map: the first one both of whose ports declare a frequency. *)
Definition frequency_seed (s : priv) : option nat :=
  find_index (frequencies_known s) (connections s).

(** The process frequencies in [freq] agree along [c]. *)
Definition consistent_along (freq : gmap string port_frequency_t) (c : connection_t)
    (up_port_freq down_port_freq : port_frequency_t) : Prop :=
  ∃ fu fd, freq !! conn_upstream_name c = Some fu
           ∧ freq !! conn_downstream_name c = Some fd
           ∧ (fu * up_port_freq == fd * down_port_freq)%Q.

Definition core_frequency_calls (l : list call) : list (name_t * port_frequency_t) :=
  omap (λ c, match c with call_set_core_frequency n f => Some (n, f) | _ => None end) l.

(** The [set_core_frequency] calls made between [s] and [s']. *)
Definition core_frequency_calls_since (s s' : priv)
    : list (name_t * port_frequency_t) :=
  core_frequency_calls (drop (length (calls s)) (calls s')).

Definition times_called (n : name_t) (l : list (name_t * port_frequency_t)) : nat :=
  length (List.filter (λ nf : name_t * port_frequency_t, bool_decide (nf.1 = n)) l).

(** Contract of a process: [set_core_frequency] leaves the port
    descriptions alone. *)
Definition core_frequency_keeps_ports : Prop :=
  ∀ p f p', set_core_frequency p f = Ret p' →
    ∀ port, input_port_info p' port = input_port_info p port
            ∧ output_port_info p' port = output_port_info p port.

(** The same names are registered, with the same port descriptions. *)
Definition same_ports (s s' : priv) : Prop :=
  ∀ n, match process_map s !! n, process_map s' !! n with
       | Some p, Some p' =>
           ∀ port, input_port_info p' port = input_port_info p port
                   ∧ output_port_info p' port = output_port_info p port
       | None, None => True
       | _, _ => False
       end.

(** Only calls other than [set_core_frequency] were logged. *)
Definition no_core_calls (s s' : priv) : Prop :=
  ∃ evs, calls s' = calls s ++ evs ∧ Forall (λ ev, ¬ is_core_frequency_call ev) evs.

(** The passes of [setup_pipeline] that come before the frequency solver. *)
Definition structural_passes (fuel : nat) : M unit :=
  map_cluster_connections fuel ;;;
  configure_processes ;;;
  check_for_data_dep_ports ;;;
  propagate_pinned_types fuel fuel ;;;
  check_for_untyped_ports ;;;
  make_connections ;;;
  check_for_required_ports fuel ;;;
  check_for_dag ;;;
  initialize_processes.

(** The clusters of a process tree, the root included. *)
Fixpoint clusters_of (p : process_t P) : list (process_t P) :=
  match p with
  | plain_process _ => []
  | process_cluster _ ps _ _ _ => p :: flat_map clusters_of ps
  end.

(** Names registered as clusters stay so, with the same cluster, and stay
    out of the process map. *)
Definition clusters_kept (s s' : priv) : Prop :=
  ∀ k, is_Some (cluster_map s !! k) →
    cluster_map s' !! k = cluster_map s !! k ∧ process_map s' !! k = process_map s !! k.

(** The state in which [setup_pipeline] enters its passes. *)
Definition entering_setup (s : priv) : priv :=
  with_setup_successful false (with_setup_in_progress true (with_setup true s)).

(** [m] relates the state it starts from to the state it leaves, however it
    ends. *)
Definition preserves (R : relation priv) {A} (m : M A) : Prop :=
  ∀ s r s', m s = (r, s') → R s s'.

(** What a relation must tolerate to be kept by every setup pass: changes
    to the connection lists and the edge map, a method call on a registered
    process, and the logging of the calls in [allowed]. *)
Class PassFrame (R : relation priv) (allowed : call → Prop) := {
  pass_frame_preorder :: PreOrder R;
  pass_frame_planned f s : R s (with_planned_connections f s);
  pass_frame_connections f s : R s (with_connections f s);
  pass_frame_edge_map f s : R s (with_edge_map f s);
  pass_frame_data_dep f s : R s (with_data_dep_connections f s);
  pass_frame_cluster f s : R s (with_cluster_connections f s);
  pass_frame_untyped f s : R s (with_untyped_connections f s);
  pass_frame_pinnings f s : R s (with_type_pinnings f s);
  pass_frame_store n p s :
    is_Some (process_map s !! n) → R s (with_process_map (insert n p) s);
  pass_frame_call c s : allowed c → R s (with_calls (push_back c) s)
}.

(** The lifecycle flags are left alone. *)
Definition flags_kept (s s' : priv) : Prop :=
  setup s' = setup s ∧ setup_in_progress s' = setup_in_progress s
  ∧ setup_successful s' = setup_successful s ∧ running s' = running s.

(** ** Vocabulary of the further properties *)

(** [planned_connections] is left alone. *)
Definition planned_kept (s s' : priv) : Prop :=
  planned_connections s' = planned_connections s.

(** The state after a [setup_pipeline] that entered its passes and came
    back, whether it returned or threw. *)
Definition past_setup (s : priv) : Prop :=
  setup s = true ∧ setup_in_progress s = false.

(** While a setup is in progress it stays so, and [planned_connections] is
    left alone. *)
Definition replay_kept (s s' : priv) : Prop :=
  setup_in_progress s = true →
  setup_in_progress s' = true ∧ planned_connections s' = planned_connections s.

(** The resolved connections, and what is left to type, are left alone. *)
Definition typing_kept (s s' : priv) : Prop :=
  connections s' = connections s
  ∧ untyped_connections s' = untyped_connections s
  ∧ type_pinnings s' = type_pinnings s.

(** Index [i] of [edge_map] holds an edge that is not null. *)
Definition has_edge (s : priv) (i : nat) : Prop :=
  ∃ e, edge_map s !! i = Some (Some e).

Definition edges_kept (s s' : priv) : Prop :=
  typing_kept s s' ∧ ∀ i, has_edge s i → has_edge s' i.

(** The same names are registered as processes, and the same clusters. *)
Definition registry_kept (s s' : priv) : Prop :=
  dom (process_map s') = dom (process_map s) ∧ cluster_map s' = cluster_map s.

(** Only calls in [allowed] were logged. *)
Definition logs_only (allowed : call → Prop) (s s' : priv) : Prop :=
  ∃ evs, calls s' = calls s ++ evs ∧ Forall allowed evs.

Definition is_integral_core_call (c : call) : Prop :=
  match c with
  | call_set_core_frequency _ f => Qden f = 1%positive
  | _ => True
  end.

(** [m], when it returns, leaves a state in [Q]. *)
Definition ensures {A} (Q : priv → Prop) (m : M A) : Prop :=
  ∀ s a s', m s = (Ret a, s') → Q s'.

(** The state in which [reset] replays the planned connections. *)
Definition cleared_for_replay (s : priv) : priv :=
  with_setup_in_progress true
    (with_type_pinnings (λ _, [])
       (with_untyped_connections (λ _, [])
          (with_cluster_connections (λ _, [])
             (with_data_dep_connections (λ _, [])
                (with_edge_map (λ _, ∅)
                   (with_connections (λ _, []) s)))))).

(** While a setup is in progress it stays so, and nothing but the lists of
    resolved and deferred connections changes. *)
Definition wiring_only (s s' : priv) : Prop :=
  setup_in_progress s = true →
  setup_in_progress s' = true
  ∧ planned_connections s' = planned_connections s
  ∧ edge_map s' = edge_map s
  ∧ process_map s' = process_map s
  ∧ cluster_map s' = cluster_map s
  ∧ calls s' = calls s
  ∧ setup s' = setup s
  ∧ setup_successful s' = setup_successful s
  ∧ running s' = running s.

(** The required ports of the process registered as [n] have their edges. *)
Definition required_ports_checked (s : priv) (n : name_t) : Prop :=
  ∃ p, process_map s !! n = Some p
       ∧ check_required_inputs n p s = (Ret tt, s)
       ∧ check_required_outputs n p s = (Ret tt, s).

(** [k] names a registered process or cluster. *)
Definition registered (s : priv) (k : name_t) : Prop :=
  is_Some (process_map s !! k) ∨ is_Some (cluster_map s !! k).

(** Registered names stay registered, under the same parent. *)
Definition parents_kept (s s' : priv) : Prop :=
  ∀ k, registered s k →
    registered s' k ∧ process_parent_map s' !! k = process_parent_map s !! k.

(** The cluster being added, or the empty name at the top level. *)
Definition current_parent (s : priv) : name_t :=
  match parent_stack s with [] => "" | top :: _ => top end.

End Pipeline.

(** ** A table-driven process, configuration and edge for the scenarios *)

Module Scenario.

(** Modelled from the spec: the constants [process::type_any],
    [process::type_data_dependent], [process::type_flow_dependent] and the
    port flags are defined in [process.cxx], which is not part of the
    sources; the strings are the ones the spec lists. *)
Definition spec_type_any : string := "any".
Definition spec_type_data_dependent : string := "data-dependent".
Definition spec_type_flow_dependent : string := "flow-dependent".
Definition spec_flag_output_const : string := "output-const".
Definition spec_flag_input_mutable : string := "input-mutable".
Definition spec_flag_input_nodep : string := "input-nodep".
Definition spec_flag_required : string := "required".

Record table_process := TableProcess {
  tp_name : string;
  tp_inputs : list (string * port_info);
  tp_outputs : list (string * port_info);
  (* the types [configure] gives to data-dependent outputs *)
  tp_configured : list (string * string)
}.

Definition port_lookup (ports : list (string * port_info)) (port : string)
    : option port_info :=
  snd <$> List.find (λ e, bool_decide (e.1 = port)) ports.

Definition retype (old new : string) (ports : list (string * port_info))
    : list (string * port_info) :=
  (λ e : string * port_info,
     if bool_decide (type e.2 = old)
     then (e.1, PortInfo new (flags e.2) (frequency e.2)) else e) <$> ports.

Definition retype_port (port new : string) (ports : list (string * port_info))
    : list (string * port_info) :=
  (λ e : string * port_info,
     if bool_decide (e.1 = port)
     then (e.1, PortInfo new (flags e.2) (frequency e.2)) else e) <$> ports.

Definition tp_port_info (p : table_process) (ports : list (string * port_info))
    (port : string) : outcome port_info :=
  match port_lookup ports port with
  | Some info => Ret info
  | None => Throw (no_such_port_exception (tp_name p) port)
  end.

(** Setting the type of a port: a concrete type only accepts itself; a
    tagged flow-dependent type is replaced on every port that carries it. *)
Definition tp_set_type (input : bool) (p : table_process) (port new : string)
    : outcome (bool * table_process) :=
  match port_lookup (if input then tp_inputs p else tp_outputs p) port with
  | None => Throw (no_such_port_exception (tp_name p) port)
  | Some info =>
      let old := type info in
      if bool_decide (old = new) then Ret (true, p)
      else if String.prefix spec_type_flow_dependent old
              && negb (bool_decide (old = spec_type_flow_dependent)) then
        Ret (true, TableProcess (tp_name p) (retype old new (tp_inputs p))
                     (retype old new (tp_outputs p)) (tp_configured p))
      else if String.prefix spec_type_flow_dependent old
              || bool_decide (old = spec_type_any)
              || bool_decide (old = spec_type_data_dependent) then
        Ret (true,
             if input
             then TableProcess (tp_name p) (retype_port port new (tp_inputs p))
                    (tp_outputs p) (tp_configured p)
             else TableProcess (tp_name p) (tp_inputs p)
                    (retype_port port new (tp_outputs p)) (tp_configured p))
      else Ret (false, p)
  end.

Definition tp_configure (p : table_process) : outcome table_process :=
  Ret (TableProcess (tp_name p) (tp_inputs p)
         (foldr (λ pt ports, retype_port pt.1 pt.2 ports) (tp_outputs p) (tp_configured p))
         (tp_configured p)).

Definition table_config : Type := list (string * string).

Record table_edge := TableEdge {
  te_config : table_config;
  te_upstream : option string;
  te_downstream : option string
}.

Global Instance table_config_ops : Config table_config := {|
  subblock c key :=
    omap (λ kv : string * string,
            if String.prefix (key +:+ ":") kv.1
            then Some (String.substring (String.length key + 1)
                         (String.length kv.1 - (String.length key + 1)) kv.1, kv.2)
            else None) c;
  merge_config a b :=
    Ret (b ++ List.filter (λ kv : string * string,
                negb (bool_decide (kv.1 ∈ (fst <$> b)))) a);
  set_value c key v :=
    Ret ((key, v) :: List.filter (λ kv : string * string,
                        negb (bool_decide (kv.1 = key))) c);
  mark_read_only c key := c
|}.

Global Instance table_process_ops : Process table_edge table_process := {|
  type_any := spec_type_any;
  type_data_dependent := spec_type_data_dependent;
  type_flow_dependent := spec_type_flow_dependent;
  flag_output_const := spec_flag_output_const;
  flag_input_mutable := spec_flag_input_mutable;
  flag_input_nodep := spec_flag_input_nodep;
  flag_required := spec_flag_required;
  name := tp_name;
  input_ports p := fst <$> tp_inputs p;
  output_ports p := fst <$> tp_outputs p;
  input_port_info p := tp_port_info p (tp_inputs p);
  output_port_info p := tp_port_info p (tp_outputs p);
  set_input_port_type := tp_set_type true;
  set_output_port_type := tp_set_type false;
  configure := tp_configure;
  init := Ret;
  reset_process := Ret;
  connect_input_port p port e :=
    match port_lookup (tp_inputs p) port with
    | Some _ => Ret p
    | None => Throw (no_such_port_exception (tp_name p) port)
    end;
  connect_output_port p port e :=
    match port_lookup (tp_outputs p) port with
    | Some _ => Ret p
    | None => Throw (no_such_port_exception (tp_name p) port)
    end;
  set_core_frequency p f := Ret p
|}.

Global Instance table_edge_ops : Edge table_config table_edge table_process := {|
  config_dependency := "_dependency";
  make_edge c := Ret (TableEdge c None None);
  set_upstream_process e p := TableEdge (te_config e) (Some (tp_name p)) (te_downstream e);
  set_downstream_process e p := TableEdge (te_config e) (te_upstream e) (Some (tp_name p))
|}.

Abbreviation pipeline_state := (@priv table_config table_edge table_process).
Abbreviation op := (@M table_config table_edge table_process).

Definition empty_pipeline : pipeline_state := new_priv [].

Definition port (ty : string) (fl : list string) (f : Q) : port_info :=
  PortInfo ty (list_to_set fl) f.

Definition proc (n : string) (ins outs : list (string * port_info)) : table_process :=
  TableProcess n ins outs [].

(** Run a sequence of operations, stopping at the first that does not
    return. *)
Definition run (ops : list (op ())) (s : pipeline_state) : outcome () * pipeline_state :=
  foreach ops (λ o, o) s.

(** S5: [a.o -> b.i], [b.o -> c.i] with port frequencies 1/1, 1/2, 1/1, 1/3. *)
Definition s5_a := proc "a" [] [("o", port "int" [] (1 # 1))].
Definition s5_b := proc "b" [("i", port "int" [] (1 # 2))] [("o", port "int" [] (1 # 1))].
Definition s5_c := proc "c" [("i", port "int" [] (1 # 3))] [].

Definition s5_build : list (op ()) :=
  [ add_process (Some (plain_process s5_a));
    add_process (Some (plain_process s5_b));
    add_process (Some (plain_process s5_c));
    connect "a" "o" "b" "i";
    connect "b" "o" "c" "i" ].

Definition s5_built : pipeline_state := (run s5_build empty_pipeline).2.

Definition s5_frequencies : gmap string port_frequency_t :=
  list_to_map [("a", 1 # 1); ("b", 2 # 1); ("c", 6 # 1)].

(** S2: a cluster [c] whose external input port [x] is mapped to the input
    ports of its two children, fed by [a.out]. *)
Definition s2_a := proc "a" [] [("out", port "int" [] 0)].
Definition s2_child1 := proc "child1" [("in", port "int" [] 0)] [].
Definition s2_child2 := proc "child2" [("in", port "int" [] 0)] [].
Definition s2_cluster : process_t table_process :=
  process_cluster "c" [plain_process s2_child1; plain_process s2_child2] []
    [(("c", "x"), ("child1", "in")); (("c", "x"), ("child2", "in"))] [].

Definition s2_build : list (op ()) :=
  [ add_process (Some (plain_process s2_a));
    add_process (Some s2_cluster);
    connect "a" "out" "c" "x" ].

Definition s2_built : pipeline_state := (run s2_build empty_pipeline).2.

(** The state in which [add_process] receives the cluster of S2. *)
Definition s2_before_cluster : pipeline_state :=
  (add_process (Some (plain_process s2_a)) empty_pipeline).2.

(** The three processes of S5 registered, nothing connected yet. *)
Definition s5_registered : pipeline_state :=
  (run [ add_process (Some (plain_process s5_a));
         add_process (Some (plain_process s5_b));
         add_process (Some (plain_process s5_c)) ] empty_pipeline).2.

(** A constant output facing an input that wants mutable data. *)
Definition const_source :=
  proc "src" [] [("o", port "int" [spec_flag_output_const] 0)].
Definition mutable_sink :=
  proc "snk" [("i", port "int" [spec_flag_input_mutable] 0)] [].
Definition const_mutable_registered : pipeline_state :=
  (run [ add_process (Some (plain_process const_source));
         add_process (Some (plain_process mutable_sink)) ] empty_pipeline).2.

(** S4 gone wrong: the data-dependent output of [a] is still
    data-dependent after [configure]. *)
Definition s4_a := proc "a" [] [("out", port spec_type_data_dependent [] 0)].
Definition s4_b := proc "b" [("in", port "float" [] 0)] [].
Definition s4_built : pipeline_state :=
  (run [ add_process (Some (plain_process s4_a));
         add_process (Some (plain_process s4_b));
         connect "a" "out" "b" "in" ] empty_pipeline).2.

(** Three processes in a row; only the first connection has port
    frequencies on both sides. *)
Definition partial_a := proc "a" [] [("o", port "int" [] (1 # 1))].
Definition partial_b :=
  proc "b" [("i", port "int" [] (1 # 1))] [("o", port "int" [] 0)].
Definition partial_c := proc "c" [("i", port "int" [] 0)] [].
Definition partial_built : pipeline_state :=
  (run [ add_process (Some (plain_process partial_a));
         add_process (Some (plain_process partial_b));
         add_process (Some (plain_process partial_c));
         connect "a" "o" "b" "i";
         connect "b" "o" "c" "i" ] empty_pipeline).2.

(** S1: a pair with a required input; the port frequencies are 1/1. *)
Definition s1_built : pipeline_state :=
  (run [ add_process (Some (plain_process
           (proc "a" [] [("out", port "int" [] (1 # 1))])));
         add_process (Some (plain_process
           (proc "b" [("in", port "int" [spec_flag_required] (1 # 1))] [])));
         connect "a" "out" "b" "in" ] empty_pipeline).2.

(** S3: a flow-dependent chain that is typed from its downstream end. *)
Definition s3_flow : string := "flow-dependent[T]".
Definition s3_built : pipeline_state :=
  (run [ add_process (Some (plain_process (proc "a" [] [("o", port s3_flow [] 0)])));
         add_process (Some (plain_process
           (proc "b" [("i", port s3_flow [] 0)] [("o", port s3_flow [] 0)])));
         add_process (Some (plain_process (proc "c" [("i", port "int" [] 0)] [])));
         connect "a" "o" "b" "i";
         connect "b" "o" "c" "i" ] empty_pipeline).2.

(** S4: [configure] gives the data-dependent output of [a] the type
    [float]. *)
Definition s4_resolving_built : pipeline_state :=
  (run [ add_process (Some (plain_process
           (TableProcess "a" [] [("out", port spec_type_data_dependent [] 0)]
              [("out", "float")])));
         add_process (Some (plain_process s4_b));
         connect "a" "out" "b" "in" ] empty_pipeline).2.

(** S6: a cycle of two processes; [fl] are the flags of [a.i]. *)
Definition s6_built (fl : list string) : pipeline_state :=
  (run [ add_process (Some (plain_process
           (proc "a" [("i", port "int" fl 0)] [("o", port "int" [] 0)])));
         add_process (Some (plain_process
           (proc "b" [("i", port "int" [] 0)] [("o", port "int" [] 0)])));
         connect "a" "o" "b" "i";
         connect "b" "o" "a" "i" ] empty_pipeline).2.

(** A feedback connection from [a] to itself through an [input-nodep] port,
    listed before the connection to [b]. *)
Definition loop_a :=
  proc "a" [("fb", port "int" [spec_flag_input_nodep] (1 # 2))]
           [("o", port "int" [] (1 # 1)); ("o2", port "int" [] (1 # 1))].
Definition loop_b := proc "b" [("i", port "int" [] (1 # 1))] [].
Definition loop_built : pipeline_state :=
  (run [ add_process (Some (plain_process loop_a));
         add_process (Some (plain_process loop_b));
         connect "a" "o" "a" "fb";
         connect "a" "o2" "b" "i" ] empty_pipeline).2.

(** The feedback connection of [a], with frequency [fb] on its input port,
    listed after the connection to [b]: [a] is in the frequency map when
    the solver meets [a.o -> a.fb]. *)
Definition loop_after_built (fb : Q) : pipeline_state :=
  (run [ add_process (Some (plain_process
           (proc "a" [("fb", port "int" [spec_flag_input_nodep] fb)]
                     [("o", port "int" [] (1 # 1)); ("o2", port "int" [] (1 # 1))])));
         add_process (Some (plain_process loop_b));
         connect "a" "o2" "b" "i";
         connect "a" "o" "a" "fb" ] empty_pipeline).2.

(** A lone process with two feedback connections. *)
Definition lone_built : pipeline_state :=
  (run [ add_process (Some (plain_process
           (proc "a" [("fb", port "int" [spec_flag_input_nodep] (1 # 1));
                      ("fb2", port "int" [spec_flag_input_nodep] (1 # 2))]
                     [("o", port "int" [] (1 # 1)); ("o2", port "int" [] (1 # 1))])));
         connect "a" "o" "a" "fb";
         connect "a" "o2" "a" "fb2" ] empty_pipeline).2.

(** A flow-dependent output facing a typed input, nothing connected yet. *)
Definition flow_registered : pipeline_state :=
  (run [ add_process (Some (plain_process (proc "a" [] [("o", port s3_flow [] 0)])));
         add_process (Some (plain_process (proc "c" [("i", port "int" [] 0)] []))) ]
       empty_pipeline).2.

(** A process that no scenario registers. *)
Definition spare := proc "d" [] [].

End Scenario.

(** * Properties *)

Section Properties.
Context {C E P : Type} `{!Config C} `{!Process E P} `{!Edge C E P}.

Local Abbreviation priv := (@priv C E P).
Local Abbreviation M := (@M C E P).
Local Abbreviation flags_kept := (@flags_kept C E P).
Local Abbreviation clusters_kept := (@clusters_kept C E P).
Local Abbreviation same_ports := (@same_ports C E P).
Local Abbreviation no_core_calls := (@no_core_calls C E P).

Implicit Types (s : priv) (c connection : connection_t) (n : name_t).

Local Notation "'let*' x ':=' m 'in' k" := (bind m (λ x, k))
  (at level 10, x name, m at level 100, k at level 200).
Local Notation "m ';;;' k" := (bind m (λ _, k))
  (at level 100, k at level 200, right associativity).

(** ** Reasoning about the monad *)

Lemma bind_Ret_inv {A B} (m : M A) (f : A → M B) s b s' :
  bind m f s = (Ret b, s') →
  ∃ a s1, m s = (Ret a, s1) ∧ f a s1 = (Ret b, s').
Proof.
  unfold bind. destruct (m s) as [[a|e|] s1]; intros Heq; try discriminate.
  by exists a, s1.
Qed.

Lemma bind_inv {A B} (m : M A) (f : A → M B) s r s' :
  bind m f s = (r, s') →
  (∃ a s1, m s = (Ret a, s1) ∧ f a s1 = (r, s'))
  ∨ (∃ e, m s = (Throw e, s') ∧ r = Throw e)
  ∨ (m s = (Timeout, s') ∧ r = Timeout).
Proof.
  unfold bind. destruct (m s) as [[a|e|] s1]; intros Heq.
  - left. by exists a, s1.
  - right; left. exists e. by inversion Heq.
  - right; right. by inversion Heq.
Qed.

Lemma bind_Ret_eq {A B} (m : M A) (f : A → M B) s a s1 :
  m s = (Ret a, s1) → bind m f s = f a s1.
Proof. unfold bind. by intros ->. Qed.

Lemma bind_Throw_eq {A B} (m : M A) (f : A → M B) s e s1 :
  m s = (Throw e, s1) → bind m f s = (Throw e, s1).
Proof. unfold bind. by intros ->. Qed.

Lemma bind_gets {A B} (f : priv → A) (k : A → M B) s :
  bind (gets f) k s = k (f s) s.
Proof. reflexivity. Qed.

Lemma bind_ret {A B} (a : A) (k : A → M B) s : bind (ret a) k s = k a s.
Proof. reflexivity. Qed.

Lemma bind_modify {B} (f : priv → priv) (k : unit → M B) s :
  bind (modify f) k s = k tt (f s).
Proof. reflexivity. Qed.

Lemma bind_throw {A B} e (k : A → M B) s : bind (throw e) k s = (Throw e, s).
Proof. reflexivity. Qed.

Lemma bind_timeout {A B} (k : A → M B) s : bind timeout k s = (Timeout, s).
Proof. reflexivity. Qed.

Lemma bind_lift_Ret {A B} (a : A) (k : A → M B) s : bind (lift (Ret a)) k s = k a s.
Proof. reflexivity. Qed.

Lemma bind_lift_Throw {A B} e (k : A → M B) s :
  bind (lift (Throw e)) k s = (Throw e, s).
Proof. reflexivity. Qed.

Lemma bind_lift_Timeout {A B} (k : A → M B) s :
  bind (lift Timeout) k s = (Timeout, s).
Proof. reflexivity. Qed.

Lemma bind_when_true {B} (m : M unit) (k : unit → M B) s :
  bind (when true m) k s = bind m k s.
Proof. reflexivity. Qed.

Lemma bind_when_false {B} (m : M unit) (k : unit → M B) s :
  bind (when false m) k s = k tt s.
Proof. reflexivity. Qed.

Lemma process_by_name_Some s n p :
  process_map s !! n = Some p → process_by_name n s = (Ret p, s).
Proof. intros Hp. unfold process_by_name. rewrite bind_gets. simpl. by rewrite Hp. Qed.

Lemma process_by_name_None s n :
  process_map s !! n = None →
  process_by_name n s = (Throw (no_such_process_exception n), s).
Proof. intros Hp. unfold process_by_name. rewrite bind_gets. simpl. by rewrite Hp. Qed.

Lemma bind_process_by_name {B} s n p (k : P → M B) :
  process_map s !! n = Some p → bind (process_by_name n) k s = k p s.
Proof. intros Hp. unfold bind at 1. by rewrite (process_by_name_Some _ _ _ Hp). Qed.

Lemma bind_process_by_name_None {B} s n (k : P → M B) :
  process_map s !! n = None →
  bind (process_by_name n) k s = (Throw (no_such_process_exception n), s).
Proof. intros Hp. unfold bind at 1. by rewrite (process_by_name_None _ _ Hp). Qed.

Create Rewrite HintDb monad.
Hint Rewrite @bind_gets @bind_ret @bind_modify @bind_throw @bind_timeout
  @bind_lift_Ret @bind_lift_Throw @bind_lift_Timeout
  @bind_when_true @bind_when_false : monad.

(** ** Frame rules *)

Section Frame.
Context (R : relation priv) `{!PreOrder R}.

Lemma preserves_ret {A} (a : A) : preserves R (ret a).
Proof. intros s r s' [= <- <-]. reflexivity. Qed.

Lemma preserves_throw {A} e : preserves R (@throw _ _ _ A e).
Proof. intros s r s' [= <- <-]. reflexivity. Qed.

Lemma preserves_timeout {A} : preserves R (@timeout _ _ _ A).
Proof. intros s r s' [= <- <-]. reflexivity. Qed.

Lemma preserves_lift {A} (o : outcome A) : preserves R (lift o).
Proof. intros s r s' [= <- <-]. reflexivity. Qed.

Lemma preserves_gets {A} (f : priv → A) : preserves R (gets f).
Proof. intros s r s' [= <- <-]. reflexivity. Qed.

Lemma preserves_modify f : (∀ s, R s (f s)) → preserves R (modify f).
Proof. intros Hf s r s' [= <- <-]. apply Hf. Qed.

Lemma preserves_bind {A B} (m : M A) (k : A → M B) :
  preserves R m → (∀ a, preserves R (k a)) → preserves R (bind m k).
Proof.
  intros Hm Hk s r s' Hrun.
  apply bind_inv in Hrun as [(a & s1 & Hm1 & Hk1)|[(e & Hm1 & _)|[Hm1 _]]].
  - transitivity s1; [by eapply Hm|by eapply Hk].
  - by eapply Hm.
  - by eapply Hm.
Qed.

Lemma preserves_when b (m : M unit) : preserves R m → preserves R (when b m).
Proof. destruct b; [done|]. intros _. apply preserves_ret. Qed.

Lemma preserves_foreach {A} (l : list A) body :
  (∀ x, preserves R (body x)) → preserves R (foreach l body).
Proof.
  intros Hbody. induction l as [|x l IH]; simpl.
  - apply preserves_ret.
  - apply preserves_bind; [apply Hbody|by intros _].
Qed.

Lemma preserves_fold_each {A B} (l : list A) (acc : B) body :
  (∀ acc x, preserves R (body acc x)) → preserves R (fold_each l acc body).
Proof.
  intros Hbody. revert acc. induction l as [|x l IH]; intros acc; simpl.
  - apply preserves_ret.
  - apply preserves_bind; [apply Hbody|intros acc'; apply IH].
Qed.

Lemma preserves_try_catch {A} (m : M A) handler :
  preserves R m → (∀ e, preserves R (handler e)) → preserves R (try_catch m handler).
Proof.
  intros Hm Hh s r s' Hrun. unfold try_catch in Hrun.
  destruct (m s) as [[a|e|] s1] eqn:Hm1.
  - inversion Hrun; subst. by eapply Hm.
  - transitivity s1; [by eapply Hm|by eapply Hh].
  - inversion Hrun; subst. by eapply Hm.
Qed.

End Frame.

(** One step of a frame proof: follow the shape of the program. *)
Ltac frame_step :=
  lazymatch goal with
  | |- PreOrder _ => apply _
  | |- preserves _ (bind _ _) => apply preserves_bind; [apply _| |intros ?]
  | |- preserves _ (ret _) => apply preserves_ret; apply _
  | |- preserves _ (throw _) => apply preserves_throw; apply _
  | |- preserves _ timeout => apply preserves_timeout; apply _
  | |- preserves _ (lift _) => apply preserves_lift; apply _
  | |- preserves _ (gets _) => apply preserves_gets; apply _
  | |- preserves _ (when _ _) => apply preserves_when; [apply _|]
  | |- preserves _ (foreach _ _) => apply preserves_foreach; [apply _|intros ?]
  | |- preserves _ (fold_each _ _ _) => apply preserves_fold_each; [apply _|intros ? ?]
  | |- preserves _ (try_catch _ _) => apply preserves_try_catch; [apply _| |intros ?]
  | |- preserves _ (modify _) =>
      apply preserves_modify; intros ?;
      try first [ apply pass_frame_planned | apply pass_frame_connections
                | apply pass_frame_edge_map | apply pass_frame_data_dep
                | apply pass_frame_cluster | apply pass_frame_untyped
                | apply pass_frame_pinnings ]
  | |- preserves _ (if ?b then _ else _) => destruct b
  | |- preserves _ (match ?x with _ => _ end) => destruct x
  | |- preserves _ (let _ := _ in _) => cbv zeta
  end.

Create HintDb frame.

Ltac frame := repeat (first [assumption | solve [eauto 2 with frame] | frame_step]).

Global Instance flags_kept_preorder : PreOrder flags_kept.
Proof.
  split; [by intros s|].
  intros s1 s2 s3 (?&?&?&?) (?&?&?&?). unfold flags_kept. repeat split; congruence.
Qed.

Global Instance flags_kept_pass_frame : PassFrame flags_kept (λ _, True).
Proof. split; try apply _; by intros. Qed.

(** ** Every setup pass keeps a [PassFrame] relation *)

Section PassFrames.
Context (R : relation priv) (allowed : call → Prop) `{!PassFrame R allowed}.

Lemma frame_process_by_name n : preserves R (process_by_name n).
Proof. unfold process_by_name. frame. Qed.
Hint Resolve frame_process_by_name : frame.

Lemma frame_invoke {A} n (method : P → outcome (A * P)) : preserves R (invoke n method).
Proof.
  intros s r s' Hrun. unfold invoke in Hrun.
  destruct (process_map s !! n) as [p|] eqn:Hp.
  - rewrite (bind_process_by_name _ _ _ _ Hp) in Hrun.
    destruct (method p) as [[a p']|e|]; autorewrite with monad in Hrun;
      unfold store_process in Hrun; autorewrite with monad in Hrun;
      inversion Hrun; subst; try reflexivity.
    apply pass_frame_store. by rewrite Hp.
  - unfold bind in Hrun. rewrite (process_by_name_None _ _ Hp) in Hrun.
    inversion Hrun; subst. reflexivity.
Qed.
Hint Resolve frame_invoke : frame.

Lemma frame_log_call (ev : call) : allowed ev → preserves R (log_call ev).
Proof. intros Hc. unfold log_call. frame. by apply pass_frame_call. Qed.

Lemma frame_check_connection_types c u d : preserves R (check_connection_types c u d).
Proof. unfold check_connection_types. frame. Qed.
Hint Resolve frame_check_connection_types : frame.

Lemma frame_connect un up dn dp : preserves R (connect un up dn dp).
Proof. unfold connect. frame. Qed.
Hint Resolve frame_connect : frame.

Lemma frame_connect_connection c : preserves R (connect_connection c).
Proof. unfold connect_connection. frame. Qed.
Hint Resolve frame_connect_connection : frame.

Lemma frame_ensure_setup : preserves R ensure_setup.
Proof. unfold ensure_setup. frame. Qed.
Hint Resolve frame_ensure_setup : frame.

Lemma frame_upstream_for_process n : preserves R (upstream_for_process n).
Proof. unfold upstream_for_process. frame. Qed.
Lemma frame_downstream_for_process n : preserves R (downstream_for_process n).
Proof. unfold downstream_for_process. frame. Qed.
Lemma frame_sender_for_port n port : preserves R (sender_for_port n port).
Proof. unfold sender_for_port. frame. Qed.
Lemma frame_input_edge_for_port n port : preserves R (input_edge_for_port n port).
Proof. unfold input_edge_for_port. frame. Qed.
Lemma frame_output_edges_for_port n port : preserves R (output_edges_for_port n port).
Proof. unfold output_edges_for_port. frame. Qed.
Hint Resolve frame_upstream_for_process frame_downstream_for_process
  frame_sender_for_port frame_input_edge_for_port frame_output_edges_for_port : frame.

Lemma frame_map_cluster_connection cc : preserves R (map_cluster_connection cc).
Proof. unfold map_cluster_connection. frame. Qed.
Hint Resolve frame_map_cluster_connection : frame.

Lemma frame_map_cluster_connections fuel : preserves R (map_cluster_connections fuel).
Proof. induction fuel as [|fuel IH]; simpl; frame. Qed.

Lemma frame_configure_processes :
  (∀ n, allowed (call_configure n)) → preserves R configure_processes.
Proof.
  intros Hallowed. pose proof (λ n, frame_log_call _ (Hallowed n)).
  unfold configure_processes, process_names. frame.
Qed.

Lemma frame_check_for_data_dep_ports : preserves R check_for_data_dep_ports.
Proof. unfold check_for_data_dep_ports. frame. Qed.

Lemma frame_propagate_connection n kyu c : preserves R (propagate_connection n kyu c).
Proof. unfold propagate_connection. frame. Qed.
Hint Resolve frame_propagate_connection : frame.

Lemma frame_propagate_loop fuel kyu : preserves R (propagate_loop fuel kyu).
Proof. revert kyu. induction fuel as [|fuel IH]; intros kyu; simpl; frame. Qed.
Hint Resolve frame_propagate_loop : frame.

Lemma frame_propagate_pinning fuel pinning : preserves R (propagate_pinning fuel pinning).
Proof. unfold propagate_pinning, propagate. frame. Qed.
Hint Resolve frame_propagate_pinning : frame.

Lemma frame_propagate_pinned_types fuel_propagate fuel :
  preserves R (propagate_pinned_types fuel_propagate fuel).
Proof. induction fuel as [|fuel IH]; simpl; frame. Qed.

Lemma frame_check_for_untyped_ports : preserves R check_for_untyped_ports.
Proof. unfold check_for_untyped_ports. frame. Qed.

Lemma frame_make_connection i c : preserves R (make_connection i c).
Proof. unfold make_connection. frame. Qed.
Hint Resolve frame_make_connection : frame.

Lemma frame_make_connections : preserves R make_connections.
Proof. unfold make_connections. frame. Qed.

Lemma frame_check_required_inputs n p : preserves R (check_required_inputs n p).
Proof. unfold check_required_inputs. frame. Qed.
Lemma frame_check_required_outputs n p : preserves R (check_required_outputs n p).
Proof. unfold check_required_outputs. frame. Qed.
Hint Resolve frame_check_required_inputs frame_check_required_outputs : frame.

Lemma frame_visit_processes fuel to_visit procs :
  preserves R (visit_processes fuel to_visit procs).
Proof.
  revert to_visit procs.
  induction fuel as [|fuel IH]; intros to_visit procs; simpl; frame.
Qed.
Hint Resolve frame_visit_processes : frame.

Lemma frame_check_for_required_ports fuel : preserves R (check_for_required_ports fuel).
Proof. unfold check_for_required_ports, process_names. frame. Qed.

Lemma frame_check_for_dag : preserves R check_for_dag.
Proof. unfold check_for_dag, process_names. frame. Qed.

Lemma frame_initialize_processes :
  (∀ n, allowed (call_init n)) → preserves R initialize_processes.
Proof.
  intros Hallowed. pose proof (λ n, frame_log_call _ (Hallowed n)).
  unfold initialize_processes, process_names. frame.
Qed.

Lemma frame_connection_port_frequencies c : preserves R (connection_port_frequencies c).
Proof. unfold connection_port_frequencies. frame. Qed.
Hint Resolve frame_connection_port_frequencies : frame.

Lemma frame_solve_frequencies fuel freq_map unchecked :
  preserves R (solve_frequencies fuel freq_map unchecked).
Proof.
  revert freq_map unchecked.
  induction fuel as [|fuel IH]; intros freq_map unchecked; simpl; frame.
Qed.
Hint Resolve frame_solve_frequencies : frame.

Lemma frame_set_process_core_frequency n f :
  allowed (call_set_core_frequency n f) → preserves R (set_process_core_frequency n f).
Proof.
  intros Hallowed. pose proof (frame_log_call _ Hallowed).
  unfold set_process_core_frequency. frame.
Qed.

Lemma frame_check_port_frequencies fuel :
  (∀ n f, allowed (call_set_core_frequency n f)) →
  preserves R (check_port_frequencies fuel).
Proof.
  intros Hallowed. pose proof (λ n f, frame_set_process_core_frequency n f (Hallowed n f)).
  unfold check_port_frequencies. frame.
Qed.

Lemma frame_structural_passes fuel :
  (∀ n, allowed (call_configure n)) → (∀ n, allowed (call_init n)) →
  preserves R (structural_passes fuel).
Proof.
  intros Hc Hi. unfold structural_passes.
  pose proof (frame_map_cluster_connections fuel).
  pose proof (frame_configure_processes Hc).
  pose proof frame_check_for_data_dep_ports.
  pose proof (frame_propagate_pinned_types fuel fuel).
  pose proof frame_check_for_untyped_ports.
  pose proof frame_make_connections.
  pose proof (frame_check_for_required_ports fuel).
  pose proof frame_check_for_dag.
  pose proof (frame_initialize_processes Hi).
  frame.
Qed.

End PassFrames.

Lemma flags_kept_setup_passes fuel : preserves flags_kept (setup_passes fuel).
Proof.
  pose proof (frame_map_cluster_connections flags_kept _ fuel).
  pose proof (frame_configure_processes flags_kept _ (λ _, I)).
  pose proof (frame_check_for_data_dep_ports flags_kept _).
  pose proof (frame_propagate_pinned_types flags_kept _ fuel fuel).
  pose proof (frame_check_for_untyped_ports flags_kept _).
  pose proof (frame_make_connections flags_kept _).
  pose proof (frame_check_for_required_ports flags_kept _ fuel).
  pose proof (frame_check_for_dag flags_kept _).
  pose proof (frame_initialize_processes flags_kept _ (λ _, I)).
  pose proof (frame_check_port_frequencies flags_kept _ fuel (λ _ _, I)).
  unfold setup_passes. frame.
Qed.

(** ** [connect] up to the type-check kernel *)

Lemma check_connection_flags_false up_flags down_flags :
  check_connection_flags up_flags down_flags = false ↔
  flag_output_const ∈ up_flags ∧ flag_input_mutable ∈ down_flags.
Proof.
  unfold check_connection_flags.
  repeat case_bool_decide; simpl; intuition congruence.
Qed.

(** [connect] between two registered plain processes whose ports exist, when
    the lifecycle admits the call: everything up to the flag check. *)
Lemma connect_reaches_checks s un up dn dp up_proc down_proc up_info down_info :
  setup s && negb (setup_in_progress s) = false →
  cluster_map s !! un = None →
  cluster_map s !! dn = None →
  process_map s !! un = Some up_proc →
  process_map s !! dn = Some down_proc →
  output_port_info up_proc up = Ret up_info →
  input_port_info down_proc dp = Ret down_info →
  connect un up dn dp s =
    (if negb (check_connection_flags (flags up_info) (flags down_info)) then
       throw (connection_flag_mismatch_exception ((un, up), (dn, dp)))
     else
       let* status := check_connection_types ((un, up), (dn, dp))
                        (type up_info) (type down_info) in
       match status with
       | type_deferred => ret tt
       | type_mismatch =>
           throw (connection_type_mismatch_exception ((un, up), (dn, dp))
                    (type up_info) (type down_info))
       | type_compatible => modify (with_connections (push_back ((un, up), (dn, dp))))
       end) (planned s ((un, up), (dn, dp))).
Proof.
  intros Hadm Hcu Hcd Hpu Hpd Hui Hdi.
  unfold connect, planned. rewrite bind_gets. simpl.
  rewrite Hadm, Hcu, Hcd. simpl.
  destruct (setup_in_progress s) eqn:Hprog; simpl; autorewrite with monad.
  - rewrite (bind_process_by_name _ _ _ _ Hpu), (bind_process_by_name _ _ _ _ Hpd).
    rewrite Hui, Hdi. by autorewrite with monad.
  - rewrite (bind_process_by_name _ un up_proc), (bind_process_by_name _ dn down_proc)
      by done.
    rewrite Hui, Hdi. by autorewrite with monad.
Qed.

(** The lifecycle guard comes first: after setup no [connect] gets as far
    as the checks. *)
Lemma connect_after_setup s un up dn dp :
  setup s = true → setup_in_progress s = false →
  connect un up dn dp s
  = (Throw (connection_after_setup_exception ((un, up), (dn, dp))), s).
Proof.
  intros Hs Hp. unfold connect. rewrite bind_gets. simpl. by rewrite Hs, Hp.
Qed.

(** C7: for a [connect] between two registered plain processes that reaches
    the flag check (the lifecycle admits the call and both ports exist),
    [check_connection_flags] fails exactly when the upstream flags contain
    [flag_output_const] and the downstream flags contain
    [flag_input_mutable], and [connect] throws
    [connection_flag_mismatch_exception] exactly in that case. *)
Theorem connect_flag_mismatch_iff s un up dn dp up_proc down_proc up_info down_info :
  setup s && negb (setup_in_progress s) = false →
  cluster_map s !! un = None →
  cluster_map s !! dn = None →
  process_map s !! un = Some up_proc →
  process_map s !! dn = Some down_proc →
  output_port_info up_proc up = Ret up_info →
  input_port_info down_proc dp = Ret down_info →
  let conflict :=
    flag_output_const ∈ flags up_info ∧ flag_input_mutable ∈ flags down_info in
  (check_connection_flags (flags up_info) (flags down_info) = false ↔ conflict)
  ∧ (check_connection_flags (flags up_info) (flags down_info) = true ↔ ¬ conflict)
  ∧ (is_flag_mismatch (connect un up dn dp s).1 ↔ conflict)
  ∧ (conflict →
     connect un up dn dp s =
       (Throw (connection_flag_mismatch_exception ((un, up), (dn, dp))),
        planned s ((un, up), (dn, dp)))).
Proof.
  intros Hadm Hcu Hcd Hpu Hpd Hui Hdi conflict.
  pose proof (check_connection_flags_false (flags up_info) (flags down_info)) as Hflags.
  fold conflict in Hflags.
  rewrite (connect_reaches_checks s un up dn dp _ _ _ _ Hadm Hcu Hcd Hpu Hpd Hui Hdi).
  split; [done|]. split.
  { rewrite <- Hflags. by destruct (check_connection_flags _ _). }
  destruct (check_connection_flags (flags up_info) (flags down_info)) eqn:Hchk; simpl.
  - split.
    + rewrite <- Hflags. split; [|done].
      intros [c Hc]. revert Hc.
      unfold check_connection_types.
      repeat (case_bool_decide || case_match); simpl;
        autorewrite with monad; simpl; discriminate.
    + rewrite <- Hflags. done.
  - split; [|done]. split; [by intros _; apply Hflags|].
    intros _. by eexists.
Qed.

(** C1: for a [connect] between two registered plain processes that reaches
    the type check (the lifecycle admits the call, both ports exist and the
    flag check passes), the rows of the table, read in order: an upstream
    type equal to [type_data_dependent] appends the connection to
    [data_dep_connections] and returns; otherwise two types that start with
    [type_flow_dependent] append it to [untyped_connections]; otherwise one
    such type appends it to [type_pinnings], pushing towards that side;
    otherwise two types that differ, neither being [type_any], make
    [connect] throw [connection_type_mismatch_exception]; otherwise the
    connection is appended to [connections]. *)
Theorem connect_type_classification s un up dn dp up_proc down_proc up_info down_info :
  setup s && negb (setup_in_progress s) = false →
  cluster_map s !! un = None →
  cluster_map s !! dn = None →
  process_map s !! un = Some up_proc →
  process_map s !! dn = Some down_proc →
  output_port_info up_proc up = Ret up_info →
  input_port_info down_proc dp = Ret down_info →
  check_connection_flags (flags up_info) (flags down_info) = true →
  let c : connection_t := ((un, up), (dn, dp)) in
  let U := type up_info in
  let D := type down_info in
  let up_flow := starts_with U type_flow_dependent = true in
  let down_flow := starts_with D type_flow_dependent = true in
  let s1 := planned s c in
  (U = type_data_dependent →
     connect un up dn dp s = (Ret tt, with_data_dep_connections (push_back c) s1))
  ∧ (U ≠ type_data_dependent → up_flow → down_flow →
     connect un up dn dp s = (Ret tt, with_untyped_connections (push_back c) s1))
  ∧ (U ≠ type_data_dependent → up_flow → ¬ down_flow →
     connect un up dn dp s =
       (Ret tt, with_type_pinnings (push_back (c, push_upstream)) s1))
  ∧ (U ≠ type_data_dependent → ¬ up_flow → down_flow →
     connect un up dn dp s =
       (Ret tt, with_type_pinnings (push_back (c, push_downstream)) s1))
  ∧ (U ≠ type_data_dependent → ¬ up_flow → ¬ down_flow →
     U ≠ type_any → D ≠ type_any → U ≠ D →
     connect un up dn dp s = (Throw (connection_type_mismatch_exception c U D), s1))
  ∧ (U ≠ type_data_dependent → ¬ up_flow → ¬ down_flow →
     U = type_any ∨ D = type_any ∨ U = D →
     connect un up dn dp s = (Ret tt, with_connections (push_back c) s1)).
Proof.
  intros Hadm Hcu Hcd Hpu Hpd Hui Hdi Hflags c U D up_flow down_flow s1.
  rewrite (connect_reaches_checks s un up dn dp _ _ _ _ Hadm Hcu Hcd Hpu Hpd Hui Hdi).
  rewrite Hflags. simpl. fold c U D s1.
  unfold check_connection_types, up_flow, down_flow. fold U D.
  repeat split.
  - intros HU. rewrite (bool_decide_eq_true_2 _ HU). by autorewrite with monad.
  - intros HU Hu Hd. rewrite (bool_decide_eq_false_2 _ HU), Hu, Hd. simpl.
    by autorewrite with monad.
  - intros HU Hu Hd. apply not_true_is_false in Hd.
    rewrite (bool_decide_eq_false_2 _ HU), Hu, Hd. simpl.
    by autorewrite with monad.
  - intros HU Hu Hd. apply not_true_is_false in Hu.
    rewrite (bool_decide_eq_false_2 _ HU), Hu, Hd. simpl.
    by autorewrite with monad.
  - intros HU Hu Hd Hua Hda Hne.
    apply not_true_is_false in Hu. apply not_true_is_false in Hd.
    rewrite (bool_decide_eq_false_2 _ HU), Hu, Hd. simpl.
    rewrite (bool_decide_eq_false_2 _ Hua), (bool_decide_eq_false_2 _ Hda),
      (bool_decide_eq_false_2 _ Hne). simpl.
    by autorewrite with monad.
  - intros HU Hu Hd Hcases.
    apply not_true_is_false in Hu. apply not_true_is_false in Hd.
    rewrite (bool_decide_eq_false_2 _ HU), Hu, Hd. simpl.
    assert (negb (bool_decide (U = type_any)) && negb (bool_decide (D = type_any))
            && negb (bool_decide (U = D)) = false) as ->.
    { destruct Hcases as [?|[?|?]]; repeat case_bool_decide; simpl; congruence. }
    by autorewrite with monad.
Qed.

(** ** Lifecycle *)

Lemma setup_pipeline_duplicate fuel s :
  setup s = true →
  setup_pipeline fuel s = (Throw pipeline_duplicate_setup_exception, s).
Proof. intros Hs. unfold setup_pipeline. rewrite bind_gets. simpl. by rewrite Hs. Qed.

Lemma check_for_processes_empty s :
  size (process_map s) = 0 → check_for_processes s = (Throw no_processes_exception, s).
Proof.
  intros Hsize. unfold check_for_processes. rewrite bind_gets. simpl.
  by rewrite bool_decide_eq_true_2.
Qed.

Lemma check_for_processes_some s :
  size (process_map s) ≠ 0 → check_for_processes s = (Ret tt, s).
Proof.
  intros Hsize. unfold check_for_processes. rewrite bind_gets. simpl.
  by rewrite bool_decide_eq_false_2.
Qed.

Lemma setup_pipeline_no_processes fuel s :
  setup s = false → size (process_map s) = 0 →
  setup_pipeline fuel s = (Throw no_processes_exception, s).
Proof.
  intros Hs Hsize. unfold setup_pipeline. rewrite bind_gets. simpl. rewrite Hs.
  by rewrite (bind_Throw_eq _ _ _ _ _ (check_for_processes_empty s Hsize)).
Qed.

Lemma setup_pipeline_entered fuel s :
  setup s = false → size (process_map s) ≠ 0 →
  setup_pipeline fuel s =
    match setup_passes fuel (entering_setup s) with
    | (Ret _, s1) => (Ret tt, with_setup_successful true (with_setup_in_progress false s1))
    | (Throw e, s1) => (Throw e, with_setup_in_progress false s1)
    | (Timeout, s1) => (Timeout, s1)
    end.
Proof.
  intros Hs Hsize. unfold setup_pipeline. rewrite bind_gets. simpl. rewrite Hs.
  rewrite (bind_Ret_eq _ _ _ _ _ (check_for_processes_some s Hsize)).
  autorewrite with monad. fold (entering_setup s).
  unfold bind at 1, try_catch.
  destruct (setup_passes fuel (entering_setup s)) as [[[]|e|] s1];
    by autorewrite with monad.
Qed.

Lemma setup_passes_flags fuel s r s1 :
  setup_passes fuel (entering_setup s) = (r, s1) →
  setup s1 = true ∧ setup_in_progress s1 = true ∧ setup_successful s1 = false.
Proof.
  intros Hrun. apply flags_kept_setup_passes in Hrun as (H1 & H2 & H3 & _).
  by rewrite H1, H2, H3.
Qed.

(** C4: once [setup_pipeline] has entered its passes, an exception thrown by
    a pass leaves [setup_pipeline] as that same exception, with [setup]
    still true, [setup_in_progress] false and [setup_successful] false; and
    [setup_successful] is true afterwards exactly when the passes all
    returned. *)
Theorem setup_pipeline_failure_path fuel s :
  setup s = false → size (process_map s) ≠ 0 →
  (∀ e s1, setup_passes fuel (entering_setup s) = (Throw e, s1) →
     ∃ s', setup_pipeline fuel s = (Throw e, s')
           ∧ setup s' = true ∧ setup_in_progress s' = false
           ∧ setup_successful s' = false)
  ∧ (∀ r s', setup_pipeline fuel s = (r, s') →
       (setup_successful s' = true ↔
        ∃ s1, setup_passes fuel (entering_setup s) = (Ret tt, s1))
       ∧ (setup_successful s' = true → r = Ret tt ∧ setup s' = true
                                       ∧ setup_in_progress s' = false)).
Proof.
  intros Hs Hsize. rewrite (setup_pipeline_entered fuel s Hs Hsize). split.
  - intros e s1 Hpass. rewrite Hpass. eexists; split; [done|].
    apply setup_passes_flags in Hpass as (?&?&?). done.
  - intros r s' Hrun.
    destruct (setup_passes fuel (entering_setup s)) as [[[]|e|] s1] eqn:Hpass;
      inversion Hrun; subst; clear Hrun;
      apply setup_passes_flags in Hpass as (?&?&?); simpl.
    + split; [split; eauto|done].
    + split; [split; [congruence|by intros [? [=]]]|congruence].
    + split; [split; [congruence|by intros [? [=]]]|congruence].
Qed.

(** ** Guarded queries *)

Lemma ensure_setup_not_setup s :
  setup s = false → ensure_setup s = (Throw pipeline_not_setup_exception, s).
Proof. intros Hs. unfold ensure_setup. rewrite bind_gets. simpl. by rewrite Hs. Qed.

Lemma ensure_setup_not_ready s :
  setup s = true → setup_in_progress s = false → setup_successful s = false →
  ensure_setup s = (Throw pipeline_not_ready_exception, s).
Proof. intros H1 H2 H3. unfold ensure_setup. rewrite bind_gets. simpl. by rewrite H1, H2, H3. Qed.

Lemma ensure_setup_passes s :
  setup s = true → setup_in_progress s = true ∨ setup_successful s = true →
  ensure_setup s = (Ret tt, s).
Proof.
  intros H1 H2. unfold ensure_setup. rewrite bind_gets. simpl. rewrite H1. simpl.
  destruct H2 as [-> | ->]; [done|]. by rewrite andb_false_r.
Qed.

Lemma run_query_guard q s e :
  ensure_setup s = (Throw e, s) → run_query q s = (Throw e, s).
Proof.
  intros Hg.
  destruct q; simpl;
    unfold upstream_for_process, upstream_for_port, downstream_for_process,
      downstream_for_port, sender_for_port, receivers_for_port, edge_for_connection,
      input_edges_for_process, input_edge_for_port, output_edges_for_process,
      output_edges_for_port, start;
    unfold bind at 1; unfold bind at 1; by rewrite Hg.
Qed.

Lemma run_query_answers q s :
  ensure_setup s = (Ret tt, s) → ∃ a s', run_query q s = (Ret a, s').
Proof.
  intros Hg.
  destruct q; simpl;
    unfold upstream_for_process, upstream_for_port, downstream_for_process,
      downstream_for_port, sender_for_port, receivers_for_port, edge_for_connection,
      input_edges_for_process, input_edge_for_port, output_edges_for_process,
      output_edges_for_port, start;
    unfold bind at 1; unfold bind at 1; rewrite Hg;
    autorewrite with monad; try (by eexists _, _).
  destruct (find_index _ _) as [i|]; [|by eexists _, _].
  unfold edge_map_at. rewrite bind_gets. simpl.
  destruct (edge_map s !! i); by eexists _, _.
Qed.

Lemma setup_pipeline_Ret_flags fuel s0 s :
  setup_pipeline fuel s0 = (Ret tt, s) →
  setup s = true ∧ setup_in_progress s = false ∧ setup_successful s = true.
Proof.
  intros Hrun.
  destruct (setup s0) eqn:Hs.
  { by rewrite setup_pipeline_duplicate in Hrun. }
  destruct (decide (size (process_map s0) = 0)) as [Hsize|Hsize].
  { by rewrite setup_pipeline_no_processes in Hrun. }
  rewrite (setup_pipeline_entered fuel s0 Hs Hsize) in Hrun.
  destruct (setup_passes fuel (entering_setup s0)) as [[[]|e'|] s1] eqn:Hpass;
    inversion Hrun; subst; clear Hrun.
  by apply setup_passes_flags in Hpass as (?&?&?).
Qed.

Lemma setup_pipeline_Ret_ensure_setup fuel s0 s :
  setup_pipeline fuel s0 = (Ret tt, s) → ensure_setup s = (Ret tt, s).
Proof.
  intros Hrun. apply setup_pipeline_Ret_flags in Hrun as (?&?&?).
  apply ensure_setup_passes; auto.
Qed.

Lemma find_none_of_all_false {A} (f : A → bool) (l : list A) :
  (∀ x, x ∈ l → f x = false) → List.find f l = None.
Proof.
  induction l as [|x l IH]; intros Hall; simpl; [done|].
  rewrite (Hall x) by left. apply IH. intros y Hy. apply Hall. by right.
Qed.

Lemma find_index_none_of_all_false {A} (f : A → bool) (l : list A) :
  (∀ x, x ∈ l → f x = false) → find_index f l = None.
Proof.
  induction l as [|x l IH]; intros Hall; simpl; [done|].
  rewrite (Hall x) by left. rewrite IH; [done|]. intros y Hy. apply Hall. by right.
Qed.

(** *** What the lookups read *)

Global Instance name_le_total : Total name_le.
Proof. intros a b. apply String.leb_total. Qed.

Lemma sorted_names_spec (X : gset string) :
  NoDup (sorted_names (elements X)) ∧ Sorted name_le (sorted_names (elements X))
  ∧ ∀ n, n ∈ sorted_names (elements X) ↔ n ∈ X.
Proof.
  unfold sorted_names. split_and!.
  - rewrite merge_sort_Permutation. apply NoDup_elements.
  - apply Sorted_merge_sort. apply _.
  - intros n. by rewrite merge_sort_Permutation, elem_of_elements.
Qed.

Lemma elem_of_List_filter {A} (f : A → bool) (l : list A) x :
  x ∈ List.filter f l ↔ x ∈ l ∧ f x = true.
Proof. by rewrite !list_elem_of_In, filter_In. Qed.

Lemma ends_at_spec (c : connection_t) n port :
  bool_decide (conn_downstream_name c = n) && bool_decide (conn_downstream_port c = port)
  = true ↔ c.2 = (n, port).
Proof.
  destruct c as [u [dn dp]]. unfold conn_downstream_name, conn_downstream_port. simpl.
  rewrite andb_true_iff, !bool_decide_eq_true. split; [by intros [-> ->]|by intros [= -> ->]].
Qed.

Lemma starts_at_spec (c : connection_t) n port :
  bool_decide (conn_upstream_name c = n) && bool_decide (conn_upstream_port c = port)
  = true ↔ c.1 = (n, port).
Proof.
  destruct c as [[un up] d]. unfold conn_upstream_name, conn_upstream_port. simpl.
  rewrite andb_true_iff, !bool_decide_eq_true. split; [by intros [-> ->]|by intros [= -> ->]].
Qed.

Lemma find_first {A} (f : A → bool) (l : list A) :
  match List.find f l with
  | Some x => ∃ l1 l2, l = l1 ++ x :: l2 ∧ f x = true ∧ ∀ y, y ∈ l1 → f y = false
  | None => ∀ y, y ∈ l → f y = false
  end.
Proof.
  induction l as [|x l IH]; simpl; [by intros y ?%elem_of_nil|].
  destruct (f x) eqn:Hx.
  - exists [], l. split_and!; [done..|]. by intros y ?%elem_of_nil.
  - destruct (List.find f l) as [z|].
    + destruct IH as (l1 & l2 & -> & Hz & Hl1). exists (x :: l1), l2.
      split_and!; [done..|]. intros y [->|Hy]%elem_of_cons; auto.
    + intros y [->|Hy]%elem_of_cons; auto.
Qed.

Lemma first_resolved_find (f : connection_t → bool) (X : connection_t → Prop) s :
  (∀ c, f c = true ↔ X c) → first_resolved X s (List.find f (connections s)).
Proof.
  intros Hf. pose proof (find_first f (connections s)) as Hfind.
  unfold first_resolved. destruct (List.find f (connections s)) as [c|].
  - destruct Hfind as (l1 & l2 & Hl & Hc & Hl1). exists l1, l2.
    split_and!; [done|by apply Hf|]. intros c' Hc' HX%Hf. by rewrite (Hl1 c' Hc') in HX.
  - intros c Hc HX%Hf. by rewrite (Hfind c Hc) in HX.
Qed.

Lemma find_index_first {A} (f : A → bool) (l : list A) :
  match find_index f l with
  | Some i => ∃ x, l !! i = Some x ∧ f x = true
                   ∧ ∀ j y, (j < i)%nat → l !! j = Some y → f y = false
  | None => ∀ y, y ∈ l → f y = false
  end.
Proof.
  induction l as [|x l IH]; simpl; [by intros y ?%elem_of_nil|].
  destruct (f x) eqn:Hx.
  - exists x. split_and!; [done..|]. intros j y Hj. lia.
  - destruct (find_index f l) as [i|]; simpl.
    + destruct IH as (z & Hz & Hfz & Hbefore). exists z. split_and!; [done..|].
      intros [|j] y Hj Hy; simpl in Hy; [congruence|]. apply (Hbefore j); [lia|done].
    + intros y [->|Hy]%elem_of_cons; auto.
Qed.

Lemma names_listed_sorted (X : name_t → Prop) (names : gset string) :
  (∀ k, k ∈ names ↔ X k) → names_listed X (sorted_names (elements names)).
Proof.
  intros HX. destruct (sorted_names_spec names) as (Hnodup & Hsorted & Hin).
  split_and!; [done..|]. intros k. by rewrite Hin.
Qed.

Lemma receivers_listed (f : connection_t → bool) (X : connection_t → Prop)
    `{!∀ c, Decision (X c)} (l : list connection_t) :
  (∀ c, f c = true ↔ X c) →
  (λ c : connection_t, c.2) <$> List.filter f l = snd <$> filter X l.
Proof.
  intros Hf. induction l as [|c l IH]; [done|].
  rewrite filter_cons. cbn [List.filter].
  destruct (decide (X c)) as [HX|HX].
  - apply Hf in HX. rewrite HX, !fmap_cons. by rewrite IH.
  - destruct (f c) eqn:Hc; [by apply Hf in Hc|done].
Qed.

Lemma find_head_filter {A} (f : A → bool) (l : list A) :
  List.find f l = head (List.filter f l).
Proof. induction l as [|x l IH]; simpl; [done|]. by destruct (f x). Qed.

Global Instance index_key_le_total {V} : Total (@index_key_le V).
Proof. intros a b. unfold index_key_le. lia. Qed.

Global Instance index_key_le_trans {V} : Transitive (@index_key_le V).
Proof. intros a b c. unfold index_key_le. lia. Qed.

Lemma StronglySorted_le_lt (l : list nat) :
  StronglySorted le l → NoDup l → StronglySorted lt l.
Proof.
  induction 1 as [|x l _ IH Hx]; intros Hnodup; constructor.
  - apply IH. by apply NoDup_cons in Hnodup as [_ ?].
  - apply NoDup_cons in Hnodup as [Hnotin _].
    apply Forall_forall. intros y Hy. rewrite Forall_forall in Hx.
    specialize (Hx y Hy). assert (x ≠ y) by (by intros ->). lia.
Qed.

Lemma StronglySorted_fmap_filter {A B} (R : relation B) (g : A → B) (f : A → bool)
    (l : list A) :
  StronglySorted R (g <$> l) → StronglySorted R (g <$> List.filter f l).
Proof.
  induction l as [|x l IH]; simpl; [done|]. intros Hsorted.
  apply StronglySorted_inv in Hsorted as [Hl Hx].
  destruct (f x); simpl; [|by apply IH]. constructor; [by apply IH|].
  rewrite Forall_fmap in *. apply Forall_forall. intros y [Hy _]%elem_of_List_filter.
  rewrite Forall_forall in Hx. by apply Hx.
Qed.

(** The entries of the edge map in key order. *)
Lemma sorted_edge_map (m : gmap nat (option E)) :
  let entries := merge_sort index_key_le (map_to_list m) in
  StronglySorted lt entries.*1 ∧ ∀ i e, (i, e) ∈ entries ↔ m !! i = Some e.
Proof.
  intros entries.
  assert (entries ≡ₚ map_to_list m) as Hperm by apply merge_sort_Permutation.
  split.
  - apply StronglySorted_le_lt.
    + apply (StronglySorted_fmap fst index_key_le); [by intros x y|].
      apply StronglySorted_merge_sort; apply _.
    + rewrite Hperm. apply NoDup_fst_map_to_list.
  - intros i e. rewrite Hperm. apply elem_of_map_to_list.
Qed.

Lemma omap_filter_selected (f : connection_t → bool) (conns : list connection_t)
    (entries : list (nat * option E)) :
  snd <$> List.filter (λ ce : connection_t * option E, f ce.1)
            (omap (λ ie : nat * option E, (λ c, (c, ie.2)) <$> conns !! ie.1) entries)
  = snd <$> List.filter
      (λ ie : nat * option E,
         match conns !! ie.1 with Some c => f c | None => false end)
      entries.
Proof.
  induction entries as [|[i e] l IH]; [done|]. csimpl.
  destruct (conns !! i) as [c|]; csimpl; [|done].
  destruct (f c); csimpl; by rewrite IH.
Qed.

Lemma edge_entries_selected (f : connection_t → bool) s :
  snd <$> List.filter (λ ce : connection_t * option E, f ce.1) (edge_entries s)
  = snd <$> List.filter
      (λ ie : nat * option E,
         match connections s !! ie.1 with Some c => f c | None => false end)
      (merge_sort index_key_le (map_to_list (edge_map s))).
Proof. apply omap_filter_selected. Qed.

Lemma edge_entries_listed (f : connection_t → bool) (X : connection_t → Prop) s :
  (∀ c, f c = true ↔ X c) →
  edges_listed X s
    (snd <$> List.filter (λ ce : connection_t * option E, f ce.1) (edge_entries s)).
Proof.
  intros Hf. rewrite edge_entries_selected.
  destruct (sorted_edge_map (edge_map s)) as [Hsorted Hentries].
  set (entries := merge_sort index_key_le (map_to_list (edge_map s))) in *.
  set (selected := λ ie : nat * option E,
         match connections s !! ie.1 with Some c => f c | None => false end).
  exists ((List.filter selected entries).*1). split_and!.
  - by apply StronglySorted_fmap_filter.
  - intros i. rewrite list_elem_of_fmap. split.
    + intros ([i' e] & -> & [Hie Hsel]%elem_of_List_filter). simpl.
      apply Hentries in Hie. split; [eauto|].
      unfold selected in Hsel. simpl in Hsel.
      destruct (connections s !! i') as [c|]; [|done]. exists c. split; [done|by apply Hf].
    + intros [[e He] (c & Hc & HX)]. exists (i, e). split; [done|].
      apply elem_of_List_filter. split; [by apply Hentries|].
      unfold selected. simpl. rewrite Hc. by apply Hf.
  - apply Forall2_fmap, Forall_Forall2_diag, Forall_forall.
    intros [i e] [Hie _]%elem_of_List_filter. by apply Hentries.
Qed.

(** Every guarded operation that passes the guard answers with its lookup. *)
Lemma run_query_lookup q s :
  ensure_setup s = (Ret tt, s) →
  ∃ a s', run_query q s = (Ret a, s') ∧ lookup_answer q s a s'.
Proof.
  intros Hg.
  destruct q; simpl;
    unfold upstream_for_process, upstream_for_port, downstream_for_process,
      downstream_for_port, sender_for_port, receivers_for_port, edge_for_connection,
      input_edges_for_process, input_edge_for_port, output_edges_for_process,
      output_edges_for_port, start;
    unfold bind at 1; unfold bind at 1; rewrite Hg;
    autorewrite with monad.
  - eexists _, _. split; [done|]. split; [done|]. eexists. split; [|done].
    apply names_listed_sorted. intros k.
    rewrite elem_of_list_to_set, list_elem_of_fmap. split.
    + intros (c & -> & [Hc Hn%bool_decide_eq_true]%elem_of_List_filter). by exists c.
    + intros (c & Hc & Hn & <-). exists c. split; [done|].
      apply elem_of_List_filter. split; [done|]. by apply bool_decide_eq_true.
  - eexists _, _. split; [done|]. split; [done|].
    eexists. split; [apply (first_resolved_find _ _ _ (λ c, ends_at_spec c n port))|].
    by destruct (List.find _ _).
  - eexists _, _. split; [done|]. split; [done|]. eexists. split; [|done].
    apply names_listed_sorted. intros k.
    rewrite elem_of_list_to_set, list_elem_of_fmap. split.
    + intros (c & -> & [Hc Hn%bool_decide_eq_true]%elem_of_List_filter). by exists c.
    + intros (c & Hc & Hn & <-). exists c. split; [done|].
      apply elem_of_List_filter. split; [done|]. by apply bool_decide_eq_true.
  - eexists _, _. split; [done|]. split; [done|]. eexists. split; [|done].
    apply names_listed_sorted. intros k.
    rewrite elem_of_list_to_set, list_elem_of_fmap. split.
    + intros (c & -> & [Hc Hn%starts_at_spec]%elem_of_List_filter). by exists c.
    + intros (c & Hc & Hn & <-). exists c. split; [done|].
      apply elem_of_List_filter. split; [done|]. by apply starts_at_spec.
  - eexists _, _. split; [done|]. split; [done|].
    eexists. split; [apply (first_resolved_find _ _ _ (λ c, ends_at_spec c n port))|].
    by destruct (List.find _ _).
  - eexists _, _. split; [done|]. split; [done|]. f_equal.
    apply receivers_listed. intros c. apply starts_at_spec.
  - pose proof (find_index_first
                  (λ c, bool_decide (conn_upstream_name c = upstream_name)
                        && bool_decide (conn_upstream_port c = upstream_port)
                        && bool_decide (conn_downstream_name c = downstream_name)
                        && bool_decide (conn_downstream_port c = downstream_port))
                  (connections s)) as Hfind.
    assert (∀ c : connection_t,
              bool_decide (conn_upstream_name c = upstream_name)
              && bool_decide (conn_upstream_port c = upstream_port)
              && bool_decide (conn_downstream_name c = downstream_name)
              && bool_decide (conn_downstream_port c = downstream_port) = true
              ↔ c = ((upstream_name, upstream_port), (downstream_name, downstream_port)))
      as Hsame.
    { intros [[un up] [dn dp]].
      unfold conn_upstream_name, conn_upstream_port, conn_downstream_name,
        conn_downstream_port. simpl.
      rewrite !andb_true_iff, !bool_decide_eq_true.
      split; [by intros [[[-> ->] ->] ->]|by intros [= -> -> -> ->]]. }
    destruct (find_index _ _) as [i|].
    + destruct Hfind as (c & Hc & ->%Hsame & Hbefore).
      unfold edge_map_at. rewrite bind_gets. simpl.
      destruct (edge_map s !! i) as [e|] eqn:He; autorewrite with monad.
      * eexists _, _. split; [done|]. right. exists i.
        split_and!; [done| |unfold edge_t in *; by rewrite He].
        intros j Hj Hcj. apply (Hbefore j _ Hj) in Hcj as Hfalse.
        destruct (Hsame (upstream_name, upstream_port, (downstream_name, downstream_port)))
          as [_ Htrue]. by rewrite Htrue in Hfalse.
      * eexists _, _. split; [done|]. right. exists i.
        split_and!; [done| |unfold edge_t in *; by rewrite He].
        intros j Hj Hcj. apply (Hbefore j _ Hj) in Hcj as Hfalse.
        destruct (Hsame (upstream_name, upstream_port, (downstream_name, downstream_port)))
          as [_ Htrue]. by rewrite Htrue in Hfalse.
    + eexists _, _. split; [done|]. left. split_and!; [|done..].
      intros Hc. apply Hfind in Hc as Hfalse.
      destruct (Hsame (upstream_name, upstream_port, (downstream_name, downstream_port)))
        as [_ Htrue]. by rewrite Htrue in Hfalse.
  - pose proof (edge_entries_listed
                  (λ c : connection_t, bool_decide (conn_downstream_name c = n))
                  (λ c : connection_t, c.2.1 = n) s
                  (λ c, bool_decide_eq_true _)) as Hlisted.
    eexists _, _. split; [done|]. split; [done|]. eexists. split; [exact Hlisted|done].
  - pose proof (edge_entries_listed
                  (λ c : connection_t, bool_decide (conn_downstream_name c = n)
                                       && bool_decide (conn_downstream_port c = port))
                  (λ c : connection_t, c.2 = (n, port)) s
                  (λ c, ends_at_spec c n port)) as Hlisted.
    eexists _, _. split; [done|]. split; [done|]. eexists. split; [exact Hlisted|].
    rewrite find_head_filter. by destruct (List.filter _ _).
  - pose proof (edge_entries_listed
                  (λ c : connection_t, bool_decide (conn_upstream_name c = n))
                  (λ c : connection_t, c.1.1 = n) s
                  (λ c, bool_decide_eq_true _)) as Hlisted.
    eexists _, _. split; [done|]. split; [done|]. eexists. split; [exact Hlisted|done].
  - pose proof (edge_entries_listed
                  (λ c : connection_t, bool_decide (conn_upstream_name c = n)
                                       && bool_decide (conn_upstream_port c = port))
                  (λ c : connection_t, c.1 = (n, port)) s
                  (λ c, starts_at_spec c n port)) as Hlisted.
    eexists _, _. split; [done|]. split; [done|]. eexists. split; [exact Hlisted|done].
  - by eexists _, _.
Qed.

(** C8: every operation guarded by [ensure_setup] throws
    [pipeline_not_setup_exception] while [setup] is false (before
    [setup_pipeline] has entered its passes), throws
    [pipeline_not_ready_exception] in the state left by a [setup_pipeline]
    whose passes threw, and, while a pass is running ([setup] and
    [setup_in_progress] true) and in the state left by a [setup_pipeline]
    that returned, returns the answer of its lookup: what [lookup_answer]
    reads off the resolved connections, the registered processes and the
    edge map. *)
Theorem guarded_queries q :
  (∀ s, setup s = false →
     run_query q s = (Throw pipeline_not_setup_exception, s))
  ∧ (∀ fuel s0 e s, setup s0 = false → size (process_map s0) ≠ 0 →
       setup_pipeline fuel s0 = (Throw e, s) →
       run_query q s = (Throw pipeline_not_ready_exception, s))
  ∧ (∀ s, setup s = true → setup_in_progress s = true →
       ∃ a s', run_query q s = (Ret a, s') ∧ lookup_answer q s a s')
  ∧ (∀ fuel s0 s, setup_pipeline fuel s0 = (Ret tt, s) →
       ∃ a s', run_query q s = (Ret a, s') ∧ lookup_answer q s a s').
Proof.
  repeat split.
  - intros s Hs. by apply run_query_guard, ensure_setup_not_setup.
  - intros fuel s0 e s Hs Hsize Hrun.
    rewrite (setup_pipeline_entered fuel s0 Hs Hsize) in Hrun.
    destruct (setup_passes fuel (entering_setup s0)) as [[[]|e'|] s1] eqn:Hpass;
      inversion Hrun; subst; clear Hrun.
    apply setup_passes_flags in Hpass as (?&?&?).
    by apply run_query_guard, ensure_setup_not_ready.
  - intros s H1 H2. apply run_query_lookup, ensure_setup_passes; auto.
  - intros fuel s0 s Hrun.
    by eapply run_query_lookup, setup_pipeline_Ret_ensure_setup.
Qed.

(** C10: in the state left by a [setup_pipeline] that returned, a port
    lookup that matches no connection answers with the empty default:
    [sender_for_port] gives the empty address and [upstream_for_port] the
    null handle when no entry of [connections] ends in [(n, port)], and
    [edge_for_connection] gives the null edge for a four-address tuple that
    is not in [connections]; none of them throws or changes the state. *)
Theorem unmatched_lookups_default fuel s0 s :
  setup_pipeline fuel s0 = (Ret tt, s) →
  (∀ n port, (∀ c, c ∈ connections s → c.2 ≠ (n, port)) →
     sender_for_port n port s = (Ret ("", ""), s)
     ∧ upstream_for_port n port s = (Ret None, s))
  ∧ (∀ un up dn dp, ((un, up), (dn, dp)) ∉ connections s →
     edge_for_connection un up dn dp s = (Ret None, s)).
Proof.
  intros Hrun. apply setup_pipeline_Ret_ensure_setup in Hrun as Hg. split.
  - intros n port Hnone.
    assert (List.find (λ c, bool_decide (conn_downstream_name c = n)
                            && bool_decide (conn_downstream_port c = port))
                      (connections s) = None) as Hfind.
    { apply find_none_of_all_false. intros [cu [dn dp]] Hc.
      specialize (Hnone _ Hc). unfold conn_downstream_name, conn_downstream_port.
      simpl in *. repeat case_bool_decide; simpl; congruence. }
    unfold sender_for_port, upstream_for_port.
    rewrite !(bind_Ret_eq _ _ _ _ _ Hg). unfold gets. by rewrite Hfind.
  - intros un up dn dp Hnotin.
    unfold edge_for_connection. rewrite (bind_Ret_eq _ _ _ _ _ Hg).
    rewrite bind_gets. simpl.
    rewrite find_index_none_of_all_false; [done|].
    intros [[un' up'] [dn' dp']] Hc.
    unfold conn_upstream_name, conn_upstream_port, conn_downstream_name,
      conn_downstream_port. simpl.
    repeat case_bool_decide; simpl; try done. by subst.
Qed.

(** ** Registering clusters *)

Lemma process_t_nested_ind (Pr : process_t P → Prop) :
  (∀ p, Pr (plain_process p)) →
  (∀ n ps ic im om, Forall Pr ps → Pr (process_cluster n ps ic im om)) →
  ∀ p, Pr p.
Proof.
  intros Hleaf Hcluster.
  fix IH 1. intros [p|n ps ic im om]; [apply Hleaf|].
  apply Hcluster. induction ps as [|q ps IHps]; constructor; [apply IH|apply IHps].
Qed.

Global Instance clusters_kept_preorder : PreOrder clusters_kept.
Proof.
  split; [by intros s k|].
  intros s1 s2 s3 H12 H23 k Hk.
  destruct (H12 k Hk) as [Hc Hp].
  destruct (H23 k) as [Hc' Hp']; [by rewrite Hc|].
  split; congruence.
Qed.

Lemma clusters_kept_connect_connection c : preserves clusters_kept (connect_connection c).
Proof.
  unfold connect_connection, connect, check_connection_types, process_by_name.
  frame; by intros k Hk.
Qed.

Lemma add_process_node_cluster n ps ic im om :
  (add_process_node (process_cluster n ps ic im om) : M unit) =
  (let* s := gets id in
   if setup s then throw (add_after_setup_exception n)
   else
     check_duplicate_name n ;;;
     let parent := match parent_stack s with [] => "" | top :: _ => top end in
     modify (with_cluster_map (insert n (process_cluster n ps ic im om))) ;;;
     modify (with_process_parent_map (insert n parent)) ;;;
     modify (with_parent_stack (cons n)) ;;;
     foreach ps add_process_node ;;;
     foreach ic connect_connection ;;;
     modify (with_parent_stack (drop 1))).
Proof.
  assert (∀ l, (fix add_all (l : list (process_t P)) : M unit :=
                  match l with
                  | [] => ret tt
                  | cluster_proc :: l' => add_process_node cluster_proc ;;; add_all l'
                  end) l = foreach l add_process_node) as Hloop.
  { induction l as [|q l IHl]; simpl; [done|]. by rewrite IHl. }
  simpl. by rewrite Hloop.
Qed.

Lemma check_duplicate_name_Ret n s r s' :
  check_duplicate_name n s = (r, s') →
  s' = s ∧ (r = Ret tt → process_map s !! n = None ∧ cluster_map s !! n = None).
Proof.
  unfold check_duplicate_name. rewrite bind_gets. simpl.
  destruct (process_map s !! n) eqn:Hp, (cluster_map s !! n) eqn:Hc; simpl.
  all: repeat (rewrite bool_decide_eq_true_2 by eauto).
  all: repeat (rewrite bool_decide_eq_false_2 by (by intros [? ?])).
  all: simpl; intros [= <- <-]; split; [done|]; done.
Qed.

Lemma clusters_kept_add_process_node p : preserves clusters_kept (add_process_node p).
Proof.
  induction p as [p|n ps ic im om IH] using process_t_nested_ind.
  - intros s r s' Hrun. simpl in Hrun. rewrite bind_gets in Hrun. simpl in Hrun.
    destruct (setup s); [inversion Hrun; subst; reflexivity|].
    apply bind_inv in Hrun as [(? & s1 & Hdup & Hrun)|[(e & Hdup & _)|[Hdup _]]];
      apply check_duplicate_name_Ret in Hdup as [-> Hdup]; try reflexivity.
    destruct Hdup as [_ Hc]; [by destruct x|].
    autorewrite with monad in Hrun. inversion Hrun; subst; clear Hrun.
    intros k Hk. simpl. split; [done|].
    apply lookup_insert_ne. intros <-. rewrite Hc in Hk. by destruct Hk.
  - rewrite add_process_node_cluster.
    intros s r s' Hrun. rewrite bind_gets in Hrun. simpl in Hrun.
    destruct (setup s); [inversion Hrun; subst; reflexivity|].
    apply bind_inv in Hrun as [(? & s1 & Hdup & Hrun)|[(e & Hdup & _)|[Hdup _]]];
      apply check_duplicate_name_Ret in Hdup as [-> Hdup]; try reflexivity.
    destruct Hdup as [_ Hc]; [by destruct x|].
    autorewrite with monad in Hrun.
    assert (preserves clusters_kept
              (foreach ps add_process_node ;;; foreach ic connect_connection ;;;
               modify (with_parent_stack (drop 1)))) as Htail.
    { pose proof clusters_kept_connect_connection.
      assert (preserves clusters_kept (foreach ps add_process_node)).
      { clear -IH. induction IH as [|q ps Hq _ IHps]; simpl; frame. }
      frame. by intros k Hk. }
    apply Htail in Hrun. etransitivity; [|exact Hrun].
    intros k Hk. simpl. split; [|done].
    apply lookup_insert_ne. intros <-. rewrite Hc in Hk. by destruct Hk.
Qed.

(** C9: after [add_process] has added a cluster, every cluster of the added
    tree (the cluster itself and the clusters nested in it) is found by
    [cluster_by_name] under its name, while [process_by_name] throws
    [no_such_process_exception] for that name and [process_names] does not
    list it. *)
Theorem cluster_registered_only_as_cluster s n ps ic im om s' :
  add_process (Some (process_cluster n ps ic im om)) s = (Ret tt, s') →
  ∀ q, q ∈ clusters_of (process_cluster n ps ic im om) →
    cluster_by_name (process_name q) s' = (Ret q, s')
    ∧ process_by_name (process_name q) s'
      = (Throw (no_such_process_exception (process_name q)), s')
    ∧ (∀ names s'', process_names s' = (Ret names, s'') → process_name q ∉ names).
Proof.
  intros Hrun q Hq.
  assert (cluster_map s' !! process_name q = Some q
          ∧ process_map s' !! process_name q = None) as [Hc Hp].
  { unfold add_process in Hrun. revert s s' Hrun q Hq.
    generalize (process_cluster n ps ic im om) as p. clear n ps ic im om.
    intros p. induction p as [p|n ps ic im om IH] using process_t_nested_ind;
      intros s s' Hrun q Hq; [by apply elem_of_nil in Hq|].
    rewrite add_process_node_cluster in Hrun.
    rewrite bind_gets in Hrun. simpl in Hrun.
    destruct (setup s); [done|].
    apply bind_Ret_inv in Hrun as ([] & s1 & Hdup & Hrun).
    apply check_duplicate_name_Ret in Hdup as [-> Hdup].
    destruct (Hdup eq_refl) as [Hpn Hcn]. clear Hdup.
    autorewrite with monad in Hrun.
    apply bind_Ret_inv in Hrun as ([] & s2 & Hchildren & Hrun).
    assert (clusters_kept s2 s') as Hrest.
    { pose proof clusters_kept_connect_connection as Hconn.
      assert (preserves clusters_kept
                (foreach ic connect_connection ;;; modify (with_parent_stack (drop 1))))
        as Hpres by (frame; by intros k Hk).
      by eapply Hpres. }
    simpl in Hq. apply elem_of_cons in Hq as [->|Hq].
    + simpl.
      assert (preserves clusters_kept (foreach ps add_process_node)) as Hkids.
      { pose proof clusters_kept_add_process_node. frame. }
      apply Hkids in Hchildren.
      destruct (Hchildren n) as [Hc2 Hp2]; [simpl; by rewrite lookup_insert_eq|].
      simpl in Hc2, Hp2. rewrite lookup_insert_eq in Hc2.
      destruct (Hrest n) as [Hc3 Hp3]; [by rewrite Hc2|].
      split; congruence.
    + apply list_elem_of_In, in_flat_map in Hq as (child & Hchild & Hq).
      apply list_elem_of_In in Hchild, Hq.
      revert Hchildren.
      match goal with |- _ ?s1 = _ → _ => generalize s1 end.
      clear Hrun Hpn Hcn.
      induction IH as [|x ps Hx _ IHps]; intros s1 Hchildren;
        [by apply elem_of_nil in Hchild|].
      simpl in Hchildren.
      apply bind_Ret_inv in Hchildren as ([] & s3 & Hfirst & Hothers).
      apply elem_of_cons in Hchild as [->|Hchild].
      * destruct (Hx _ _ Hfirst _ Hq) as [Hcq Hpq].
        assert (preserves clusters_kept (foreach ps add_process_node)) as Hkids.
        { pose proof clusters_kept_add_process_node. frame. }
        apply Hkids in Hothers.
        destruct (Hothers (process_name q)) as [Hc2 Hp2]; [by rewrite Hcq|].
        destruct (Hrest (process_name q)) as [Hc3 Hp3]; [by rewrite Hc2, Hcq|].
        split; congruence.
      * by eapply IHps. }
  repeat split.
  - unfold cluster_by_name. rewrite bind_gets. simpl. by rewrite Hc.
  - by apply process_by_name_None.
  - intros names s'' [= <- <-]. unfold sorted_names.
    rewrite merge_sort_Permutation, elem_of_elements, elem_of_dom.
    rewrite Hp. by intros [? ?].
Qed.

(** ** Flattening clusters *)

Lemma map_cluster_connections_unfold fuel s :
  map_cluster_connections (S fuel) s =
  (foreach (cluster_connections s) map_cluster_connection ;;;
   let* remaining := gets cluster_connections in
   match remaining with
   | [] => ret tt
   | _ => map_cluster_connections fuel
   end) (with_cluster_connections (λ _, []) s).
Proof. reflexivity. Qed.

Lemma map_cluster_connections_Ret fuel s s' :
  map_cluster_connections fuel s = (Ret tt, s') → cluster_connections s' = [].
Proof.
  revert s. induction fuel as [|fuel IH]; intros s Hrun; [done|].
  rewrite map_cluster_connections_unfold in Hrun.
  apply bind_Ret_inv in Hrun as ([] & s1 & _ & Hrun).
  rewrite bind_gets in Hrun.
  destruct (cluster_connections s1) eqn:Hrem.
  - by inversion Hrun; subst.
  - by eapply IH.
Qed.

(** C3: one entry of the snapshot of [cluster_connections] whose cluster is
    registered.  Tagged [cluster_upstream]: with the output mappings whose
    external address is the pending upstream address, none makes the pass
    throw [no_such_port_exception], more than one makes it throw
    [logic_error], and exactly one replaces the entry by one [connect] from
    the mapped internal port to the pending downstream address.  Tagged
    [cluster_downstream]: with the input mappings whose external address is
    the pending downstream address, none makes the pass throw
    [no_such_port_exception], and otherwise every one of them, in order,
    gets its own [connect] from the pending upstream address.  A sweep
    clears the list, treats every entry of the snapshot in order and starts
    over unless the list is empty; when the pass returns the list is
    empty. *)
Theorem cluster_flattening s cluster up down :
  let up_matches :=
    List.filter (λ m : connection_t, bool_decide (up = m.2))
                (cluster_output_mappings cluster) in
  let down_matches :=
    List.filter (λ m : connection_t, bool_decide (down = m.1))
                (cluster_input_mappings cluster) in
  (cluster_map s !! up.1 = Some cluster →
     (up_matches = [] →
        map_cluster_connection ((up, down), cluster_upstream) s
        = (Throw (no_such_port_exception up.1 up.2), s))
     ∧ (1 < length up_matches →
        ∃ reason, map_cluster_connection ((up, down), cluster_upstream) s
                  = (Throw (logic_error reason), s))
     ∧ (∀ m, up_matches = [m] →
        map_cluster_connection ((up, down), cluster_upstream) s
        = connect m.1.1 m.1.2 down.1 down.2 s))
  ∧ (cluster_map s !! down.1 = Some cluster →
     (down_matches = [] →
        map_cluster_connection ((up, down), cluster_downstream) s
        = (Throw (no_such_port_exception down.1 down.2), s))
     ∧ (down_matches ≠ [] →
        map_cluster_connection ((up, down), cluster_downstream) s
        = foreach down_matches (λ m, connect up.1 up.2 m.2.1 m.2.2) s))
  ∧ (∀ fuel,
       map_cluster_connections (S fuel) s =
       (foreach (cluster_connections s) map_cluster_connection ;;;
        let* remaining := gets cluster_connections in
        match remaining with
        | [] => ret tt
        | _ => map_cluster_connections fuel
        end) (with_cluster_connections (λ _, []) s))
  ∧ (∀ fuel s', map_cluster_connections fuel s = (Ret tt, s') →
       cluster_connections s' = []).
Proof.
  intros up_matches down_matches.
  split; [intros Hc; split; [|split]|split; [intros Hc; split|split]].
  - intros Hempty. unfold map_cluster_connection. simpl.
    rewrite bind_gets. simpl. rewrite Hc.
    unfold is_downstream_for. fold up_matches. by rewrite Hempty.
  - intros Hmany. unfold map_cluster_connection. simpl.
    rewrite bind_gets. simpl. rewrite Hc.
    unfold is_downstream_for. fold up_matches.
    destruct up_matches as [|m1 [|m2 l]]; simpl in Hmany; try lia. by eexists.
  - intros m Hone. unfold map_cluster_connection. simpl.
    rewrite bind_gets. simpl. rewrite Hc.
    unfold is_downstream_for. fold up_matches. by rewrite Hone.
  - intros Hempty. unfold map_cluster_connection. simpl.
    rewrite bind_gets. simpl. rewrite Hc.
    unfold is_upstream_for. fold down_matches. by rewrite Hempty.
  - intros Hsome. unfold map_cluster_connection. simpl.
    rewrite bind_gets. simpl. rewrite Hc.
    unfold is_upstream_for. fold down_matches. by destruct down_matches.
  - intros fuel. apply map_cluster_connections_unfold.
  - intros fuel s'. apply map_cluster_connections_Ret.
Qed.

(** ** Removing processes *)

Lemma forget_spec {A} (f : A → bool) (l : list A) x :
  x ∈ forget f l ↔ x ∈ l ∧ f x = false.
Proof.
  unfold forget. rewrite !list_elem_of_In, filter_In.
  by rewrite negb_true_iff.
Qed.

(** For a plain process the purge does what C6 says. *)
Lemma remove_process_plain fuel s n p :
  setup s = false → cluster_map s !! n = None → process_map s !! n = Some p →
  ∃ s', remove_process (S fuel) n s = (Ret tt, s')
    ∧ process_map s' !! n = None
    ∧ (∀ c, is_connection_with n c = true →
         (c ∉ planned_connections s') ∧ (c ∉ connections s')
         ∧ (c ∉ data_dep_connections s') ∧ (c ∉ untyped_connections s'))
    ∧ (∀ cc, is_connection_with n cc.1 = true → cc ∉ cluster_connections s').
Proof.
  intros Hs Hc Hp. eexists. split.
  { simpl. rewrite bind_gets. simpl. rewrite Hs, Hc, Hp.
    unfold remove_from_pipeline. by autorewrite with monad. }
  simpl. split; [apply lookup_delete_eq|]. split.
  - intros c Hwith. rewrite !forget_spec. repeat split; intros [_ Hf]; congruence.
  - intros cc Hwith. rewrite forget_spec. intros [_ Hf].
    unfold is_cluster_connection_with in Hf. congruence.
Qed.

(** ** Frequency solver *)

Lemma freq_unknown_false f : freq_unknown f = false ↔ ¬ (f == 0)%Q.
Proof.
  unfold freq_unknown, Qeq. simpl. rewrite Z.eqb_neq, Z.mul_1_r. done.
Qed.

Lemma freq_neq_false a b : freq_neq a b = false ↔ (a == b)%Q.
Proof. unfold freq_neq. rewrite negb_false_iff. apply Qeq_bool_iff. Qed.

Lemma freq_div_mul f pf qf :
  ¬ (qf == 0)%Q → (freq_div (freq_mul f pf) qf * qf == f * pf)%Q.
Proof. intros Hq. unfold freq_div, freq_mul. rewrite !Qred_correct. by field. Qed.

Lemma freq_scale_correct k f : (freq_scale k f == inject_Z k * f)%Q.
Proof. unfold freq_scale. apply Qred_correct. Qed.

Lemma check_connection_frequency_spec freq c upf downf freq' requeued :
  ¬ (upf == 0)%Q → ¬ (downf == 0)%Q →
  check_connection_frequency freq c upf downf = Ret (freq', requeued) →
  (requeued = [] ∨ requeued = [c] ∧ freq' = freq ∧ freq ≠ ∅)
  ∧ freq ⊆ freq'
  ∧ (requeued = [] →
     is_Some (freq' !! conn_upstream_name c)
     ∧ is_Some (freq' !! conn_downstream_name c)
     ∧ (conn_upstream_name c ≠ conn_downstream_name c ∨ freq ≠ ∅ →
        consistent_along freq' c upf downf))
  ∧ (∀ k, is_Some (freq' !! k) →
       is_Some (freq !! k) ∨ k = conn_upstream_name c ∨ k = conn_downstream_name c).
Proof.
  intros Hupf Hdownf. unfold check_connection_frequency, consistent_along.
  set (u := conn_upstream_name c). set (d := conn_downstream_name c).
  destruct (freq !! u) as [fu|] eqn:Hu; destruct (freq !! d) as [fd|] eqn:Hd; simpl.
  - rewrite Hu, Hd. simpl.
    destruct (freq_neq fd (freq_div (freq_mul fu upf) downf)) eqn:Hcmp; [done|].
    intros [= <- <-]. apply freq_neq_false in Hcmp.
    split; [by left|]. split; [done|]. split; [|by left].
    intros _. rewrite Hu, Hd. repeat split; eauto.
    intros _. exists fu, fd. repeat split.
    rewrite Hcmp. symmetry. by apply freq_div_mul.
  - rewrite Hu. simpl. intros [= <- <-].
    assert (u ≠ d) as Hne by (intros Heq; rewrite Heq in Hu; congruence).
    split; [by left|]. split; [by apply insert_subseteq|]. split.
    + intros _. rewrite lookup_insert_eq, lookup_insert_ne, Hu by done.
      repeat split; eauto. intros _. eexists _, _. repeat split.
      symmetry. by apply freq_div_mul.
    + intros k. destruct (decide (d = k)) as [<-|Hk]; [by auto|].
      rewrite lookup_insert_ne by done. auto.
  - rewrite Hd. simpl. intros [= <- <-].
    assert (u ≠ d) as Hne by (intros Heq; rewrite Heq in Hu; congruence).
    split; [by left|]. split; [by apply insert_subseteq|]. split.
    + intros _. rewrite lookup_insert_eq, lookup_insert_ne, Hd by done.
      repeat split; eauto. intros _. eexists _, _. repeat split.
      by apply freq_div_mul.
    + intros k. destruct (decide (u = k)) as [<-|Hk]; [by auto|].
      rewrite lookup_insert_ne by done. auto.
  - case_bool_decide as Hsize; simpl.
    + apply map_size_empty_inv in Hsize. subst freq.
      rewrite lookup_insert_eq. simpl. intros [= <- <-].
      split; [by left|]. split; [apply map_empty_subseteq|]. split.
      * intros _. rewrite lookup_insert_eq. split.
        { destruct (decide (d = u)) as [->|Hne].
          - rewrite lookup_insert_eq. eauto.
          - rewrite lookup_insert_ne, lookup_insert_eq by done. eauto. }
        split; [eauto|]. intros [Hne|Hne]; [|done].
        rewrite lookup_insert_ne, lookup_insert_eq by done.
        eexists _, _. repeat split. symmetry. by apply freq_div_mul.
      * intros k. destruct (decide (d = k)) as [<-|Hk]; [by auto|].
        rewrite lookup_insert_ne by done.
        destruct (decide (u = k)) as [<-|Hk']; [by auto|].
        rewrite lookup_insert_ne by done. auto.
    + intros [= <- <-]. split; [right|].
      { split_and!; [done..|]. intros ->. by rewrite map_size_empty in Hsize. }
      split; [done|]. split; [done|]. auto.
Qed.

Lemma connection_port_frequencies_state c s r s' :
  connection_port_frequencies c s = (r, s') → s' = s.
Proof.
  intros Hrun. symmetry. revert s r s' Hrun.
  change (preserves (@eq priv) (connection_port_frequencies c)).
  unfold connection_port_frequencies, process_by_name. frame.
Qed.

Lemma known_frequencies_read s c fs :
  connection_port_frequencies c s = (Ret fs, s) →
  ∀ upf downf, known_frequencies s c upf downf ↔
    fs = (upf, downf) ∧ freq_unknown upf = false ∧ freq_unknown downf = false.
Proof.
  intros Hread upf downf. unfold known_frequencies, port_frequencies_of.
  rewrite Hread. simpl. split; intros (? & ? & ?); repeat split; congruence.
Qed.

Lemma consistent_along_weaken freq freq' c upf downf :
  freq ⊆ freq' → consistent_along freq c upf downf → consistent_along freq' c upf downf.
Proof.
  intros Hsub (fu & fd & Hu & Hd & Heq). exists fu, fd.
  repeat split; [by eapply lookup_weaken..|done].
Qed.

Lemma is_Some_weaken (freq freq' : gmap string Q) k :
  freq ⊆ freq' → is_Some (freq !! k) → is_Some (freq' !! k).
Proof. intros Hsub [v Hv]. exists v. by eapply lookup_weaken. Qed.

(** What the work-queue loop has established when it returns. *)
Lemma solve_frequencies_spec fuel s freq queue final s' :
  solve_frequencies fuel freq queue s = (Ret final, s') →
  s' = s ∧ freq ⊆ final
  ∧ (∀ c upf downf, c ∈ queue → known_frequencies s c upf downf →
       is_Some (final !! conn_upstream_name c)
       ∧ is_Some (final !! conn_downstream_name c)
       ∧ (conn_upstream_name c ≠ conn_downstream_name c →
          consistent_along final c upf downf))
  ∧ (∀ k, is_Some (final !! k) →
       is_Some (freq !! k)
       ∨ ∃ c upf downf, c ∈ queue ∧ known_frequencies s c upf downf
                        ∧ (k = conn_upstream_name c ∨ k = conn_downstream_name c)).
Proof.
  revert freq queue. induction fuel as [|fuel IH]; intros freq queue Hrun; [done|].
  destruct queue as [|c rest]; simpl in Hrun.
  { inversion Hrun; subst. split_and!; [done|done| |by auto].
    intros c ? ? Hc. by apply elem_of_nil in Hc. }
  apply bind_Ret_inv in Hrun as (fs & s1 & Hread & Hrun).
  pose proof (connection_port_frequencies_state _ _ _ _ Hread) as ->.
  pose proof (known_frequencies_read _ _ _ Hread) as Hknown.
  destruct (freq_unknown fs.1 || freq_unknown fs.2) eqn:Hunknown.
  - apply IH in Hrun as (-> & Hsub & Hqueue & Hdom).
    split_and!; [done|done|..].
    + intros c' upf downf [->|Hc']%elem_of_cons Hk; [|by eapply Hqueue].
      apply Hknown in Hk as (-> & Hu & Hd). simpl in Hunknown.
      rewrite Hu, Hd in Hunknown. done.
    + intros k Hk. destruct (Hdom k Hk) as [?|(c' & upf & downf & Hc' & ? & ?)];
        [by left|right]. exists c', upf, downf. split; [by right|done].
  - apply orb_false_iff in Hunknown as [Hu Hd].
    destruct (check_connection_frequency freq c fs.1 fs.2) as [[freq1 rq]|e|] eqn:Hstep;
      autorewrite with monad in Hrun; [|done..].
    simpl in Hrun. apply IH in Hrun as (-> & Hsub & Hqueue & Hdom).
    apply check_connection_frequency_spec in Hstep
      as (Hrq & Hsub1 & Hsettled & Hdom1); [|by apply freq_unknown_false..].
    assert (known_frequencies s c fs.1 fs.2) as Hc.
    { apply Hknown. by destruct fs. }
    split_and!; [done|by etransitivity|..].
    + intros c' upf downf [->|Hc']%elem_of_cons Hk.
      * destruct Hrq as [->|(-> & -> & _)].
        -- apply Hknown in Hk as (-> & _ & _). simpl in *.
           destruct Hsettled as (Hsu & Hsd & Hcons); [done|].
           split_and!; [by eapply is_Some_weaken..|].
           intros Hne. eapply consistent_along_weaken; eauto.
        -- eapply Hqueue; [|done]. apply elem_of_app. right. by left.
      * eapply Hqueue; [|done]. apply elem_of_app. by left.
    + intros k Hk. destruct (Hdom k Hk) as [Hk1|(c' & upf & downf & Hc' & Hk' & Hends)].
      * destruct (Hdom1 k Hk1) as [?|Hends]; [by left|right].
        exists c, fs.1, fs.2. split; [by left|done].
      * right. exists c', upf, downf. split; [|done].
        apply elem_of_app in Hc' as [?|Hc']; [by right|].
        destruct Hrq as [->|[-> _]]; [by apply elem_of_nil in Hc'|].
        apply list_elem_of_singleton in Hc' as ->. by left.
Qed.

Lemma frequencies_known_read s c fs :
  connection_port_frequencies c s = (Ret fs, s) →
  frequencies_known s c = negb (freq_unknown fs.1 || freq_unknown fs.2).
Proof.
  intros Hread. unfold frequencies_known, port_frequencies_of. rewrite Hread.
  destruct fs as [upf downf]. simpl. by rewrite negb_orb.
Qed.

Lemma frequencies_known_true s c upf downf :
  known_frequencies s c upf downf → frequencies_known s c = true.
Proof.
  intros (Hread & Hu & Hd). unfold frequencies_known. by rewrite Hread, Hu, Hd.
Qed.

(** Every connection of the queue both of whose ports declare a frequency
    has been validated when the loop returns, but for a connection from a
    process to itself that is met while the frequency map is empty. *)
Lemma solve_frequencies_consistent fuel s freq queue final s' :
  solve_frequencies fuel freq queue s = (Ret final, s') →
  ∀ i c upf downf, queue !! i = Some c → known_frequencies s c upf downf →
    conn_upstream_name c ≠ conn_downstream_name c ∨ freq ≠ ∅
      ∨ find_index (frequencies_known s) queue ≠ Some i →
    consistent_along final c upf downf.
Proof.
  revert freq queue. induction fuel as [|fuel IH];
    intros freq queue Hrun i c' upf downf Hi Hk Hor; [done|].
  destruct queue as [|c rest]; [by rewrite lookup_nil in Hi|]. simpl in Hrun.
  apply bind_Ret_inv in Hrun as (fs & s1 & Hread & Hrun).
  pose proof (connection_port_frequencies_state _ _ _ _ Hread) as ->.
  pose proof (known_frequencies_read _ _ _ Hread) as Hknown.
  pose proof (frequencies_known_read _ _ _ Hread) as Hfk.
  destruct (freq_unknown fs.1 || freq_unknown fs.2) eqn:Hunknown.
  - destruct i as [|j]; simpl in Hi.
    + inversion Hi; subst c'. apply Hknown in Hk as (-> & Hu & Hd).
      simpl in Hunknown. by rewrite Hu, Hd in Hunknown.
    + apply (IH freq rest Hrun j c' upf downf Hi Hk).
      destruct Hor as [?|[?|Hseed]]; [auto..|]. right; right.
      intros Hj. apply Hseed. simpl. rewrite Hfk. simpl. by rewrite Hj.
  - destruct (check_connection_frequency freq c fs.1 fs.2) as [[freq1 rq]|e|] eqn:Hstep;
      autorewrite with monad in Hrun; [|done..].
    simpl in Hrun.
    pose proof (solve_frequencies_spec _ _ _ _ _ _ Hrun) as (_ & Hsub & _ & _).
    apply orb_false_iff in Hunknown as Hunknown'. destruct Hunknown' as [Hu Hd].
    apply check_connection_frequency_spec in Hstep
      as (Hrq & Hsub1 & Hsettled & _); [|by apply freq_unknown_false..].
    destruct Hrq as [->|(-> & -> & Hne)].
    + destruct (Hsettled eq_refl) as ([fu1 Hfu1] & _ & Hcons).
      assert (freq1 ≠ ∅) as Hne1 by (intros ->; by rewrite lookup_empty in Hfu1).
      destruct i as [|j]; simpl in Hi.
      * inversion Hi; subst c'. apply Hknown in Hk as (-> & _ & _). simpl in *.
        eapply consistent_along_weaken; [exact Hsub|]. apply Hcons.
        destruct Hor as [?|[?|Hseed]]; [auto..|].
        destruct Hseed. by rewrite Hfk.
      * apply (IH freq1 (rest ++ []) Hrun j c' upf downf); [|done|auto].
        by rewrite app_nil_r.
    + destruct i as [|j]; simpl in Hi.
      * inversion Hi; subst c'.
        apply (IH freq (rest ++ [c]) Hrun (length rest) c upf downf); [|done|auto].
        by apply list_lookup_middle.
      * apply (IH freq (rest ++ [c]) Hrun j c' upf downf); [|done|auto].
        by apply lookup_app_l_Some.
Qed.

Lemma find_index_ext {A} (f g : A → bool) (l : list A) :
  (∀ x, f x = g x) → find_index f l = find_index g l.
Proof. intros Hfg. induction l as [|x l IH]; simpl; [done|]. by rewrite Hfg, IH. Qed.

Lemma setup_passes_split fuel s :
  setup_passes fuel s =
  (structural_passes fuel ;;; check_port_frequencies fuel) s.
Proof.
  unfold setup_passes, structural_passes, bind.
  repeat match goal with
         | |- context [match ?m s with _ => _ end] => destruct (m s) as [[[]|?|] ?]
         | |- context [match ?m ?s1 with _ => _ end] => destruct (m s1) as [[[]|?|] ?]
         end; reflexivity.
Qed.

Global Instance same_ports_preorder : PreOrder same_ports.
Proof.
  split.
  - intros s n. by destruct (process_map s !! n).
  - intros s1 s2 s3 H12 H23 n. specialize (H12 n). specialize (H23 n).
    destruct (process_map s1 !! n), (process_map s2 !! n), (process_map s3 !! n);
      try done.
    intros port. destruct (H12 port), (H23 port). split; congruence.
Qed.

Global Instance no_core_calls_preorder : PreOrder no_core_calls.
Proof.
  split.
  - intros s. exists []. by rewrite app_nil_r.
  - intros s1 s2 s3 (evs1 & H1 & Hevs1) (evs2 & H2 & Hevs2).
    exists (evs1 ++ evs2). rewrite H2, H1, app_assoc. split; [done|].
    by apply Forall_app.
Qed.

Global Instance no_core_calls_pass_frame :
  PassFrame no_core_calls (λ ev, ¬ is_core_frequency_call ev).
Proof.
  split; try apply _; try (intros; exists []; by rewrite app_nil_r).
  intros ev s Hev. exists [ev]. split; [done|]. by constructor.
Qed.

Lemma same_ports_dom s s' : same_ports s s' → dom (process_map s') = dom (process_map s).
Proof.
  intros Hsame. apply set_eq. intros n. rewrite !elem_of_dom.
  specialize (Hsame n).
  destruct (process_map s !! n), (process_map s' !! n); try done.
  all: split; first [by intros [? ?] | by eauto].
Qed.

Lemma same_ports_size s s' :
  same_ports s s' → size (process_map s') = size (process_map s).
Proof. intros Hsame. by rewrite <- !size_dom, (same_ports_dom _ _ Hsame). Qed.

Lemma same_ports_frequencies s s' c :
  same_ports s s' → port_frequencies_of s' c = port_frequencies_of s c.
Proof.
  intros Hsame. unfold port_frequencies_of, connection_port_frequencies.
  pose proof (Hsame (conn_upstream_name c)) as Hu.
  pose proof (Hsame (conn_downstream_name c)) as Hd.
  destruct (process_map s !! conn_upstream_name c) as [pu|] eqn:Hpu,
    (process_map s' !! conn_upstream_name c) as [pu'|] eqn:Hpu'; try done.
  2: { by rewrite (bind_process_by_name_None s'), (bind_process_by_name_None s). }
  rewrite (bind_process_by_name s' _ _ _ Hpu'), (bind_process_by_name s _ _ _ Hpu).
  destruct (Hu (conn_upstream_port c)) as [_ ->].
  destruct (output_port_info pu (conn_upstream_port c)) as [ui|e|];
    autorewrite with monad; try done.
  destruct (process_map s !! conn_downstream_name c) as [pd|] eqn:Hpd,
    (process_map s' !! conn_downstream_name c) as [pd'|] eqn:Hpd'; try done.
  2: { by rewrite (bind_process_by_name_None s'), (bind_process_by_name_None s). }
  rewrite (bind_process_by_name s' _ _ _ Hpd'), (bind_process_by_name s _ _ _ Hpd).
  destruct (Hd (conn_downstream_port c)) as [-> _].
  destruct (input_port_info pd (conn_downstream_port c)) as [di|e|];
    by autorewrite with monad.
Qed.

Lemma known_frequencies_registered s c upf downf :
  known_frequencies s c upf downf →
  is_Some (process_map s !! conn_upstream_name c)
  ∧ is_Some (process_map s !! conn_downstream_name c).
Proof.
  intros [Hread _]. unfold port_frequencies_of, connection_port_frequencies in Hread.
  destruct (process_map s !! conn_upstream_name c) as [pu|] eqn:Hpu.
  2: { by rewrite bind_process_by_name_None in Hread. }
  rewrite (bind_process_by_name s _ _ _ Hpu) in Hread.
  destruct (output_port_info pu (conn_upstream_port c)) as [ui|e|];
    autorewrite with monad in Hread; try done.
  destruct (process_map s !! conn_downstream_name c) as [pd|] eqn:Hpd; [eauto|].
  by rewrite bind_process_by_name_None in Hread.
Qed.

Lemma set_process_core_frequency_Ret n f s s' :
  core_frequency_keeps_ports →
  set_process_core_frequency n f s = (Ret tt, s') →
  calls s' = calls s ++ [call_set_core_frequency n f]
  ∧ connections s' = connections s ∧ same_ports s s'
  ∧ is_Some (process_map s !! n).
Proof.
  intros Hlaw Hrun. unfold set_process_core_frequency in Hrun.
  destruct (process_map s !! n) as [p|] eqn:Hp.
  2: { by rewrite bind_process_by_name_None in Hrun. }
  rewrite (bind_process_by_name s _ _ _ Hp) in Hrun.
  unfold log_call in Hrun. rewrite bind_modify in Hrun.
  unfold invoke in Hrun.
  rewrite (bind_process_by_name _ n p) in Hrun by done.
  unfold void_method in Hrun.
  destruct (set_core_frequency p f) as [p'|e|] eqn:Hset;
    autorewrite with monad in Hrun; try done.
  unfold store_process in Hrun. autorewrite with monad in Hrun.
  inversion Hrun; subst; clear Hrun. simpl.
  split_and!; [done|done| |eauto].
  intros k. simpl. destruct (decide (n = k)) as [<-|Hk].
  - rewrite lookup_insert_eq, Hp. exact (Hlaw _ _ _ Hset).
  - rewrite lookup_insert_ne by done. by destruct (process_map s !! k).
Qed.

Lemma foreach_set_process_core_frequency
    (l : list (name_t * port_frequency_t)) (g : port_frequency_t → port_frequency_t) s s' :
  core_frequency_keeps_ports →
  foreach l (λ nf, set_process_core_frequency nf.1 (g nf.2)) s = (Ret tt, s') →
  calls s' = calls s ++ ((λ nf, call_set_core_frequency nf.1 (g nf.2)) <$> l)
  ∧ connections s' = connections s ∧ same_ports s s'.
Proof.
  intros Hlaw. revert s. induction l as [|nf l IH]; intros s Hrun; simpl in Hrun.
  - inversion Hrun; subst. by rewrite app_nil_r.
  - apply bind_Ret_inv in Hrun as ([] & s1 & Hfirst & Hrest).
    apply set_process_core_frequency_Ret in Hfirst as (Hc1 & Hn1 & Hp1 & _); [|done].
    apply IH in Hrest as (Hc2 & Hn2 & Hp2).
    split_and!; [|congruence|by etransitivity].
    rewrite Hc2, Hc1. simpl. by rewrite <- app_assoc.
Qed.

Lemma times_called_NoDup (l : list (name_t * port_frequency_t)) n :
  NoDup l.*1 → (times_called n l <= 1)%nat ∧ (times_called n l = 1 ↔ n ∈ l.*1).
Proof.
  unfold times_called. induction l as [|[k v] l IH]; simpl.
  - intros _. split; [lia|]. split; [done|]. by intros ?%elem_of_nil.
  - intros [Hk Hl]%NoDup_cons. destruct (IH Hl) as [Hle Hiff].
    case_bool_decide as Hkn; simpl in *.
    + subst k. split.
      * destruct (decide (length (List.filter
            (λ nf : name_t * port_frequency_t, bool_decide (nf.1 = n)) l) = 1)) as [H1|H1];
          [by apply Hiff in H1|lia].
      * split; [intros _; by left|intros _].
        destruct (decide (length (List.filter
            (λ nf : name_t * port_frequency_t, bool_decide (nf.1 = n)) l) = 1)) as [H1|H1];
          [by apply Hiff in H1|lia].
    + split; [done|]. rewrite Hiff. split; [by right|].
      by intros [->|?]%elem_of_cons.
Qed.

Lemma size_one_unique (m : gmap string P) a b :
  size m = 1 → is_Some (m !! a) → is_Some (m !! b) → a = b.
Proof.
  intros Hsize Ha%elem_of_dom Hb%elem_of_dom.
  rewrite <- size_dom in Hsize. apply size_1_elem_of in Hsize as [x Hx].
  rewrite Hx in Ha, Hb. apply elem_of_singleton in Ha, Hb. congruence.
Qed.

Lemma core_frequency_calls_none evs :
  Forall (λ ev, ¬ is_core_frequency_call ev) evs → core_frequency_calls evs = [].
Proof.
  unfold core_frequency_calls. induction 1 as [|ev evs Hev _ IH]; simpl; [done|].
  destruct ev; simpl in *; done.
Qed.

Lemma core_frequency_calls_logged (called : list (name_t * port_frequency_t)) :
  core_frequency_calls ((λ nf, call_set_core_frequency nf.1 nf.2) <$> called) = called.
Proof.
  unfold core_frequency_calls. induction called as [|[n f] l IH]; simpl; [done|].
  f_equal. apply IH.
Qed.

(** What the frequency pass has done when it returns. *)
Lemma check_port_frequencies_Ret fuel s s' :
  core_frequency_keeps_ports →
  check_port_frequencies fuel s = (Ret tt, s') →
  connections s' = connections s ∧ same_ports s s'
  ∧ ∃ called,
      calls s' = calls s ++ ((λ nf, call_set_core_frequency nf.1 nf.2) <$> called)
      ∧ NoDup called.*1
      ∧ (size (process_map s) = 1 →
         ∃ n, called = [(n, base_freq)] ∧ is_Some (process_map s !! n))
      ∧ (size (process_map s) ≠ 1 →
         (∀ n, n ∈ called.*1 ↔
            ∃ c upf downf, c ∈ connections s ∧ known_frequencies s c upf downf
              ∧ (n = conn_upstream_name c ∨ n = conn_downstream_name c))
         ∧ (∀ i c upf downf, connections s !! i = Some c →
              known_frequencies s c upf downf →
              conn_upstream_name c ≠ conn_downstream_name c ∨ frequency_seed s ≠ Some i →
              ∃ fu fd, (conn_upstream_name c, fu) ∈ called
                       ∧ (conn_downstream_name c, fd) ∈ called
                       ∧ (fu * upf == fd * downf)%Q)).
Proof.
  intros Hlaw Hrun. unfold check_port_frequencies in Hrun.
  rewrite bind_gets in Hrun. simpl in Hrun.
  case_bool_decide as Hsize.
  - destruct (sorted_names (elements (dom (process_map s)))) as [|n rest] eqn:Hnames.
    { exfalso. unfold sorted_names in Hnames.
      pose proof (merge_sort_Permutation name_le (elements (dom (process_map s)))) as Hperm.
      rewrite Hnames in Hperm. apply Permutation_nil_l in Hperm. symmetry in Hperm.
      apply elements_empty_inv in Hperm.
      rewrite <- size_dom in Hsize. rewrite Hperm, size_empty in Hsize. lia. }
    apply set_process_core_frequency_Ret in Hrun as (Hcalls & Hconn & Hports & Hn); [|done].
    split_and!; [done..|]. exists [(n, base_freq)].
    split_and!; [done|repeat constructor; by intros ?%elem_of_nil| |done].
    intros _. eauto.
  - apply bind_Ret_inv in Hrun as (freq & s1 & Hsolve & Hrun).
    pose proof (solve_frequencies_consistent _ _ _ _ _ _ Hsolve) as Hvalidated.
    apply solve_frequencies_spec in Hsolve as (-> & _ & Hqueue & Hdom).
    set (entries := freq_entries freq) in *.
    set (L := denominators_lcm entries) in *.
    apply (foreach_set_process_core_frequency entries (freq_scale L)) in Hrun
      as (Hcalls & Hconn & Hports); [|done].
    assert (entries ≡ₚ map_to_list freq) as Hperm by apply merge_sort_Permutation.
    assert (∀ n f, (n, f) ∈ entries ↔ freq !! n = Some f) as Hentries.
    { intros n f. rewrite Hperm. apply elem_of_map_to_list. }
    split_and!; [done..|].
    exists ((λ nf : name_t * port_frequency_t, (nf.1, freq_scale L nf.2)) <$> entries).
    assert (((λ nf : name_t * port_frequency_t, (nf.1, freq_scale L nf.2)) <$> entries).*1
            = entries.*1) as Hkeys.
    { rewrite <- list_fmap_compose. by apply list_fmap_ext. }
    assert (∀ n, n ∈ entries.*1 ↔ is_Some (freq !! n)) as Hin.
    { intros n. rewrite list_elem_of_fmap. split.
      - intros ([k f] & -> & Hkf). apply Hentries in Hkf. eauto.
      - intros [f Hf]. exists (n, f). split; [done|]. by apply Hentries. }
    split_and!.
    + rewrite Hcalls. f_equal. rewrite <- list_fmap_compose. by apply list_fmap_ext.
    + rewrite Hkeys, Hperm. apply NoDup_fst_map_to_list.
    + done.
    + intros _. split.
      * intros n. rewrite Hkeys, Hin. split.
        -- intros Hn. destruct (Hdom n Hn) as [[? Hempty]|?]; [|done].
           by rewrite lookup_empty in Hempty.
        -- intros (c & upf & downf & Hc & Hk & [->| ->]);
             by destruct (Hqueue c upf downf Hc Hk) as (? & ? & _).
      * intros i c upf downf Hc Hk Hne.
        destruct (Hvalidated i c upf downf Hc Hk) as (fu & fd & Hu & Hd & Heq).
        { destruct Hne as [?|?]; auto. }
        exists (freq_scale L fu), (freq_scale L fd). split_and!.
        -- apply list_elem_of_fmap. exists (conn_upstream_name c, fu).
           split; [done|]. by apply Hentries.
        -- apply list_elem_of_fmap. exists (conn_downstream_name c, fd).
           split; [done|]. by apply Hentries.
        -- rewrite !freq_scale_correct, <- !Qmult_assoc, Heq. reflexivity.
Qed.

Lemma setup_pipeline_Ret_inv fuel s s' :
  setup_pipeline fuel s = (Ret tt, s') →
  ∃ s9 s10,
    structural_passes fuel (entering_setup s) = (Ret tt, s9)
    ∧ check_port_frequencies fuel s9 = (Ret tt, s10)
    ∧ s' = with_setup_successful true (with_setup_in_progress false s10).
Proof.
  intros Hrun.
  destruct (setup s) eqn:Hs.
  { by rewrite setup_pipeline_duplicate in Hrun. }
  destruct (decide (size (process_map s) = 0)) as [Hsize|Hsize].
  { by rewrite setup_pipeline_no_processes in Hrun. }
  rewrite (setup_pipeline_entered fuel s Hs Hsize) in Hrun.
  destruct (setup_passes fuel (entering_setup s)) as [[[]|e'|] s10] eqn:Hpass;
    inversion Hrun; subst; clear Hrun.
  rewrite setup_passes_split in Hpass.
  apply bind_Ret_inv in Hpass as ([] & s9 & H9 & H10). eauto.
Qed.

(** C2, as the code has it: in a [setup_pipeline] that returned, no process
    had [set_core_frequency] called more than once; with exactly one
    registered process that process had it called once, with [base_freq];
    with any other number of processes it was called once on exactly the
    processes at an end of some resolved connection both of whose ports
    declare a frequency; and for every resolved connection both of whose
    ports declare a frequency, the frequencies passed to its two processes
    satisfy [fu * up_port_freq == fd * down_port_freq], unless the
    connection goes from a process to itself and either that process is
    the only one registered (nothing is validated then) or the connection
    is the one that seeds the frequency map, the first entry of
    [connections] both of whose ports declare a frequency. *)
Theorem core_frequencies_assigned fuel s s' :
  core_frequency_keeps_ports →
  setup_pipeline fuel s = (Ret tt, s') →
  let called := core_frequency_calls_since s s' in
  (∀ n, (times_called n called <= 1)%nat)
  ∧ (size (process_map s') = 1 →
     ∀ n, is_Some (process_map s' !! n) →
       times_called n called = 1 ∧ (n, base_freq) ∈ called)
  ∧ (size (process_map s') ≠ 1 →
     ∀ n, times_called n called = 1 ↔
       ∃ c upf downf, c ∈ connections s' ∧ known_frequencies s' c upf downf
         ∧ (n = conn_upstream_name c ∨ n = conn_downstream_name c))
  ∧ (∀ i c upf downf, connections s' !! i = Some c →
       known_frequencies s' c upf downf →
       conn_upstream_name c ≠ conn_downstream_name c
       ∨ (size (process_map s') ≠ 1 ∧ frequency_seed s' ≠ Some i) →
       ∃ fu fd, (conn_upstream_name c, fu) ∈ called
                ∧ (conn_downstream_name c, fd) ∈ called
                ∧ (fu * upf == fd * downf)%Q).
Proof.
  intros Hlaw Hrun called.
  apply setup_pipeline_Ret_inv in Hrun as (s9 & s10 & H9 & H10 & ->).
  apply (frame_structural_passes no_core_calls _) in H9 as (evs & Hevs & Hnone);
    [|by intros ? []..].
  apply check_port_frequencies_Ret in H10
    as (Hconn & Hports & cs & Hcalls & Hnodup & Hone & Hmany); [|done].
  assert (called = cs) as Hcalled.
  { unfold called, core_frequency_calls_since. simpl.
    rewrite Hcalls, Hevs. simpl. rewrite <- app_assoc, drop_app_length.
    unfold core_frequency_calls. rewrite omap_app.
    fold (core_frequency_calls evs).
    fold (core_frequency_calls ((λ nf, call_set_core_frequency nf.1 nf.2) <$> cs)).
    by rewrite core_frequency_calls_none, core_frequency_calls_logged. }
  clearbody called. subst called. simpl.
  assert (∀ c upf downf, known_frequencies s10 c upf downf ↔
                         known_frequencies s9 c upf downf) as Hknown.
  { intros c upf downf. unfold known_frequencies.
    by rewrite (same_ports_frequencies _ _ c Hports). }
  assert (∀ c upf downf,
            known_frequencies
              (with_setup_successful true (with_setup_in_progress false s10)) c upf downf
            ↔ known_frequencies s9 c upf downf) as Hknown'.
  { intros c upf downf. rewrite <- Hknown. unfold known_frequencies.
    assert (same_ports s10 (with_setup_successful true (with_setup_in_progress false s10)))
      as Hsame.
    { intros n. simpl. by destruct (process_map s10 !! n). }
    by rewrite (same_ports_frequencies _ _ c Hsame). }
  pose proof (same_ports_size _ _ Hports) as Hsize.
  rewrite Hconn.
  split_and!.
  - intros n. by apply times_called_NoDup.
  - rewrite Hsize. intros H1 n Hn.
    destruct (Hone H1) as (n0 & -> & Hn0).
    assert (is_Some (process_map s9 !! n)) as Hn9.
    { apply elem_of_dom. rewrite <- (same_ports_dom _ _ Hports). by apply elem_of_dom. }
    rewrite (size_one_unique _ n n0 H1 Hn9 Hn0).
    split; [|by left]. unfold times_called. simpl. by rewrite bool_decide_eq_true_2.
  - rewrite Hsize. intros Hn1 n. destruct (Hmany Hn1) as [Hdom _].
    destruct (times_called_NoDup cs n Hnodup) as [_ ->]. rewrite Hdom.
    split; intros (c & upf & downf & Hc & Hk & Hends); exists c, upf, downf;
      (split; [done|]); (split; [by apply Hknown'|done]).
  - intros i c upf downf Hc Hk%Hknown' Hne.
    assert (frequency_seed
              (with_setup_successful true (with_setup_in_progress false s10))
            = frequency_seed s9) as Hseed.
    { unfold frequency_seed. simpl. rewrite Hconn. apply find_index_ext.
      intros c0. unfold frequencies_known.
      assert (same_ports s9 (with_setup_successful true (with_setup_in_progress false s10)))
        as Hsame.
      { intros n. simpl. apply Hports. }
      by rewrite (same_ports_frequencies _ _ c0 Hsame). }
    rewrite Hseed, Hsize in Hne.
    destruct (decide (size (process_map s9) = 1)) as [H1|Hn1].
    + destruct (known_frequencies_registered _ _ _ _ Hk) as [Hu Hd].
      destruct Hne as [Hne|[Hne _]]; [|done].
      destruct Hne. by eapply size_one_unique.
    + destruct (Hmany Hn1) as [_ Heq]. apply (Heq i); [done..|].
      destruct Hne as [?|[_ ?]]; auto.
Qed.

(** The cluster branch by itself only erases the cluster: the connection
    lists are as they were once the children are gone. *)
Lemma remove_process_childless_cluster fuel s n cluster :
  setup s = false → cluster_map s !! n = Some cluster →
  cluster_processes cluster = [] →
  remove_process (S fuel) n s = (Ret tt, with_cluster_map (delete n) s).
Proof.
  intros Hs Hc Hkids. simpl. rewrite bind_gets. simpl.
  rewrite Hs, Hc, Hkids. simpl. by autorewrite with monad.
Qed.

(** * Further properties *)

Local Abbreviation planned_kept := (@planned_kept C E P).

(** ** The registry once setup has been attempted *)

Lemma setup_pipeline_past_setup fuel s0 r s :
  setup s0 = false → size (process_map s0) ≠ 0 →
  setup_pipeline fuel s0 = (r, s) → r ≠ Timeout → past_setup s.
Proof.
  intros Hs Hsize Hrun Hr. rewrite (setup_pipeline_entered fuel s0 Hs Hsize) in Hrun.
  destruct (setup_passes fuel (entering_setup s0)) as [[[]|e|] s1] eqn:Hpass;
    inversion Hrun; subst; clear Hrun; [| |done];
    apply setup_passes_flags in Hpass as (?&?&?); by split.
Qed.

Lemma add_process_node_setup p s :
  setup s = true →
  add_process_node p s = (Throw (add_after_setup_exception (process_name p)), s).
Proof.
  intros Hs. destruct p as [p|n ps ic im om].
  - simpl. rewrite bind_gets. simpl. by rewrite Hs.
  - rewrite add_process_node_cluster. rewrite bind_gets. simpl. by rewrite Hs.
Qed.

(** X1: once a [setup_pipeline] has entered its passes and come back, by
    returning or by throwing, the pipeline refuses every change:
    [add_process], [remove_process], [connect], [disconnect] and a second
    [setup_pipeline] each throw their own exception and leave the state as
    it is. *)
Theorem registry_frozen_after_setup fuel s0 r s :
  setup s0 = false → size (process_map s0) ≠ 0 →
  setup_pipeline fuel s0 = (r, s) → r ≠ Timeout →
  (∀ p, add_process (Some p) s
        = (Throw (add_after_setup_exception (process_name p)), s))
  ∧ (∀ fuel' n, remove_process (S fuel') n s
                = (Throw (remove_after_setup_exception n), s))
  ∧ (∀ un up dn dp, connect un up dn dp s
       = (Throw (connection_after_setup_exception ((un, up), (dn, dp))), s))
  ∧ (∀ un up dn dp, disconnect un up dn dp s
       = (Throw (disconnection_after_setup_exception ((un, up), (dn, dp))), s))
  ∧ (∀ fuel', setup_pipeline fuel' s = (Throw pipeline_duplicate_setup_exception, s)).
Proof.
  intros Hs Hsize Hrun Hr.
  destruct (setup_pipeline_past_setup _ _ _ _ Hs Hsize Hrun Hr) as [Hsetup Hprog].
  split_and!.
  - intros p. by apply add_process_node_setup.
  - intros fuel' n. simpl. rewrite bind_gets. simpl. by rewrite Hsetup.
  - intros un up dn dp. unfold connect. rewrite bind_gets. simpl.
    by rewrite Hsetup, Hprog.
  - intros un up dn dp. unfold disconnect. rewrite bind_gets. simpl.
    by rewrite Hsetup.
  - intros fuel'. by apply setup_pipeline_duplicate.
Qed.

(** ** Adding and removing a plain process *)

Lemma check_duplicate_name_fresh n s :
  process_map s !! n = None → cluster_map s !! n = None →
  check_duplicate_name n s = (Ret tt, s).
Proof.
  intros Hp Hc. unfold check_duplicate_name. rewrite bind_gets. simpl.
  rewrite Hp, Hc. by rewrite !bool_decide_eq_false_2 by (by intros [? ?]).
Qed.

Lemma check_duplicate_name_taken n s :
  is_Some (process_map s !! n) ∨ is_Some (cluster_map s !! n) →
  check_duplicate_name n s = (Throw (duplicate_process_name_exception n), s).
Proof.
  intros Hdup. unfold check_duplicate_name. rewrite bind_gets. simpl.
  destruct Hdup as [Hp|Hc].
  - by rewrite (bool_decide_eq_true_2 _ Hp).
  - rewrite (bool_decide_eq_true_2 _ Hc). by rewrite orb_true_r.
Qed.

(** X2: before setup, [add_process] of a plain process throws
    [duplicate_process_name_exception] and changes nothing when its name is
    already that of a process or of a cluster; otherwise it returns, after
    which [process_by_name] returns the process, [parent_cluster] returns
    the top of the parent stack (the empty name when the stack is empty),
    and nothing else has changed: the state is the one before with the
    process and its parent entered under the name, so the other names are
    registered as before and the six connection lists and the edge map are
    as before. *)
Theorem add_plain_process_outcome s p :
  setup s = false →
  let n := name p in
  let parent := match parent_stack s with [] => "" | top :: _ => top end in
  (is_Some (process_map s !! n) ∨ is_Some (cluster_map s !! n) →
     add_process (Some (plain_process p)) s
     = (Throw (duplicate_process_name_exception n), s))
  ∧ (process_map s !! n = None → cluster_map s !! n = None →
     ∃ s', add_process (Some (plain_process p)) s = (Ret tt, s')
       ∧ s' = with_process_parent_map (insert n parent) (with_process_map (insert n p) s)
       ∧ process_by_name n s' = (Ret p, s')
       ∧ parent_cluster n s' = (Ret parent, s')
       ∧ (∀ k, k ≠ n → process_map s' !! k = process_map s !! k
                        ∧ process_parent_map s' !! k = process_parent_map s !! k)
       ∧ cluster_map s' = cluster_map s
       ∧ planned_connections s' = planned_connections s
       ∧ connections s' = connections s
       ∧ data_dep_connections s' = data_dep_connections s
       ∧ untyped_connections s' = untyped_connections s
       ∧ cluster_connections s' = cluster_connections s
       ∧ type_pinnings s' = type_pinnings s
       ∧ edge_map s' = edge_map s).
Proof.
  intros Hs n parent. split.
  - intros Hdup. simpl. rewrite bind_gets. simpl. rewrite Hs.
    by rewrite (bind_Throw_eq _ _ _ _ _ (check_duplicate_name_taken _ _ Hdup)).
  - intros Hp Hc. eexists. split.
    { simpl. rewrite bind_gets. simpl. rewrite Hs.
      rewrite (bind_Ret_eq _ _ _ _ _ (check_duplicate_name_fresh _ _ Hp Hc)).
      by autorewrite with monad. }
    split_and!; try done.
    + apply process_by_name_Some. simpl. by rewrite lookup_insert_eq.
    + unfold parent_cluster. rewrite bind_gets. simpl. by rewrite lookup_insert_eq.
    + intros k Hk. simpl. by rewrite !lookup_insert_ne.
Qed.

(** X3: adding a plain process under a fresh name and removing it again
    restores the process map, the cluster map, the flags and the pinnings;
    each of the five purged lists keeps exactly the connections that do not
    mention the name; but the entry of the name in the parent map stays, so
    [parent_cluster] still answers for the removed name. *)
Theorem add_remove_round_trip fuel s p :
  setup s = false →
  process_map s !! name p = None → cluster_map s !! name p = None →
  let n := name p in
  let parent := match parent_stack s with [] => "" | top :: _ => top end in
  ∃ s1 s2,
    add_process (Some (plain_process p)) s = (Ret tt, s1)
    ∧ remove_process (S fuel) n s1 = (Ret tt, s2)
    ∧ process_map s2 = process_map s
    ∧ cluster_map s2 = cluster_map s
    ∧ flags_kept s s2
    ∧ type_pinnings s2 = type_pinnings s
    ∧ planned_connections s2 = forget (is_connection_with n) (planned_connections s)
    ∧ connections s2 = forget (is_connection_with n) (connections s)
    ∧ data_dep_connections s2 = forget (is_connection_with n) (data_dep_connections s)
    ∧ untyped_connections s2 = forget (is_connection_with n) (untyped_connections s)
    ∧ cluster_connections s2
      = forget (is_cluster_connection_with n) (cluster_connections s)
    ∧ parent_cluster n s2 = (Ret parent, s2)
    ∧ process_by_name n s2 = (Throw (no_such_process_exception n), s2).
Proof.
  intros Hs Hp Hc n parent. subst n parent. eexists _, _. split.
  { simpl. rewrite bind_gets. simpl. rewrite Hs.
    rewrite (bind_Ret_eq _ _ _ _ _ (check_duplicate_name_fresh _ _ Hp Hc)).
    by autorewrite with monad. }
  split.
  { simpl. rewrite bind_gets. simpl. rewrite Hs, Hc.
    rewrite lookup_insert_eq. unfold remove_from_pipeline.
    by autorewrite with monad. }
  simpl. split_and!; try done.
  - by apply delete_insert_id.
  - unfold parent_cluster. rewrite bind_gets. simpl. by rewrite lookup_insert_eq.
  - apply process_by_name_None. simpl. by rewrite delete_insert_id.
Qed.

(** ** Planned connections *)

(** What [connect] does after the lifecycle check and the recording of the
    plan touches only the five lists behind the connection. *)
Section ConnectFrame.
Context (R : relation priv) `{!PreOrder R}.
Hypothesis tolerates_cluster : ∀ f s, R s (with_cluster_connections f s).
Hypothesis tolerates_data_dep : ∀ f s, R s (with_data_dep_connections f s).
Hypothesis tolerates_untyped : ∀ f s, R s (with_untyped_connections f s).
Hypothesis tolerates_pinnings : ∀ f s, R s (with_type_pinnings f s).
Hypothesis tolerates_connections : ∀ f s, R s (with_connections f s).

Lemma connect_tail_frame un up dn dp s0 :
  preserves R
    (let connection : connection_t := ((un, up), (dn, dp)) in
     let upstream_is_cluster := bool_decide (is_Some (cluster_map s0 !! un)) in
     let downstream_is_cluster := bool_decide (is_Some (cluster_map s0 !! dn)) in
     if upstream_is_cluster || downstream_is_cluster then
       if upstream_is_cluster then
         modify (with_cluster_connections (push_back (connection, cluster_upstream)))
       else if downstream_is_cluster then
         modify (with_cluster_connections (push_back (connection, cluster_downstream)))
       else ret tt
     else
       let* up_proc := process_by_name un in
       let* down_proc := process_by_name dn in
       let* up_info := lift (output_port_info up_proc up) in
       let* down_info := lift (input_port_info down_proc dp) in
       if negb (check_connection_flags (flags up_info) (flags down_info)) then
         throw (connection_flag_mismatch_exception connection)
       else
         let up_type := type up_info in
         let down_type := type down_info in
         let* status := check_connection_types connection up_type down_type in
         match status with
         | type_deferred => ret tt
         | type_mismatch =>
             throw (connection_type_mismatch_exception connection up_type down_type)
         | type_compatible =>
             modify (with_connections (push_back connection))
         end).
Proof. unfold check_connection_types, process_by_name. frame; auto. Qed.

(** During a setup, or a replay, nothing else happens in [connect]. *)
Lemma connect_in_progress_frame un up dn dp s r s' :
  setup_in_progress s = true → connect un up dn dp s = (r, s') → R s s'.
Proof.
  intros Hprog Hrun. unfold connect in Hrun.
  rewrite bind_gets in Hrun. simpl in Hrun. rewrite Hprog, andb_false_r in Hrun.
  simpl in Hrun. rewrite bind_ret in Hrun.
  by apply (connect_tail_frame un up dn dp s) in Hrun.
Qed.

End ConnectFrame.

Global Instance planned_kept_preorder : PreOrder planned_kept.
Proof.
  split; [by intros s|]. intros s1 s2 s3 H12 H23. unfold planned_kept in *. congruence.
Qed.

(** X4: outside of setup, [connect] records the connection in
    [planned_connections] before it checks anything: whatever the call
    ends in (also [connection_flag_mismatch_exception],
    [connection_type_mismatch_exception] or a missing process or port), the
    connection has been appended, and [connections_from_addr] lists its
    downstream address last. *)
Theorem connect_plans_before_checking s un up dn dp r s' :
  setup s = false → setup_in_progress s = false →
  connect un up dn dp s = (r, s') →
  planned_connections s' = planned_connections s ++ [((un, up), (dn, dp))]
  ∧ ∃ l, connections_from_addr un up s = (Ret l, s)
         ∧ connections_from_addr un up s' = (Ret (l ++ [(dn, dp)]), s').
Proof.
  intros Hs Hprog Hrun.
  assert (planned_connections s' = planned_connections s ++ [((un, up), (dn, dp))])
    as Hplanned.
  { unfold connect in Hrun. rewrite bind_gets in Hrun. simpl in Hrun.
    rewrite Hs, Hprog in Hrun. simpl in Hrun. rewrite bind_modify in Hrun.
    apply (connect_tail_frame planned_kept) in Hrun; [by rewrite Hrun|done..]. }
  split; [done|]. eexists. split; [done|].
  unfold connections_from_addr, gets. rewrite Hplanned.
  rewrite List.filter_app, fmap_app. simpl.
  unfold conn_upstream_name, conn_upstream_port. simpl.
  by rewrite !bool_decide_eq_true_2.
Qed.

Lemma forget_absent {A} (f : A → bool) (l : list A) :
  (∀ x, x ∈ l → f x = false) → forget f l = l.
Proof.
  unfold forget. induction l as [|y l IH]; intros Hl; [done|]. simpl.
  rewrite (Hl y) by left. simpl. f_equal. apply IH. intros x Hx. apply Hl. by right.
Qed.

Lemma forget_snoc {A} (f : A → bool) (l : list A) x :
  (∀ y, y ∈ l → f y = false) → f x = true → forget f (l ++ [x]) = l.
Proof.
  intros Hl Hx. unfold forget. rewrite List.filter_app. simpl. rewrite Hx. simpl.
  rewrite app_nil_r. by apply forget_absent.
Qed.

Lemma forget_connection_absent (c : connection_t) (l : connections_t) :
  c ∉ l → forget (λ x, bool_decide (c = x)) l = l.
Proof.
  intros Hc. apply forget_absent. intros x Hx. apply bool_decide_eq_false_2.
  by intros <-.
Qed.

Lemma forget_connection_snoc (c : connection_t) (l : connections_t) :
  c ∉ l → forget (λ x, bool_decide (c = x)) (l ++ [c]) = l.
Proof.
  intros Hc. apply forget_snoc; [|by apply bool_decide_eq_true_2].
  intros x Hx. apply bool_decide_eq_false_2. by intros <-.
Qed.

Lemma forget_cluster_connection_absent (c : connection_t) (l : cluster_connections_t) :
  (∀ t, (c, t) ∉ l) → forget (is_cluster_connection_for c) l = l.
Proof.
  intros Hc. apply forget_absent. intros [x t] Hx. apply bool_decide_eq_false_2.
  simpl. intros <-. by apply (Hc t).
Qed.

Lemma forget_cluster_connection_snoc (c : connection_t) (l : cluster_connections_t) t :
  (∀ t, (c, t) ∉ l) → forget (is_cluster_connection_for c) (l ++ [(c, t)]) = l.
Proof.
  intros Hc. apply forget_snoc; [|by apply bool_decide_eq_true_2].
  intros [x t'] Hx. apply bool_decide_eq_false_2. simpl. intros <-. by apply (Hc t').
Qed.

Lemma priv_eq (s s' : priv) :
  config s = config s' → planned_connections s = planned_connections s' →
  connections s = connections s' → process_map s = process_map s' →
  cluster_map s = cluster_map s' → edge_map s = edge_map s' →
  process_parent_map s = process_parent_map s' → parent_stack s = parent_stack s' →
  data_dep_connections s = data_dep_connections s' →
  cluster_connections s = cluster_connections s' →
  untyped_connections s = untyped_connections s' →
  type_pinnings s = type_pinnings s' → setup s = setup s' →
  setup_in_progress s = setup_in_progress s' →
  setup_successful s = setup_successful s' → running s = running s' →
  calls s = calls s' → s = s'.
Proof. destruct s, s'. simpl. intros. by subst. Qed.

Lemma disconnect_restores un up dn dp (s s2 : priv) :
  let c : connection_t := ((un, up), (dn, dp)) in
  config s2 = config s → process_map s2 = process_map s →
  cluster_map s2 = cluster_map s → edge_map s2 = edge_map s →
  process_parent_map s2 = process_parent_map s →
  parent_stack s2 = parent_stack s → setup s = false → setup s2 = false →
  setup_in_progress s2 = setup_in_progress s →
  setup_successful s2 = setup_successful s → running s2 = running s →
  calls s2 = calls s →
  forget (λ x, bool_decide (c = x)) (planned_connections s2) = planned_connections s →
  forget (λ x, bool_decide (c = x)) (connections s2) = connections s →
  forget (λ x, bool_decide (c = x)) (data_dep_connections s2) = data_dep_connections s →
  forget (λ x, bool_decide (c = x)) (untyped_connections s2) = untyped_connections s →
  forget (is_cluster_connection_for c) (cluster_connections s2) = cluster_connections s →
  disconnect un up dn dp s2 = (Ret tt, with_type_pinnings (λ _, type_pinnings s2) s).
Proof.
  intros c ? ? ? ? ? ? Hs Hs2 ? ? ? ? ? ? ? ? ?. subst c.
  unfold disconnect. rewrite bind_gets. simpl. rewrite Hs2.
  unfold bind, modify. simpl. f_equal.
  apply priv_eq; simpl; congruence.
Qed.

(** X8: outside of setup, when the connection is on none of the connection
    lists, a [connect] that returns followed by [disconnect] of the same
    connection restores the state, except for [type_pinnings]: [disconnect]
    never touches them, so a pinning that [connect] recorded for a
    connection with one flow-dependent end survives the disconnection. *)
Theorem connect_disconnect_round_trip s un up dn dp s1 :
  let c : connection_t := ((un, up), (dn, dp)) in
  setup s = false → setup_in_progress s = false →
  c ∉ planned_connections s → c ∉ connections s →
  c ∉ data_dep_connections s → c ∉ untyped_connections s →
  (∀ t, (c, t) ∉ cluster_connections s) →
  connect un up dn dp s = (Ret tt, s1) →
  disconnect un up dn dp s1 = (Ret tt, with_type_pinnings (λ _, type_pinnings s1) s)
  ∧ (type_pinnings s1 = type_pinnings s
     ∨ ∃ d, type_pinnings s1 = type_pinnings s ++ [(c, d)]).
Proof.
  intros c Hs Hprog Hp Hc Hd Hu Hcc Hrun. subst c.
  pose proof (forget_connection_absent _ _ Hp).
  pose proof (forget_connection_absent _ _ Hc).
  pose proof (forget_connection_absent _ _ Hd).
  pose proof (forget_connection_absent _ _ Hu).
  pose proof (forget_cluster_connection_absent _ _ Hcc).
  pose proof (forget_connection_snoc _ _ Hp).
  pose proof (forget_connection_snoc _ _ Hc).
  pose proof (forget_connection_snoc _ _ Hd).
  pose proof (forget_connection_snoc _ _ Hu).
  pose proof (λ t, forget_cluster_connection_snoc _ _ t Hcc).
  unfold connect in Hrun. rewrite bind_gets in Hrun. simpl in Hrun.
  rewrite Hs, Hprog in Hrun. simpl in Hrun. rewrite bind_modify in Hrun.
  unfold check_connection_types in Hrun.
  assert (∀ s2 : priv, (Ret tt, s2) = (Ret tt, s1) → s2 = s1) as Hleaf
    by (intros s2 Heq; exact (f_equal snd Heq)).
  destruct (bool_decide (is_Some (cluster_map s !! un))) eqn:Hcu; simpl in Hrun.
  { apply Hleaf in Hrun as <-. split; [|by left].
    apply disconnect_restores; simpl; unfold push_back; auto. }
  destruct (bool_decide (is_Some (cluster_map s !! dn))) eqn:Hcd; simpl in Hrun.
  { apply Hleaf in Hrun as <-. split; [|by left].
    apply disconnect_restores; simpl; unfold push_back; auto. }
  destruct (process_map s !! un) as [up_proc|] eqn:Hun;
    [rewrite (bind_process_by_name _ un up_proc) in Hrun by exact Hun
    |by rewrite bind_process_by_name_None in Hrun by exact Hun].
  destruct (process_map s !! dn) as [down_proc|] eqn:Hdn;
    [rewrite (bind_process_by_name _ dn down_proc) in Hrun by exact Hdn
    |by rewrite bind_process_by_name_None in Hrun by exact Hdn].
  destruct (output_port_info up_proc up) as [up_info| |];
    [rewrite bind_lift_Ret in Hrun
    |by rewrite bind_lift_Throw in Hrun|by rewrite bind_lift_Timeout in Hrun].
  destruct (input_port_info down_proc dp) as [down_info| |];
    [rewrite bind_lift_Ret in Hrun
    |by rewrite bind_lift_Throw in Hrun|by rewrite bind_lift_Timeout in Hrun].
  destruct (check_connection_flags (flags up_info) (flags down_info));
    simpl in Hrun; [|by rewrite bind_throw in Hrun || done].
  destruct (bool_decide (type up_info = type_data_dependent)).
  { unfold bind, modify, ret in Hrun. apply Hleaf in Hrun as <-.
    split; [|by left]. apply disconnect_restores; simpl; unfold push_back; auto. }
  destruct (starts_with (type up_info) type_flow_dependent),
    (starts_with (type down_info) type_flow_dependent); simpl in Hrun.
  - unfold bind, modify, ret in Hrun. apply Hleaf in Hrun as <-.
    split; [|by left]. apply disconnect_restores; simpl; unfold push_back; auto.
  - unfold bind, modify, ret in Hrun. apply Hleaf in Hrun as <-.
    split; [|right; by eexists]. apply disconnect_restores; simpl; unfold push_back; auto.
  - unfold bind, modify, ret in Hrun. apply Hleaf in Hrun as <-.
    split; [|right; by eexists]. apply disconnect_restores; simpl; unfold push_back; auto.
  - destruct (negb (bool_decide (type up_info = type_any))
              && negb (bool_decide (type down_info = type_any))
              && negb (bool_decide (type up_info = type down_info)));
      rewrite bind_ret in Hrun; [done|].
    apply Hleaf in Hrun as <-.
    split; [|by left]. apply disconnect_restores; simpl; unfold push_back; auto.
Qed.

(** ** Frames of the setup passes by what they touch *)

(** The passes that come after the types are settled only read the
    connection lists; they call methods on registered processes and log
    the calls. *)
Section LateFrames.
Context (R : relation priv) (allowed : call → Prop) `{!PreOrder R}.
Hypothesis tolerates_store :
  ∀ n p s, is_Some (process_map s !! n) → R s (with_process_map (insert n p) s).
Hypothesis tolerates_call : ∀ ev s, allowed ev → R s (with_calls (push_back ev) s).

Lemma late_process_by_name n : preserves R (process_by_name n).
Proof. unfold process_by_name. frame. Qed.

Lemma late_invoke {A} n (method : P → outcome (A * P)) : preserves R (invoke n method).
Proof.
  intros s r s' Hrun. unfold invoke in Hrun.
  destruct (process_map s !! n) as [p|] eqn:Hp.
  - rewrite (bind_process_by_name _ _ _ _ Hp) in Hrun.
    destruct (method p) as [[a p']|e|]; autorewrite with monad in Hrun;
      unfold store_process in Hrun; autorewrite with monad in Hrun;
      inversion Hrun; subst; try reflexivity.
    apply tolerates_store. by rewrite Hp.
  - unfold bind in Hrun. rewrite (process_by_name_None _ _ Hp) in Hrun.
    inversion Hrun; subst. reflexivity.
Qed.

Lemma late_log_call (ev : call) : allowed ev → preserves R (log_call ev).
Proof. intros Hev. unfold log_call. frame. Qed.

Lemma late_ensure_setup : preserves R ensure_setup.
Proof. unfold ensure_setup. frame. Qed.

Lemma late_check_required_inputs n p : preserves R (check_required_inputs n p).
Proof.
  pose proof late_ensure_setup.
  unfold check_required_inputs, input_edge_for_port. frame.
Qed.

Lemma late_check_required_outputs n p : preserves R (check_required_outputs n p).
Proof.
  pose proof late_ensure_setup.
  unfold check_required_outputs, output_edges_for_port. frame.
Qed.

Lemma late_visit_processes fuel to_visit procs :
  preserves R (visit_processes fuel to_visit procs).
Proof.
  pose proof late_ensure_setup. pose proof late_process_by_name.
  pose proof late_check_required_inputs. pose proof late_check_required_outputs.
  revert to_visit procs.
  induction fuel as [|fuel IH]; intros to_visit procs; simpl;
    unfold upstream_for_process, downstream_for_process; frame.
Qed.

Lemma late_check_for_required_ports fuel : preserves R (check_for_required_ports fuel).
Proof.
  pose proof late_visit_processes.
  unfold check_for_required_ports, process_names. frame.
Qed.

Lemma late_check_for_dag : preserves R check_for_dag.
Proof.
  pose proof late_ensure_setup. pose proof late_process_by_name.
  unfold check_for_dag, process_names, sender_for_port. frame.
Qed.

Lemma late_initialize_processes :
  (∀ n, allowed (call_init n)) → preserves R initialize_processes.
Proof.
  intros Hallowed. pose proof (λ n, late_log_call _ (Hallowed n)).
  pose proof late_process_by_name. pose proof (@late_invoke unit).
  unfold initialize_processes, process_names. frame.
Qed.

Lemma late_solve_frequencies fuel freq_map unchecked :
  preserves R (solve_frequencies fuel freq_map unchecked).
Proof.
  pose proof late_process_by_name.
  revert freq_map unchecked.
  induction fuel as [|fuel IH]; intros freq_map unchecked; simpl;
    unfold connection_port_frequencies; frame.
Qed.

Lemma late_set_process_core_frequency n f :
  allowed (call_set_core_frequency n f) → preserves R (set_process_core_frequency n f).
Proof.
  intros Hallowed. pose proof (late_log_call _ Hallowed).
  pose proof late_process_by_name. pose proof (@late_invoke unit).
  unfold set_process_core_frequency. frame.
Qed.

Lemma late_check_port_frequencies fuel :
  (∀ n f, allowed (call_set_core_frequency n f)) →
  preserves R (check_port_frequencies fuel).
Proof.
  intros Hallowed. pose proof (λ n f, late_set_process_core_frequency n f (Hallowed n f)).
  pose proof late_solve_frequencies.
  unfold check_port_frequencies. frame.
Qed.

Lemma late_make_connection i c :
  (∀ i e s, R s (with_edge_map (insert i (Some e)) s)) →
  preserves R (make_connection i c).
Proof.
  intros Hedge. pose proof late_process_by_name. pose proof (@late_invoke unit).
  unfold make_connection. frame.
Qed.

Lemma late_make_connections :
  (∀ i e s, R s (with_edge_map (insert i (Some e)) s)) → preserves R make_connections.
Proof.
  intros Hedge. pose proof (λ i c, late_make_connection i c Hedge).
  unfold make_connections. frame.
Qed.

Lemma late_checks fuel :
  (∀ ev, allowed ev) →
  preserves R
    (check_for_required_ports fuel ;;;
     check_for_dag ;;;
     initialize_processes ;;;
     check_port_frequencies fuel).
Proof.
  intros Hallowed.
  pose proof (late_check_for_required_ports fuel).
  pose proof late_check_for_dag.
  pose proof (late_initialize_processes (λ n, Hallowed _)).
  pose proof (late_check_port_frequencies fuel (λ n f, Hallowed _)).
  frame.
Qed.

Lemma late_passes :
  (∀ ev, allowed ev) →
  (∀ i e s, R s (with_edge_map (insert i (Some e)) s)) →
  ∀ fuel, preserves R
    (make_connections ;;;
     check_for_required_ports fuel ;;;
     check_for_dag ;;;
     initialize_processes ;;;
     check_port_frequencies fuel).
Proof.
  intros Hallowed Hedge fuel.
  pose proof (late_make_connections Hedge).
  pose proof (late_checks fuel Hallowed).
  frame.
Qed.

End LateFrames.

(** The passes that settle the types also go through [connect] and
    rewrite the lists of deferred connections. *)
Section SetupFrames.
Context (R : relation priv) `{!PreOrder R}.
Hypothesis tolerates_store :
  ∀ n p s, is_Some (process_map s !! n) → R s (with_process_map (insert n p) s).
Hypothesis tolerates_call : ∀ ev s, R s (with_calls (push_back ev) s).
Hypothesis tolerates_edge : ∀ i e s, R s (with_edge_map (insert i (Some e)) s).
Hypothesis tolerates_cluster : ∀ f s, R s (with_cluster_connections f s).
Hypothesis tolerates_data_dep : ∀ f s, R s (with_data_dep_connections f s).
Hypothesis tolerates_untyped : ∀ f s, R s (with_untyped_connections f s).
Hypothesis tolerates_pinnings : ∀ f s, R s (with_type_pinnings f s).
Hypothesis tolerates_connect : ∀ un up dn dp, preserves R (connect un up dn dp).

Lemma setup_frame_map_cluster_connections fuel :
  preserves R (map_cluster_connections fuel).
Proof.
  induction fuel as [|fuel IH]; simpl; unfold map_cluster_connection; frame; auto.
Qed.

Lemma setup_frame_configure_processes : preserves R configure_processes.
Proof.
  pose proof (late_process_by_name R).
  pose proof (@late_invoke R _ tolerates_store unit).
  unfold configure_processes, process_names, log_call, connect_connection.
  frame; auto.
Qed.

Lemma setup_frame_check_for_data_dep_ports : preserves R check_for_data_dep_ports.
Proof. unfold check_for_data_dep_ports. frame. Qed.

Lemma setup_frame_propagate_loop fuel kyu : preserves R (propagate_loop fuel kyu).
Proof.
  pose proof (late_process_by_name R).
  pose proof (@late_invoke R _ tolerates_store bool).
  revert kyu. induction fuel as [|fuel IH]; intros kyu; simpl;
    unfold propagate_connection, connect_connection; frame; auto.
Qed.

Lemma setup_frame_propagate_pinned_types fuel_propagate fuel :
  preserves R (propagate_pinned_types fuel_propagate fuel).
Proof.
  pose proof (late_process_by_name R).
  pose proof (@late_invoke R _ tolerates_store bool).
  pose proof setup_frame_propagate_loop.
  induction fuel as [|fuel IH]; simpl;
    unfold propagate_pinning, propagate, connect_connection; frame; auto.
Qed.

Lemma setup_frame_check_for_untyped_ports : preserves R check_for_untyped_ports.
Proof. unfold check_for_untyped_ports. frame. Qed.

Lemma setup_frame_setup_passes fuel : preserves R (setup_passes fuel).
Proof.
  pose proof (setup_frame_map_cluster_connections fuel).
  pose proof setup_frame_configure_processes.
  pose proof setup_frame_check_for_data_dep_ports.
  pose proof (setup_frame_propagate_pinned_types fuel fuel).
  pose proof setup_frame_check_for_untyped_ports.
  pose proof (late_passes R (λ _, True) tolerates_store (λ ev s _, tolerates_call ev s)
                (λ _, I) tolerates_edge fuel).
  unfold setup_passes. frame.
Qed.

End SetupFrames.

Local Abbreviation replay_kept := (@replay_kept C E P).

Global Instance replay_kept_preorder : PreOrder replay_kept.
Proof.
  split; [by intros s|].
  intros s1 s2 s3 H12 H23 Hprog. destruct (H12 Hprog) as [Hprog2 Hp2].
  destruct (H23 Hprog2) as [Hprog3 Hp3]. split; congruence.
Qed.


Lemma replay_kept_connect un up dn dp : preserves replay_kept (connect un up dn dp).
Proof.
  intros s r s' Hrun Hprog.
  by apply (connect_in_progress_frame replay_kept) in Hrun; [apply Hrun|..].
Qed.

Lemma replay_kept_setup_passes fuel : preserves replay_kept (setup_passes fuel).
Proof.
  apply setup_frame_setup_passes;
    first [apply _ | apply replay_kept_connect | by intros; intros ?].
Qed.

(** X9: [setup_pipeline] never changes [planned_connections], however it
    ends: the connections its passes make through [connect] (for cluster
    ports, data-dependent ports and propagated types) are not recorded as
    planned. *)
Theorem setup_pipeline_keeps_planned fuel s r s' :
  setup_pipeline fuel s = (r, s') → planned_connections s' = planned_connections s.
Proof.
  intros Hrun.
  destruct (setup s) eqn:Hs.
  { rewrite setup_pipeline_duplicate in Hrun by done. by inversion Hrun. }
  destruct (decide (size (process_map s) = 0)) as [Hsize|Hsize].
  { rewrite setup_pipeline_no_processes in Hrun by done. by inversion Hrun. }
  rewrite (setup_pipeline_entered fuel s Hs Hsize) in Hrun.
  destruct (setup_passes fuel (entering_setup s)) as [r1 s1] eqn:Hpass.
  apply replay_kept_setup_passes in Hpass. destruct (Hpass eq_refl) as [_ Hplanned].
  destruct r1; inversion Hrun; subst; simpl; by rewrite Hplanned.
Qed.

(** ** What a setup that returned leaves behind *)

Local Abbreviation edges_kept := (@edges_kept C E P).

Global Instance edges_kept_preorder : PreOrder edges_kept.
Proof.
  split.
  - intros s. by split.
  - intros s1 s2 s3 [(?&?&?) H12] [(?&?&?) H23]. split.
    + unfold typing_kept. split_and!; congruence.
    + auto.
Qed.

Lemma edges_kept_store n p s : edges_kept s (with_process_map (insert n p) s).
Proof. by split. Qed.

Lemma edges_kept_call ev s : edges_kept s (with_calls (push_back ev) s).
Proof. by split. Qed.

Lemma edges_kept_edge i e s : edges_kept s (with_edge_map (insert i (Some e)) s).
Proof.
  split; [done|]. intros j [e' He']. unfold has_edge. simpl.
  destruct (decide (i = j)) as [->|Hij].
  - rewrite lookup_insert_eq. eauto.
  - rewrite lookup_insert_ne by done. eauto.
Qed.

Lemma ensures_bind {A B} (Q : priv → Prop) (m : M A) (k : A → M B) :
  (∀ a, ensures Q (k a)) → ensures Q (bind m k).
Proof.
  intros Hk s b s' Hrun. apply bind_Ret_inv in Hrun as (a & s1 & _ & Hk1).
  by eapply Hk.
Qed.

Lemma ensures_modify (Q : priv → Prop) f : (∀ s, Q (f s)) → ensures Q (modify f).
Proof. intros Hf s a s' Hrun. inversion Hrun; subst. apply Hf. Qed.

Lemma foreach_ensures {A} (K : relation priv) `{!PreOrder K} (Q : A → priv → Prop)
    (l : list A) (body : A → M unit) s s' :
  (∀ x, preserves K (body x)) → (∀ x, ensures (Q x) (body x)) →
  (∀ x s s', K s s' → Q x s → Q x s') →
  foreach l body s = (Ret tt, s') → ∀ x, x ∈ l → Q x s'.
Proof.
  intros Hkept Hbody Hmono. revert s.
  induction l as [|y l IH]; intros s Hrun x Hx; [by apply elem_of_nil in Hx|].
  simpl in Hrun. apply bind_Ret_inv in Hrun as ([] & s1 & Hfirst & Hrest).
  apply elem_of_cons in Hx as [->|Hx]; [|by eapply IH].
  apply (Hmono _ s1); [|by eapply Hbody].
  by apply (preserves_foreach K l body Hkept) in Hrest.
Qed.

Lemma propagate_pinned_types_Ret fuel_propagate fuel s s' :
  propagate_pinned_types fuel_propagate fuel s = (Ret tt, s') → type_pinnings s' = [].
Proof.
  revert s. induction fuel as [|fuel IH]; intros s Hrun; simpl in Hrun; [done|].
  rewrite bind_gets, bind_modify in Hrun.
  apply bind_Ret_inv in Hrun as ([] & s1 & _ & Hrest).
  rewrite bind_gets in Hrest. destruct (type_pinnings s1) eqn:Hp.
  - by inversion Hrest; subst.
  - by apply IH in Hrest.
Qed.

Lemma check_for_untyped_ports_Ret s s' :
  check_for_untyped_ports s = (Ret tt, s') → s' = s ∧ untyped_connections s = [].
Proof.
  unfold check_for_untyped_ports. rewrite bind_gets. simpl.
  destruct (untyped_connections s); [|done]. by intros [= <-].
Qed.

Lemma make_connection_has_edge i c : ensures (λ s, has_edge s i) (make_connection i c).
Proof.
  unfold make_connection.
  repeat first [apply ensures_bind; intros ? | progress cbv zeta].
  apply ensures_modify. intros s. unfold has_edge. simpl.
  rewrite lookup_insert_eq. eauto.
Qed.

Lemma make_connections_Ret s s' :
  make_connections s = (Ret tt, s') →
  edges_kept s s' ∧ ∀ i, i < length (connections s) → has_edge s' i.
Proof.
  intros Hrun. split.
  { revert Hrun. apply (late_make_connections edges_kept).
    - intros. apply edges_kept_store.
    - apply edges_kept_edge. }
  unfold make_connections in Hrun. rewrite bind_gets in Hrun.
  intros i Hi. apply lookup_lt_is_Some_2 in Hi as [c Hc].
  apply (foreach_ensures edges_kept (λ ic s, has_edge s ic.1) _ _ _ _) with (x := (i, c))
    in Hrun; [done| | | |].
  - intros [j c']. apply (late_make_connection edges_kept).
    + intros. apply edges_kept_store.
    + apply edges_kept_edge.
  - intros [j c']. apply make_connection_has_edge.
  - intros [j c'] s1 s2 [_ Hkept]. apply Hkept.
  - apply list_elem_of_lookup. exists i. by rewrite list_lookup_imap, Hc.
Qed.

Lemma setup_pipeline_Ret_passes fuel s s' :
  setup_pipeline fuel s = (Ret tt, s') →
  ∃ s10, setup_passes fuel (entering_setup s) = (Ret tt, s10)
         ∧ s' = with_setup_successful true (with_setup_in_progress false s10).
Proof.
  intros Hrun.
  destruct (setup s) eqn:Hs.
  { by rewrite setup_pipeline_duplicate in Hrun. }
  destruct (decide (size (process_map s) = 0)) as [Hsize|Hsize].
  { by rewrite setup_pipeline_no_processes in Hrun. }
  rewrite (setup_pipeline_entered fuel s Hs Hsize) in Hrun.
  destruct (setup_passes fuel (entering_setup s)) as [[[]|e'|] s10] eqn:Hpass;
    inversion Hrun; subst; clear Hrun.
  eauto.
Qed.

Lemma find_index_Some {A} (f : A → bool) (l : list A) x :
  x ∈ l → f x = true → ∃ i, find_index f l = Some i ∧ i < length l.
Proof.
  induction l as [|y l IH]; intros Hx Hf; [by apply elem_of_nil in Hx|].
  simpl. destruct (f y) eqn:Hy.
  - exists 0. split; [done|lia].
  - apply elem_of_cons in Hx as [->|Hx]; [congruence|].
    destruct (IH Hx Hf) as (i & -> & Hi). exists (S i). split; [done|lia].
Qed.

(** X10: when [setup_pipeline] returns, no connection is left untyped, no
    type pinning is left to propagate, and every resolved connection has
    its edge: [edge_for_connection] returns an edge that is not null for
    each of them. *)
Theorem setup_wires_every_connection fuel s s' :
  setup_pipeline fuel s = (Ret tt, s') →
  untyped_connections s' = [] ∧ type_pinnings s' = []
  ∧ ∀ un up dn dp, ((un, up), (dn, dp)) ∈ connections s' →
      ∃ e, edge_for_connection un up dn dp s' = (Ret (Some e), s').
Proof.
  intros Hrun. pose proof (setup_pipeline_Ret_ensure_setup _ _ _ Hrun) as Hguard.
  apply setup_pipeline_Ret_passes in Hrun as (s10 & Hpass & ->).
  unfold setup_passes in Hpass.
  apply bind_Ret_inv in Hpass as ([] & s1 & _ & Hpass).
  apply bind_Ret_inv in Hpass as ([] & s2 & _ & Hpass).
  apply bind_Ret_inv in Hpass as ([] & s3 & _ & Hpass).
  apply bind_Ret_inv in Hpass as ([] & s4 & Hpinned & Hpass).
  apply bind_Ret_inv in Hpass as ([] & s5 & Huntyped & Hpass).
  apply bind_Ret_inv in Hpass as ([] & s6 & Hmake & Hpass).
  apply propagate_pinned_types_Ret in Hpinned.
  apply check_for_untyped_ports_Ret in Huntyped as [-> Huntyped].
  apply make_connections_Ret in Hmake as [[(Hc6 & Hu6 & Hp6) _] Hedges].
  apply (late_checks edges_kept (λ _, True) (λ n p s _, edges_kept_store n p s)
           (λ ev s _, edges_kept_call ev s) fuel (λ _, I)) in Hpass.
  destruct Hpass as [(Hc10 & Hu10 & Hp10) Hkept].
  simpl. split_and!; [congruence..|].
  intros un up dn dp Hc.
  destruct (find_index_Some
              (λ c, bool_decide (conn_upstream_name c = un)
                    && bool_decide (conn_upstream_port c = up)
                    && bool_decide (conn_downstream_name c = dn)
                    && bool_decide (conn_downstream_port c = dp))
              (connections s10) _ Hc) as (i & Hfind & Hi).
  { unfold conn_upstream_name, conn_upstream_port, conn_downstream_name,
      conn_downstream_port. simpl. by rewrite !bool_decide_eq_true_2. }
  destruct (Hkept i) as [e He].
  { apply Hedges. congruence. }
  exists e. unfold edge_for_connection.
  rewrite (bind_Ret_eq _ _ _ _ _ Hguard). rewrite bind_gets. simpl.
  rewrite Hfind. unfold edge_map_at. rewrite bind_gets. simpl. by rewrite He.
Qed.

(** ** The calls made on the processes *)

Local Abbreviation logs_only := (@logs_only C E P).
Local Abbreviation registry_kept := (@registry_kept C E P).

Global Instance logs_only_preorder allowed : PreOrder (logs_only allowed).
Proof.
  split.
  - intros s. exists []. by rewrite app_nil_r.
  - intros s1 s2 s3 (evs1 & H1 & Hevs1) (evs2 & H2 & Hevs2).
    exists (evs1 ++ evs2). rewrite H2, H1, app_assoc. split; [done|].
    by apply Forall_app.
Qed.

Global Instance logs_only_pass_frame allowed : PassFrame (logs_only allowed) allowed.
Proof.
  split; try apply _; try (intros; exists []; by rewrite app_nil_r).
  intros ev s Hev. exists [ev]. split; [done|]. by constructor.
Qed.

Lemma logs_nothing s s' : logs_only (λ _, False) s s' → calls s' = calls s.
Proof.
  intros (evs & -> & Hevs). destruct evs as [|ev evs]; [by rewrite app_nil_r|].
  by apply Forall_cons in Hevs as [[] _].
Qed.

Global Instance registry_kept_preorder : PreOrder registry_kept.
Proof.
  split; [by intros s|].
  intros s1 s2 s3 [? ?] [? ?]. unfold registry_kept. split; congruence.
Qed.

Global Instance registry_kept_pass_frame : PassFrame registry_kept (λ _, True).
Proof.
  split; try apply _; try (by intros).
  intros n p s Hn. split; [|done]. simpl. apply set_eq. intros k.
  rewrite dom_insert, elem_of_union, elem_of_singleton, !elem_of_dom.
  split; [intros [->|?]; done|by right].
Qed.

Lemma foreach_logs {A} (ev : A → call) (l : list A) (body : A → M unit) s s' :
  (∀ x s s', body x s = (Ret tt, s') → calls s' = calls s ++ [ev x]) →
  foreach l body s = (Ret tt, s') → calls s' = calls s ++ (ev <$> l).
Proof.
  intros Hbody. revert s. induction l as [|x l IH]; intros s Hrun; simpl in Hrun.
  - inversion Hrun; subst. by rewrite app_nil_r.
  - apply bind_Ret_inv in Hrun as ([] & s1 & Hfirst & Hrest).
    apply Hbody in Hfirst. apply IH in Hrest. rewrite Hrest, Hfirst. simpl.
    by rewrite <- app_assoc.
Qed.

Lemma logged_step n ev (rest : M unit) s s' :
  preserves (logs_only (λ _, False)) rest →
  (process_by_name n ;;; log_call ev ;;; rest) s = (Ret tt, s') →
  calls s' = calls s ++ [ev].
Proof.
  intros Hrest Hrun.
  destruct (process_map s !! n) as [p|] eqn:Hp;
    [|by rewrite bind_process_by_name_None in Hrun].
  rewrite (bind_process_by_name _ _ _ _ Hp) in Hrun.
  unfold log_call in Hrun. rewrite bind_modify in Hrun.
  apply Hrest in Hrun. by apply logs_nothing in Hrun.
Qed.

Lemma configure_processes_Ret s s' :
  configure_processes s = (Ret tt, s') →
  calls s' = calls s ++ (call_configure <$> sorted_names (elements (dom (process_map s)))).
Proof.
  unfold configure_processes, process_names. rewrite bind_gets.
  apply foreach_logs. intros n s1 s2. apply logged_step.
  pose proof (@frame_invoke (logs_only (λ _, False)) _ _ unit).
  pose proof (frame_process_by_name (logs_only (λ _, False)) (λ _, False)).
  pose proof (frame_connect_connection (logs_only (λ _, False)) (λ _, False)).
  frame.
Qed.

Lemma initialize_processes_Ret s s' :
  initialize_processes s = (Ret tt, s') →
  calls s' = calls s ++ (call_init <$> sorted_names (elements (dom (process_map s)))).
Proof.
  unfold initialize_processes, process_names. rewrite bind_gets.
  apply foreach_logs. intros n s1 s2. apply logged_step.
  apply (frame_invoke (logs_only (λ _, False)) (λ _, False)).
Qed.

(** X11: of the four hooks of a process that [calls] records ([configure],
    [init], [reset] and [set_core_frequency]), a [setup_pipeline] that
    returned has called [configure] once on every registered process, in
    the order of the names; after the last [configure], [init] once on
    every registered process, in the order of the names; after the last
    [init], [set_core_frequency] only; and [reset] never.  The port
    queries, type setters and edge attachments that the passes call on the
    processes in between are not recorded and are not part of the
    statement. *)
Theorem setup_calls_in_order fuel s s' :
  setup_pipeline fuel s = (Ret tt, s') →
  ∃ names core,
    process_names s = (Ret names, s)
    ∧ calls s' = calls s ++ (call_configure <$> names) ++ (call_init <$> names) ++ core
    ∧ Forall is_core_frequency_call core.
Proof.
  intros Hrun. apply setup_pipeline_Ret_passes in Hrun as (s10 & Hpass & ->).
  unfold setup_passes in Hpass.
  apply bind_Ret_inv in Hpass as ([] & s1 & H1 & Hpass).
  apply bind_Ret_inv in Hpass as ([] & s2 & H2 & Hpass).
  apply bind_Ret_inv in Hpass as ([] & s3 & H3 & Hpass).
  apply bind_Ret_inv in Hpass as ([] & s4 & H4 & Hpass).
  apply bind_Ret_inv in Hpass as ([] & s5 & H5 & Hpass).
  apply bind_Ret_inv in Hpass as ([] & s6 & H6 & Hpass).
  apply bind_Ret_inv in Hpass as ([] & s7 & H7 & Hpass).
  apply bind_Ret_inv in Hpass as ([] & s8 & H8 & Hpass).
  apply bind_Ret_inv in Hpass as ([] & s9 & H9 & H10).
  pose proof (frame_map_cluster_connections registry_kept _ _ _ _ _ H1) as [Hd1 _].
  pose proof (frame_configure_processes registry_kept _ (λ _, I) _ _ _ H2) as [Hd2 _].
  pose proof (frame_check_for_data_dep_ports registry_kept _ _ _ _ H3) as [Hd3 _].
  pose proof (frame_propagate_pinned_types registry_kept _ _ _ _ _ _ H4) as [Hd4 _].
  pose proof (frame_check_for_untyped_ports registry_kept _ _ _ _ H5) as [Hd5 _].
  pose proof (frame_make_connections registry_kept _ _ _ _ H6) as [Hd6 _].
  pose proof (frame_check_for_required_ports registry_kept _ _ _ _ _ H7) as [Hd7 _].
  pose proof (frame_check_for_dag registry_kept _ _ _ _ H8) as [Hd8 _].
  apply (frame_map_cluster_connections (logs_only (λ _, False)) (λ _, False)) in H1.
  apply configure_processes_Ret in H2.
  apply (frame_check_for_data_dep_ports (logs_only (λ _, False)) (λ _, False)) in H3.
  apply (frame_propagate_pinned_types (logs_only (λ _, False)) (λ _, False)) in H4.
  apply (frame_check_for_untyped_ports (logs_only (λ _, False)) (λ _, False)) in H5.
  apply (frame_make_connections (logs_only (λ _, False)) (λ _, False)) in H6.
  apply (frame_check_for_required_ports (logs_only (λ _, False)) (λ _, False)) in H7.
  apply (frame_check_for_dag (logs_only (λ _, False)) (λ _, False)) in H8.
  apply initialize_processes_Ret in H9.
  apply (frame_check_port_frequencies (logs_only is_core_frequency_call)
           is_core_frequency_call) in H10; [|by intros].
  apply logs_nothing in H1, H3, H4, H5, H6, H7, H8.
  destruct H10 as (core & H10 & Hcore).
  exists (sorted_names (elements (dom (process_map s)))), core.
  split_and!; [done| |done].
  simpl. rewrite H10, H9, H8, H7, H6, H5, H4, H3, H2, H1.
  rewrite Hd8, Hd7, Hd6, Hd5, Hd4, Hd3, Hd2, Hd1. simpl.
  by rewrite <- !app_assoc.
Qed.

(** ** [reset] *)

Lemma reset_phases s r s' :
  running s = false → reset s = (r, s') →
  ∃ r1 s1,
    foreach (sorted_names (elements (dom (process_map s))))
      (λ n, process_by_name n ;;; log_call (call_reset n) ;;;
            invoke n (void_method reset_process))
      (with_setup_successful false (with_setup false s)) = (r1, s1)
    ∧ match r1 with
      | Ret _ =>
          ∃ r2 s2,
            foreach (planned_connections s1) connect_connection (cleared_for_replay s1)
            = (r2, s2)
            ∧ match r2 with
              | Ret _ => r = Ret tt ∧ s' = with_setup_in_progress false s2
              | _ => r = r2 ∧ s' = s2
              end
      | _ => r = r1 ∧ s' = s1
      end.
Proof.
  intros Hnot Hrun. unfold reset in Hrun. rewrite bind_gets in Hrun. simpl in Hrun.
  rewrite Hnot in Hrun. rewrite !bind_modify in Hrun.
  unfold process_names in Hrun. rewrite bind_gets in Hrun. simpl in Hrun.
  unfold bind at 1 in Hrun.
  destruct (foreach _ _ _) as [[[]|e|] s1] eqn:Hfirst in Hrun.
  - eexists _, s1. split; [exact Hfirst|].
    rewrite !bind_modify, bind_gets in Hrun. fold (cleared_for_replay s1) in Hrun.
    simpl in Hrun. unfold bind at 1 in Hrun.
    destruct (foreach _ _ _) as [[[]|e|] s2] eqn:Hreplay in Hrun.
    + eexists _, s2. split; [exact Hreplay|]. by inversion Hrun.
    + eexists _, s2. split; [exact Hreplay|]. by inversion Hrun.
    + eexists _, s2. split; [exact Hreplay|]. by inversion Hrun.
  - eexists _, s1. split; [exact Hfirst|]. by inversion Hrun.
  - eexists _, s1. split; [exact Hfirst|]. by inversion Hrun.
Qed.

Local Abbreviation wiring_only := (@wiring_only C E P).

Global Instance wiring_only_preorder : PreOrder wiring_only.
Proof.
  split; [by intros s|].
  intros s1 s2 s3 H12 H23 Hprog.
  destruct (H12 Hprog) as (Hprog2 & ? & ? & ? & ? & ? & ? & ? & ?).
  destruct (H23 Hprog2) as (Hprog3 & ? & ? & ? & ? & ? & ? & ? & ?).
  split_and!; congruence.
Qed.

Lemma wiring_only_connect_connection c : preserves wiring_only (connect_connection c).
Proof.
  intros s r s' Hrun Hprog. unfold connect_connection in Hrun.
  by apply (connect_in_progress_frame wiring_only) in Hrun; [apply Hrun|..].
Qed.

Lemma reset_processes_frame (R : relation priv) `{!PreOrder R} (names : list name_t) :
  (∀ n p s, is_Some (process_map s !! n) → R s (with_process_map (insert n p) s)) →
  (∀ ev s, R s (with_calls (push_back ev) s)) →
  preserves R
    (foreach names
       (λ n, process_by_name n ;;; log_call (call_reset n) ;;;
             invoke n (void_method reset_process))).
Proof.
  intros Hstore Hcall.
  pose proof (late_process_by_name R).
  pose proof (@late_invoke R _ Hstore unit).
  pose proof (late_log_call R (λ _, True) (λ ev s _, Hcall ev s)).
  frame.
Qed.

(** X12: [reset] of a pipeline that is not running leaves [setup] and
    [setup_successful] false, whatever it ends in, and keeps
    [planned_connections], the registered names and the clusters.  When it
    returns, [setup_in_progress] is false again, the edge map is empty and
    the [reset] method has been called once on every process, in the order
    of the names. *)
Theorem reset_outcome s r s' :
  running s = false → reset s = (r, s') →
  setup s' = false ∧ setup_successful s' = false ∧ running s' = false
  ∧ planned_connections s' = planned_connections s
  ∧ registry_kept s s'
  ∧ (r = Ret tt →
     setup_in_progress s' = false ∧ edge_map s' = ∅
     ∧ calls s' =
       calls s ++ (call_reset <$> sorted_names (elements (dom (process_map s))))).
Proof.
  intros Hnot Hrun.
  destruct (reset_phases s r s' Hnot Hrun) as (r1 & s1 & Hfirst & Hrest).
  assert (flags_kept (with_setup_successful false (with_setup false s)) s1)
    as (Hs1 & _ & Hsucc1 & Hrun1).
  { revert Hfirst. by apply (reset_processes_frame flags_kept). }
  assert (planned_kept (with_setup_successful false (with_setup false s)) s1)
    as Hplanned1.
  { revert Hfirst. by apply (reset_processes_frame planned_kept). }
  assert (registry_kept (with_setup_successful false (with_setup false s)) s1)
    as Hreg1.
  { revert Hfirst. apply (reset_processes_frame registry_kept).
    - apply pass_frame_store.
    - intros ev s0. by apply pass_frame_call. }
  unfold planned_kept in Hplanned1. simpl in *.
  destruct r1 as [[]|e|].
  - destruct Hrest as (r2 & s2 & Hreplay & Hrest).
    apply (preserves_foreach wiring_only _ _ wiring_only_connect_connection) in Hreplay.
    destruct (Hreplay eq_refl) as (Hprog2 & Hp2 & He2 & Hpm2 & Hcm2 & Hcalls2 & Hs2 & Hsucc2 & Hrun2).
    simpl in *.
    assert (registry_kept s s2) as Hreg2.
    { destruct Hreg1 as [Hd1 Hc1]. simpl in Hd1, Hc1. split; simpl; congruence. }
    assert (calls s1 =
            calls s ++ (call_reset <$> sorted_names (elements (dom (process_map s)))))
      as Hcalls1.
    { apply (foreach_logs call_reset) in Hfirst; [done|].
      intros n sa sb. apply logged_step.
      apply (frame_invoke (logs_only (λ _, False)) (λ _, False)). }
    destruct r2 as [[]|e|]; destruct Hrest as [-> ->]; simpl;
      (split_and!; [congruence..|done|]).
    + intros _. split_and!; [done|done|congruence].
    + done.
    + done.
  - destruct Hrest as [-> ->]. split_and!; [congruence..|done|done].
  - destruct Hrest as [-> ->]. split_and!; [congruence..|done|done].
Qed.

(** ** Core frequencies are whole numbers *)

Lemma preserves_foreach_in (R : relation priv) `{!PreOrder R} {A} (l : list A) body :
  (∀ x, x ∈ l → preserves R (body x)) → preserves R (foreach l body).
Proof.
  induction l as [|x l IH]; intros Hbody; simpl.
  - by apply preserves_ret.
  - apply preserves_bind; [apply _| |intros _].
    + apply Hbody. by left.
    + apply IH. intros y Hy. apply Hbody. by right.
Qed.

Lemma denominators_lcm_divide (l : list (name_t * port_frequency_t)) (acc : Z) :
  (acc | foldl (λ freq_gcd proc_freq, Z.lcm freq_gcd (freq_denominator proc_freq.2)) acc l)%Z
  ∧ ∀ nf, nf ∈ l →
      (freq_denominator nf.2
       | foldl (λ freq_gcd proc_freq, Z.lcm freq_gcd (freq_denominator proc_freq.2)) acc l)%Z.
Proof.
  revert acc. induction l as [|x l IH]; intros acc; simpl.
  - split; [reflexivity|]. by intros nf ?%elem_of_nil.
  - destruct (IH (Z.lcm acc (freq_denominator x.2))) as [Hacc Hl]. split.
    + etransitivity; [apply Z.divide_lcm_l|exact Hacc].
    + intros nf [->|Hnf]%elem_of_cons; [|by apply Hl].
      etransitivity; [apply Z.divide_lcm_r|exact Hacc].
Qed.

Lemma Qred_inject_Z_den (z : Z) : Qden (Qred (inject_Z z)) = 1%positive.
Proof.
  unfold Qred, inject_Z.
  pose proof (Z.ggcd_gcd z 1) as Hg. pose proof (Z.ggcd_correct_divisors z 1) as Hd.
  destruct (Z.ggcd z 1) as [g [n d]]. simpl in *.
  rewrite Z.gcd_1_r in Hg. subst g. destruct Hd as [_ Hd].
  assert (d = 1%Z) as -> by lia. reflexivity.
Qed.

Lemma freq_scale_integral (k : Z) (f : port_frequency_t) :
  (freq_denominator f | k)%Z → Qden (freq_scale k f) = 1%positive.
Proof.
  unfold freq_denominator, freq_scale. intros [m ->].
  assert (inject_Z (m * Z.pos (Qden (Qred f))) * f == inject_Z (m * Qnum (Qred f)))%Q
    as Heq.
  { transitivity (inject_Z (m * Z.pos (Qden (Qred f))) * Qred f)%Q.
    - apply Qmult_comp; [reflexivity|]. symmetry. apply Qred_correct.
    - destruct (Qred f) as [a b]. unfold Qeq. simpl. lia. }
  rewrite (Qred_complete _ _ Heq). apply Qred_inject_Z_den.
Qed.

Lemma check_port_frequencies_integral fuel :
  preserves (logs_only is_integral_core_call) (check_port_frequencies fuel).
Proof.
  intros s r s'. unfold check_port_frequencies. rewrite bind_gets. simpl.
  case_bool_decide as Hsize.
  - destruct (sorted_names _) as [|n ?]; [apply preserves_ret; apply _|].
    by apply (frame_set_process_core_frequency (logs_only is_integral_core_call)
                is_integral_core_call).
  - generalize (connections s). intros conns. clear Hsize. revert s r s'.
    apply preserves_bind; [apply _| |intros freq_map].
    { apply (frame_solve_frequencies (logs_only is_integral_core_call)
               is_integral_core_call). }
    apply preserves_foreach_in; [apply _|]. intros nf Hnf.
    apply (frame_set_process_core_frequency (logs_only is_integral_core_call)
             is_integral_core_call).
    simpl. apply freq_scale_integral.
    by apply (denominators_lcm_divide (freq_entries freq_map) 1).
Qed.

Lemma setup_pipeline_integral fuel :
  preserves (logs_only is_integral_core_call) (setup_pipeline fuel).
Proof.
  assert (preserves (logs_only is_integral_core_call) (setup_passes fuel)) as Hpasses.
  { intros s r s'. rewrite setup_passes_split. revert s r s'.
    apply preserves_bind; [apply _| |intros _].
    - by apply (frame_structural_passes (logs_only is_integral_core_call)
                  is_integral_core_call).
    - apply check_port_frequencies_integral. }
  unfold setup_pipeline, check_for_processes.
  frame; exists []; by rewrite app_nil_r.
Qed.

(** X13: every frequency that [setup_pipeline] passes to
    [set_core_frequency] is a whole number, however the setup ends: the
    frequencies of the solver are scaled by the least common multiple of
    their denominators. *)
Theorem core_frequencies_are_whole fuel s r s' :
  setup_pipeline fuel s = (r, s') →
  ∀ n f, (n, f) ∈ core_frequency_calls_since s s' → Qden f = 1%positive.
Proof.
  intros Hrun n f Hnf. apply setup_pipeline_integral in Hrun as (evs & Hcalls & Hevs).
  unfold core_frequency_calls_since, core_frequency_calls in Hnf.
  rewrite Hcalls, drop_app_length in Hnf.
  apply list_elem_of_omap in Hnf as (ev & Hev & Hcall).
  rewrite Forall_forall in Hevs. specialize (Hevs ev Hev).
  destruct ev; simpl in *; try done. by inversion Hcall; subst.
Qed.

(** ** Required ports *)

Lemma foreach_Ret_each {A} (l : list A) (body : A → M unit) s s' :
  (∀ x, preserves eq (body x)) →
  foreach l body s = (Ret tt, s') → ∀ x, x ∈ l → body x s = (Ret tt, s).
Proof.
  intros Hbody. induction l as [|y l IH]; intros Hrun x Hx;
    [by apply elem_of_nil in Hx|].
  simpl in Hrun. apply bind_Ret_inv in Hrun as ([] & s1 & Hfirst & Hrest).
  pose proof (Hbody _ _ _ _ Hfirst) as <-.
  apply elem_of_cons in Hx as [->|Hx]; [done|by apply IH].
Qed.

Lemma upstream_for_process_pure n : preserves (@eq priv) (upstream_for_process n).
Proof. pose proof (late_ensure_setup eq). unfold upstream_for_process. frame. Qed.

Lemma downstream_for_process_pure n : preserves (@eq priv) (downstream_for_process n).
Proof. pose proof (late_ensure_setup eq). unfold downstream_for_process. frame. Qed.

Lemma input_edge_for_port_pure n port : preserves (@eq priv) (input_edge_for_port n port).
Proof. pose proof (late_ensure_setup eq). unfold input_edge_for_port. frame. Qed.

Lemma output_edges_for_port_pure n port :
  preserves (@eq priv) (output_edges_for_port n port).
Proof. pose proof (late_ensure_setup eq). unfold output_edges_for_port. frame. Qed.

Lemma visit_processes_checked fuel to_visit procs s procs' s' :
  visit_processes fuel to_visit procs s = (Ret procs', s') →
  (∀ n, n ∈ procs → required_ports_checked s n) →
  ∀ n, n ∈ procs' → required_ports_checked s n.
Proof.
  revert to_visit procs.
  induction fuel as [|fuel IH]; intros to_visit procs Hrun Hprocs; simpl in Hrun;
    [done|].
  destruct to_visit as [|cur_proc rest].
  { by inversion Hrun; subst. }
  case_bool_decide as Hvisited; [by eapply IH|].
  destruct (process_map s !! cur_proc) as [p|] eqn:Hp;
    [|by rewrite bind_process_by_name_None in Hrun].
  rewrite (bind_process_by_name _ _ _ _ Hp) in Hrun.
  apply bind_Ret_inv in Hrun as ([] & s1 & Hin & Hrun).
  pose proof (late_check_required_inputs eq _ _ _ _ _ Hin) as <-.
  apply bind_Ret_inv in Hrun as ([] & s1 & Hout & Hrun).
  pose proof (late_check_required_outputs eq _ _ _ _ _ Hout) as <-.
  apply bind_Ret_inv in Hrun as (ups & s1 & Hup & Hrun).
  pose proof (upstream_for_process_pure _ _ _ _ Hup) as <-.
  apply bind_Ret_inv in Hrun as (downs & s1 & Hdown & Hrun).
  pose proof (downstream_for_process_pure _ _ _ _ Hdown) as <-.
  eapply IH; [exact Hrun|].
  intros n [->%elem_of_singleton|Hn]%elem_of_union; [|by apply Hprocs].
  by exists p.
Qed.

Lemma check_for_required_ports_Ret fuel s s' :
  check_for_required_ports fuel s = (Ret tt, s') →
  s' = s ∧ ∀ n, is_Some (process_map s !! n) → required_ports_checked s n.
Proof.
  intros Hrun. pose proof (late_check_for_required_ports eq _ _ _ _ Hrun) as <-.
  split; [done|].
  unfold check_for_required_ports, process_names in Hrun. rewrite bind_gets in Hrun.
  apply bind_Ret_inv in Hrun as (procs & s1 & Hvisit & Hrun).
  pose proof (late_visit_processes eq _ _ _ _ _ _ Hvisit) as <-.
  rewrite bind_gets in Hrun. simpl in Hrun.
  case_bool_decide as Hsize; [|done].
  assert (∀ n, n ∈ procs → required_ports_checked s n) as Hchecked.
  { eapply visit_processes_checked; [exact Hvisit|]. by intros n ?%elem_of_empty. }
  assert (procs ⊆ dom (process_map s)) as Hsub.
  { intros n Hn. destruct (Hchecked n Hn) as (p & Hp & _). apply elem_of_dom. eauto. }
  assert (procs ≡ dom (process_map s)) as Heq.
  { apply set_subseteq_size_equiv; [done|]. rewrite size_dom. lia. }
  intros n Hn. apply Hchecked. apply Heq. by apply elem_of_dom.
Qed.

(** X14: when [check_for_required_ports] returns it has changed nothing,
    and every registered process was visited: each of its input ports
    flagged as required has an edge that is not null, and each of its
    output ports flagged as required has at least one edge. *)
Theorem required_ports_have_edges fuel s s' :
  check_for_required_ports fuel s = (Ret tt, s') →
  s' = s
  ∧ ∀ n p, process_map s !! n = Some p →
      (∀ port info, port ∈ input_ports p → input_port_info p port = Ret info →
         flag_required ∈ flags info →
         ∃ e, input_edge_for_port n port s = (Ret (Some e), s))
      ∧ (∀ port info, port ∈ output_ports p → output_port_info p port = Ret info →
           flag_required ∈ flags info →
           ∃ e es, output_edges_for_port n port s = (Ret (e :: es), s)).
Proof.
  intros Hrun. apply check_for_required_ports_Ret in Hrun as [-> Hchecked].
  split; [done|]. intros n p Hp.
  destruct (Hchecked n) as (p' & Hp' & Hin & Hout); [by eexists|].
  assert (p' = p) as -> by congruence. split.
  - intros port info Hport Hinfo Hrequired.
    unfold check_required_inputs in Hin.
    apply (foreach_Ret_each _ _ _ _) with (x := port) in Hin; [|clear Hin|done].
    + rewrite Hinfo, bind_lift_Ret, bool_decide_eq_true_2 in Hin by done.
      apply bind_Ret_inv in Hin as (e & s1 & Hedge & Hin).
      destruct e as [e|]; [|done].
      exists e. by pose proof (input_edge_for_port_pure _ _ _ _ _ Hedge) as <-.
    + intros x. pose proof input_edge_for_port_pure. frame.
  - intros port info Hport Hinfo Hrequired.
    unfold check_required_outputs in Hout.
    apply (foreach_Ret_each _ _ _ _) with (x := port) in Hout; [|clear Hout|done].
    + rewrite Hinfo, bind_lift_Ret, bool_decide_eq_true_2 in Hout by done.
      apply bind_Ret_inv in Hout as (es & s1 & Hedge & Hout).
      destruct es as [|e es]; [done|].
      exists e, es. by pose proof (output_edges_for_port_pure _ _ _ _ _ Hedge) as <-.
    + intros x. pose proof output_edges_for_port_pure. frame.
Qed.

(** ** Parents of the processes of a cluster *)

Local Abbreviation parents_kept := (@parents_kept C E P).

Global Instance parents_kept_preorder : PreOrder parents_kept.
Proof.
  split; [by intros s k|].
  intros s1 s2 s3 H12 H23 k Hk.
  destruct (H12 k Hk) as [Hk2 Hp2]. destruct (H23 k Hk2) as [Hk3 Hp3].
  split; [done|congruence].
Qed.

Lemma parents_kept_connect_connection c : preserves parents_kept (connect_connection c).
Proof.
  unfold connect_connection, connect, check_connection_types, process_by_name.
  frame; by intros k Hk.
Qed.

Lemma parent_stack_connect_connection c :
  preserves (λ s s' : priv, parent_stack s' = parent_stack s) (connect_connection c).
Proof.
  assert (PreOrder (λ s s' : priv, parent_stack s' = parent_stack s)).
  { split; [by intros s|]. intros s1 s2 s3 H12 H23. congruence. }
  unfold connect_connection, connect, check_connection_types, process_by_name.
  frame; done.
Qed.

Lemma parents_kept_register (f : priv → priv) n s :
  process_map s !! n = None → cluster_map s !! n = None →
  (∀ k, k ≠ n → process_map (f s) !! k = process_map s !! k
                ∧ cluster_map (f s) !! k = cluster_map s !! k
                ∧ process_parent_map (f s) !! k = process_parent_map s !! k) →
  parents_kept s (f s).
Proof.
  intros Hp Hc Hf k Hk.
  assert (k ≠ n) as Hkn.
  { intros ->. destruct Hk as [Hk|Hk]; [rewrite Hp in Hk|rewrite Hc in Hk];
      by destruct Hk. }
  destruct (Hf k Hkn) as (Hp' & Hc' & Hpar'). unfold registered.
  by rewrite Hp', Hc', Hpar'.
Qed.

Lemma parents_kept_add_process_node p : preserves parents_kept (add_process_node p).
Proof.
  induction p as [p|n ps ic im om IH] using process_t_nested_ind.
  - intros s r s' Hrun. simpl in Hrun. rewrite bind_gets in Hrun. simpl in Hrun.
    destruct (setup s); [inversion Hrun; subst; reflexivity|].
    apply bind_inv in Hrun as [(? & s1 & Hdup & Hrun)|[(e & Hdup & _)|[Hdup _]]];
      apply check_duplicate_name_Ret in Hdup as [-> Hdup]; try reflexivity.
    destruct Hdup as [Hp Hc]; [by destruct x|].
    autorewrite with monad in Hrun. inversion Hrun; subst; clear Hrun.
    apply (parents_kept_register
             (λ s, with_process_parent_map (insert (name p) (current_parent s))
                     (with_process_map (insert (name p) p) s)) (name p)); [done..|].
    intros k Hk. simpl. by rewrite !lookup_insert_ne.
  - rewrite add_process_node_cluster.
    intros s r s' Hrun. rewrite bind_gets in Hrun. simpl in Hrun.
    destruct (setup s); [inversion Hrun; subst; reflexivity|].
    apply bind_inv in Hrun as [(? & s1 & Hdup & Hrun)|[(e & Hdup & _)|[Hdup _]]];
      apply check_duplicate_name_Ret in Hdup as [-> Hdup]; try reflexivity.
    destruct Hdup as [Hp Hc]; [by destruct x|].
    autorewrite with monad in Hrun.
    assert (preserves parents_kept
              (foreach ps add_process_node ;;; foreach ic connect_connection ;;;
               modify (with_parent_stack (drop 1)))) as Htail.
    { pose proof parents_kept_connect_connection.
      assert (preserves parents_kept (foreach ps add_process_node)).
      { clear -IH. induction IH as [|q ps Hq _ IHps]; simpl; frame. }
      frame. by intros k Hk. }
    apply Htail in Hrun. etransitivity; [|exact Hrun].
    apply (parents_kept_register
             (λ s, with_parent_stack (cons n)
                     (with_process_parent_map (insert n (current_parent s))
                        (with_cluster_map (insert n (process_cluster n ps ic im om)) s)))
             n); [done..|].
    intros k Hk. simpl. by rewrite !lookup_insert_ne.
Qed.

Lemma foreach_add_process_node_stack (ps : list (process_t P)) s s' :
  Forall (λ q, ∀ s s', add_process_node q s = (Ret tt, s') →
                 parent_stack s' = parent_stack s
                 ∧ registered s' (process_name q)
                 ∧ process_parent_map s' !! process_name q = Some (current_parent s)) ps →
  foreach ps add_process_node s = (Ret tt, s') → parent_stack s' = parent_stack s.
Proof.
  intros Hps. revert s. induction Hps as [|q ps Hq _ IH]; intros s Hrun; simpl in Hrun.
  - by inversion Hrun.
  - apply bind_Ret_inv in Hrun as ([] & s1 & Hfirst & Hrest).
    apply Hq in Hfirst as [Hfirst _]. apply IH in Hrest. congruence.
Qed.

Lemma parent_stack_connect_connections (ic : connections_t) s r s' :
  foreach ic connect_connection s = (r, s') → parent_stack s' = parent_stack s.
Proof.
  assert (PreOrder (λ s s' : priv, parent_stack s' = parent_stack s)).
  { split; [by intros ?|]. intros s1 s2 s3 H12 H23. congruence. }
  revert s r s'.
  change (preserves (λ s s' : priv, parent_stack s' = parent_stack s)
            (foreach ic connect_connection)).
  pose proof parent_stack_connect_connection. frame.
Qed.

Lemma add_process_node_Ret p s s' :
  add_process_node p s = (Ret tt, s') →
  parent_stack s' = parent_stack s
  ∧ registered s' (process_name p)
  ∧ process_parent_map s' !! process_name p = Some (current_parent s).
Proof.
  revert s s'. induction p as [p|n ps ic im om IH] using process_t_nested_ind;
    intros s s' Hrun.
  - simpl in Hrun. rewrite bind_gets in Hrun. simpl in Hrun.
    destruct (setup s); [done|].
    apply bind_Ret_inv in Hrun as ([] & s1 & Hdup & Hrun).
    apply check_duplicate_name_Ret in Hdup as [-> _].
    autorewrite with monad in Hrun. inversion Hrun; subst; clear Hrun. simpl.
    split_and!; [done| |by rewrite lookup_insert_eq].
    left. simpl. rewrite lookup_insert_eq. eauto.
  - rewrite add_process_node_cluster in Hrun.
    rewrite bind_gets in Hrun. simpl in Hrun.
    destruct (setup s); [done|].
    apply bind_Ret_inv in Hrun as ([] & s1 & Hdup & Hrun).
    apply check_duplicate_name_Ret in Hdup as [-> _].
    autorewrite with monad in Hrun.
    apply bind_Ret_inv in Hrun as ([] & s3 & Hchildren & Hrun).
    apply bind_Ret_inv in Hrun as ([] & s4 & Hconnects & Hrun).
    inversion Hrun; subst; clear Hrun.
    pose proof (foreach_add_process_node_stack _ _ _ IH Hchildren) as Hstack3.
    apply parent_stack_connect_connections in Hconnects as Hstack4.
    assert (parents_kept_children : preserves parents_kept (foreach ps add_process_node)).
    { pose proof parents_kept_add_process_node. frame. }
    assert (parents_kept_connects : preserves parents_kept (foreach ic connect_connection)).
    { pose proof parents_kept_connect_connection. frame. }
    apply parents_kept_children in Hchildren.
    apply parents_kept_connects in Hconnects.
    simpl in *. split_and!.
    + by rewrite Hstack4, Hstack3.
    + destruct (Hconnects n) as [Hreg _]; [|done].
      destruct (Hchildren n) as [Hreg _]; [|done].
      right. simpl. rewrite lookup_insert_eq. eauto.
    + destruct (Hchildren n) as [Hreg2 Hpar2].
      { right. simpl. rewrite lookup_insert_eq. eauto. }
      destruct (Hconnects n Hreg2) as [_ Hpar3].
      rewrite Hpar3, Hpar2. simpl. by rewrite lookup_insert_eq.
Qed.

Lemma foreach_children_parented ps s s' :
  foreach ps add_process_node s = (Ret tt, s') →
  parents_kept s s'
  ∧ ∀ child, child ∈ ps →
      registered s' (process_name child)
      ∧ process_parent_map s' !! process_name child = Some (current_parent s).
Proof.
  revert s. induction ps as [|q ps IH]; intros s Hrun; simpl in Hrun.
  - inversion Hrun; subst. split; [done|]. by intros child ?%elem_of_nil.
  - apply bind_Ret_inv in Hrun as ([] & s1 & Hfirst & Hrest).
    pose proof (parents_kept_add_process_node _ _ _ _ Hfirst) as Hkept1.
    apply add_process_node_Ret in Hfirst as (Hstack & Hreg & Hparent).
    destruct (IH _ Hrest) as [Hkept Hchildren].
    split; [by etransitivity|].
    intros child [->|Hchild]%elem_of_cons.
    + destruct (Hkept _ Hreg) as [Hreg' ->]. done.
    + destruct (Hchildren _ Hchild) as [Hreg' ->].
      unfold current_parent. by rewrite Hstack.
Qed.

(** X15: when [add_process] has added a cluster, the stack of enclosing
    clusters is as it was before the call, [parent_cluster] of the cluster
    is the cluster that was being added around it (the empty name at the
    top level), and [parent_cluster] of each process of the cluster is the
    cluster. *)
Theorem cluster_children_parented s n ps ic im om s' :
  add_process (Some (process_cluster n ps ic im om)) s = (Ret tt, s') →
  parent_stack s' = parent_stack s
  ∧ parent_cluster n s' = (Ret (current_parent s), s')
  ∧ ∀ child, child ∈ ps → parent_cluster (process_name child) s' = (Ret n, s').
Proof.
  intros Hrun. unfold add_process in Hrun.
  pose proof (add_process_node_Ret _ _ _ Hrun) as (Hstack & _ & Hparent).
  split_and!; [done| |].
  { unfold parent_cluster. rewrite bind_gets. simpl in *. by rewrite Hparent. }
  rewrite add_process_node_cluster in Hrun.
  rewrite bind_gets in Hrun. simpl in Hrun.
  destruct (setup s); [done|].
  apply bind_Ret_inv in Hrun as ([] & s1 & Hdup & Hrun).
  apply check_duplicate_name_Ret in Hdup as [-> _].
  autorewrite with monad in Hrun.
  apply bind_Ret_inv in Hrun as ([] & s3 & Hchildren & Hrun).
  apply bind_Ret_inv in Hrun as ([] & s4 & Hconnects & Hrun).
  inversion Hrun; subst; clear Hrun.
  apply foreach_children_parented in Hchildren as [Hkept Hchildren].
  assert (parents_kept_connects : preserves parents_kept (foreach ic connect_connection)).
  { pose proof parents_kept_connect_connection. frame. }
  apply parents_kept_connects in Hconnects.
  intros child Hchild. unfold parent_cluster. rewrite bind_gets. simpl.
  destruct (Hchildren _ Hchild) as [Hreg Hchild_parent].
  destruct (Hconnects _ Hreg) as [_ ->]. by rewrite Hchild_parent.
Qed.

(** ** A new pipeline *)

(** X16: the pipeline that [new_pipeline] returns (it returns one only for
    a configuration that is not null) has no process and no cluster;
    [setup_pipeline] on it throws [no_processes_exception],
    every query guarded by [ensure_setup] throws
    [pipeline_not_setup_exception], [remove_process] throws
    [no_such_process_exception], and none of them changes it. *)
Theorem new_pipeline_is_empty conf s :
  new_pipeline conf = Ret s →
  (∃ block, conf = Some block)
  ∧ process_names s = (Ret [], s) ∧ cluster_names s = (Ret [], s)
  ∧ (∀ fuel, setup_pipeline fuel s = (Throw no_processes_exception, s))
  ∧ (∀ q, run_query q s = (Throw pipeline_not_setup_exception, s))
  ∧ (∀ fuel n, remove_process (S fuel) n s = (Throw (no_such_process_exception n), s)).
Proof.
  destruct conf as [block|]; [|done]. intros [= <-]. split_and!.
  - by exists block.
  - unfold process_names, gets. simpl. by rewrite dom_empty_L, elements_empty.
  - unfold cluster_names, gets. simpl. by rewrite dom_empty_L, elements_empty.
  - intros fuel. by apply setup_pipeline_no_processes.
  - intros q. apply run_query_guard. by apply ensure_setup_not_setup.
  - intros fuel n. simpl. rewrite bind_gets. simpl. by rewrite !lookup_empty.
Qed.

(** ** Names *)

(** X5: [process_names] lists, without repetition and in the order of the
    names, exactly the names for which [process_by_name] returns a process;
    [cluster_names] and [cluster_by_name] agree in the same way. *)
Theorem names_agree_with_lookups s :
  (∃ names, process_names s = (Ret names, s)
     ∧ NoDup names ∧ Sorted name_le names
     ∧ ∀ n, n ∈ names ↔ ∃ p, process_by_name n s = (Ret p, s))
  ∧ (∃ names, cluster_names s = (Ret names, s)
     ∧ NoDup names ∧ Sorted name_le names
     ∧ ∀ n, n ∈ names ↔ ∃ cl, cluster_by_name n s = (Ret cl, s)).
Proof.
  split.
  - destruct (sorted_names_spec (dom (process_map s))) as (Hnodup & Hsorted & Hin).
    eexists. split; [done|]. split_and!; [done..|].
    intros n. rewrite Hin, elem_of_dom. split.
    + intros [p Hp]. exists p. by apply process_by_name_Some.
    + intros [p Hp]. destruct (process_map s !! n) eqn:Hn; [done|].
      by rewrite process_by_name_None in Hp.
  - destruct (sorted_names_spec (dom (cluster_map s))) as (Hnodup & Hsorted & Hin).
    eexists. split; [done|]. split_and!; [done..|].
    intros n. rewrite Hin, elem_of_dom. unfold cluster_by_name.
    rewrite bind_gets. simpl. destruct (cluster_map s !! n) as [cl|].
    + split; eauto.
    + split; [by intros [? ?]|by intros [? ?]].
Qed.

(** ** Senders and receivers *)

Lemma find_Some_elem {A} (f : A → bool) (l : list A) x :
  List.find f l = Some x → x ∈ l ∧ f x = true.
Proof. intros Hfind. apply find_some in Hfind as [? ?]. by rewrite list_elem_of_In. Qed.

Lemma find_is_Some {A} (f : A → bool) (l : list A) x :
  x ∈ l → f x = true → ∃ y, List.find f l = Some y.
Proof.
  intros Hx Hf. destruct (List.find f l) eqn:Hfind; [eauto|].
  apply list_elem_of_In in Hx. by rewrite (find_none _ _ Hfind _ Hx) in Hf.
Qed.

(** X6: in a state that passes [ensure_setup], [receivers_for_port] of an
    output port lists exactly the downstream addresses of the resolved
    connections that start there, and [sender_for_port] of an input port
    that has a resolved connection returns the upstream address of one of
    them, which in turn lists the port among its receivers. *)
Theorem senders_and_receivers_agree s :
  ensure_setup s = (Ret tt, s) →
  (∀ un up, ∃ l, receivers_for_port un up s = (Ret l, s)
      ∧ ∀ d, d ∈ l ↔ ((un, up), d) ∈ connections s)
  ∧ (∀ u dn dp, (u, (dn, dp)) ∈ connections s →
      ∃ u' l, sender_for_port dn dp s = (Ret u', s)
              ∧ (u', (dn, dp)) ∈ connections s
              ∧ receivers_for_port u'.1 u'.2 s = (Ret l, s)
              ∧ (dn, dp) ∈ l).
Proof.
  intros Hg.
  assert (∀ un up d,
            d ∈ (λ c : connection_t, c.2) <$>
                List.filter (λ c, bool_decide (conn_upstream_name c = un)
                                  && bool_decide (conn_upstream_port c = up))
                            (connections s)
            ↔ ((un, up), d) ∈ connections s) as Hreceivers.
  { intros un up d. rewrite list_elem_of_fmap. split.
    - intros ([[un' up'] d'] & -> & Hc). apply list_elem_of_In, filter_In in Hc as [Hc Hf].
      apply list_elem_of_In in Hc.
      unfold conn_upstream_name, conn_upstream_port in Hf. simpl in Hf.
      apply andb_true_iff in Hf as [->%bool_decide_eq_true ->%bool_decide_eq_true].
      done.
    - intros Hc. exists ((un, up), d). split; [done|].
      apply list_elem_of_In, filter_In. split; [by apply list_elem_of_In|].
      unfold conn_upstream_name, conn_upstream_port. simpl.
      by rewrite !bool_decide_eq_true_2. }
  split.
  - intros un up. eexists. split.
    { unfold receivers_for_port. by rewrite (bind_Ret_eq _ _ _ _ _ Hg). }
    apply Hreceivers.
  - intros u dn dp Hc.
    destruct (find_is_Some
                (λ c, bool_decide (conn_downstream_name c = dn)
                      && bool_decide (conn_downstream_port c = dp))
                (connections s) (u, (dn, dp)) Hc) as [[u' d'] Hfind].
    { unfold conn_downstream_name, conn_downstream_port. simpl.
      by rewrite !bool_decide_eq_true_2. }
    pose proof (find_Some_elem _ _ _ Hfind) as [Hin Hf].
    unfold conn_downstream_name, conn_downstream_port in Hf. simpl in Hf.
    apply andb_true_iff in Hf as [Hdn%bool_decide_eq_true Hdp%bool_decide_eq_true].
    assert (d' = (dn, dp)) as -> by (destruct d'; simpl in *; congruence).
    exists u'. eexists. split_and!.
    + unfold sender_for_port. rewrite (bind_Ret_eq _ _ _ _ _ Hg).
      unfold gets. by rewrite Hfind.
    + done.
    + unfold receivers_for_port. by rewrite (bind_Ret_eq _ _ _ _ _ Hg).
    + apply Hreceivers. by destruct u'.
Qed.

(** ** Running *)

(** X7: in a state that passes [ensure_setup] and is not running, [start]
    followed by [stop] gives the state back; in between, [reset] throws
    [reset_running_pipeline_exception] and changes nothing; and [stop] on a
    pipeline that is not running throws [logic_error]. *)
Theorem start_stop_round_trip s :
  ensure_setup s = (Ret tt, s) → running s = false →
  ∃ s1, start s = (Ret tt, s1)
    ∧ running s1 = true
    ∧ reset s1 = (Throw reset_running_pipeline_exception, s1)
    ∧ stop s1 = (Ret tt, s)
    ∧ ∃ reason, stop s = (Throw (logic_error reason), s).
Proof.
  intros Hg Hrun. eexists. split.
  { unfold start. by rewrite (bind_Ret_eq _ _ _ _ _ Hg). }
  split_and!.
  - done.
  - unfold reset. rewrite bind_gets. done.
  - unfold stop. rewrite bind_gets. simpl.
    unfold modify. f_equal. destruct s. simpl in *. by subst.
  - unfold stop. rewrite bind_gets. simpl. rewrite Hrun. simpl. by eexists.
Qed.

End Properties.

(** * The scenarios *)

Import Scenario.

Lemma table_process_keeps_ports :
  @core_frequency_keeps_ports table_edge table_process _.
Proof. intros p f p' [= <-] port_name. done. Qed.

(** S2 end to end: after setup the connection into the cluster port has
    become one connection per mapped child port. *)
Example s2_cluster_fan_out :
  let r := setup_pipeline 50 s2_built in
  r.1 = Ret tt
  ∧ connections r.2 = [(("a", "out"), ("child1", "in")); (("a", "out"), ("child2", "in"))]
  ∧ cluster_connections r.2 = [].
Proof. vm_compute. done. Qed.

Example s1_simple_pair :
  let r := setup_pipeline 50 s1_built in
  r.1 = Ret tt
  ∧ connections r.2 = [(("a", "out"), ("b", "in"))]
  ∧ size (edge_map r.2) = 1
  ∧ core_frequency_calls_since s1_built r.2 = [("a", 1 # 1); ("b", 1 # 1)].
Proof. vm_compute. done. Qed.

Example s3_flow_dependent_propagation :
  type_pinnings s3_built = [((("b", "o"), ("c", "i")), push_upstream)]
  ∧ untyped_connections s3_built = [(("a", "o"), ("b", "i"))]
  ∧ let r := setup_pipeline 50 s3_built in
    r.1 = Ret tt
    ∧ connections r.2 = [(("a", "o"), ("b", "i")); (("b", "o"), ("c", "i"))]
    ∧ (type <$> port_lookup (tp_outputs (default s5_a (process_map r.2 !! "a"))) "o")
      = Some "int"
    ∧ (type <$> port_lookup (tp_inputs (default s5_a (process_map r.2 !! "b"))) "i")
      = Some "int".
Proof. vm_compute. done. Qed.

Example s4_data_dependent :
  (setup_pipeline 50 s4_resolving_built).1 = Ret tt
  ∧ connections (setup_pipeline 50 s4_resolving_built).2 = [(("a", "out"), ("b", "in"))]
  ∧ (setup_pipeline 50 s4_built).1 = Throw (untyped_data_dependent_exception "a" "out").
Proof. vm_compute. done. Qed.

Example s6_cycle :
  (setup_pipeline 50 (s6_built [])).1 = Throw not_a_dag_exception
  ∧ (setup_pipeline 50 (s6_built [spec_flag_input_nodep])).1 = Ret tt.
Proof. vm_compute. done. Qed.

Example empty_registry :
  (setup_pipeline 50 empty_pipeline).1 = Throw no_processes_exception.
Proof. vm_compute. done. Qed.

(** The frequency solver does not check a connection from a process to
    itself that seeds the frequency map: setup returns although the
    frequencies of [a] disagree along [a.o -> a.fb]. *)
Example self_loop_frequency_unchecked :
  let r := setup_pipeline 50 loop_built in
  let c : connection_t := (("a", "o"), ("a", "fb")) in
  r.1 = Ret tt
  ∧ c ∈ connections r.2
  ∧ known_frequencies r.2 c (1 # 1) (1 # 2)
  ∧ core_frequency_calls_since loop_built r.2 = [("a", 2 # 1); ("b", 2 # 1)]
  ∧ ¬ ((2 # 1) * (1 # 1) == (2 # 1) * (1 # 2))%Q.
Proof.
  split_and!.
  - vm_compute. reflexivity.
  - assert (connections (setup_pipeline 50 loop_built).2
            = [(("a", "o"), ("a", "fb")); (("a", "o2"), ("b", "i"))]) as ->
      by (vm_compute; reflexivity).
    by left.
  - split_and!; vm_compute; reflexivity.
  - vm_compute. reflexivity.
  - intros Heq. vm_compute in Heq. discriminate Heq.
Qed.

(** The same connection from [a] to itself is validated when it does not
    seed the frequency map: listed after [a.o2 -> b.i] it makes the setup
    throw. *)
Example self_loop_frequency_checked :
  (setup_pipeline 50 (loop_after_built (1 # 2))).1
  = Throw (frequency_mismatch_exception (("a", "o"), ("a", "fb")) (1 # 1) (1 # 1))
  ∧ frequency_seed (loop_after_built (1 # 2)) = Some 0.
Proof. split; vm_compute; reflexivity. Qed.

(** With a single registered process the solver does not run: setup returns
    although the frequencies of [a] disagree along [a.o2 -> a.fb2], which
    is not the first connection with known frequencies. *)
Example lone_process_frequencies_unchecked :
  let r := setup_pipeline 50 lone_built in
  let c : connection_t := (("a", "o2"), ("a", "fb2")) in
  r.1 = Ret tt
  ∧ size (process_map r.2) = 1
  ∧ connections r.2 !! 1 = Some c
  ∧ frequency_seed r.2 = Some 0
  ∧ known_frequencies r.2 c (1 # 1) (1 # 2)
  ∧ core_frequency_calls_since lone_built r.2 = [("a", 1 # 1)]
  ∧ ¬ ((1 # 1) * (1 # 1) == (1 # 1) * (1 # 2))%Q.
Proof.
  split_and!.
  - vm_compute. reflexivity.
  - vm_compute. reflexivity.
  - vm_compute. reflexivity.
  - vm_compute. reflexivity.
  - split_and!; vm_compute; reflexivity.
  - vm_compute. reflexivity.
  - intros Heq. vm_compute in Heq. discriminate Heq.
Qed.

(** C1 at S5: [a.o] and [b.i] both have the concrete type [int]. *)
Lemma connect_type_classification_witness :
  connect "a" "o" "b" "i" s5_registered =
    (Ret tt, with_connections (push_back (("a", "o"), ("b", "i")))
               (planned s5_registered (("a", "o"), ("b", "i")))).
Proof.
  destruct (connect_type_classification s5_registered "a" "o" "b" "i" s5_a s5_b
              (port "int" [] (1 # 1)) (port "int" [] (1 # 2)))
    as (_ & _ & _ & _ & _ & Hresolved); [vm_compute; reflexivity..|].
  apply Hresolved.
  - intros Heq. vm_compute in Heq. discriminate Heq.
  - intros Heq. vm_compute in Heq. discriminate Heq.
  - intros Heq. vm_compute in Heq. discriminate Heq.
  - right. right. reflexivity.
Defined.

(** C7 at a constant output facing a mutable input. *)
Lemma connect_flag_mismatch_iff_witness :
  is_flag_mismatch (connect "src" "o" "snk" "i" const_mutable_registered).1.
Proof.
  destruct (connect_flag_mismatch_iff const_mutable_registered "src" "o" "snk" "i"
              const_source mutable_sink
              (port "int" [spec_flag_output_const] 0)
              (port "int" [spec_flag_input_mutable] 0))
    as (_ & _ & Hiff & _); [vm_compute; reflexivity..|].
  apply Hiff. split; simpl; set_solver.
Defined.

(** C2, as stated, at three processes in a row of which only the first
    connection has port frequencies: setup returns, [c] is registered, and
    [set_core_frequency] was never called on [c]. *)
Lemma core_frequency_not_called_on_every_process :
  let r := setup_pipeline 50 partial_built in
  r.1 = Ret tt
  ∧ is_Some (process_map r.2 !! "c")
  ∧ times_called "c" (core_frequency_calls_since partial_built r.2) = 0
  ∧ ¬ (∀ n, is_Some (process_map r.2 !! n) →
         times_called n (core_frequency_calls_since partial_built r.2) = 1).
Proof.
  assert (times_called "c"
            (core_frequency_calls_since partial_built (setup_pipeline 50 partial_built).2)
          = 0) as Hnever by (vm_compute; reflexivity).
  assert (is_Some (process_map (setup_pipeline 50 partial_built).2 !! "c")) as Hc.
  { apply (bool_decide_unpack _). vm_compute. exact I. }
  split_and!; [vm_compute; reflexivity|exact Hc|exact Hnever|].
  intros Hall. specialize (Hall "c" Hc). congruence.
Qed.

(** C2 as amended, where [a.o -> a.fb] comes second: the connection from
    [a] to itself is validated. *)
Lemma core_frequencies_assigned_witness :
  let called :=
    core_frequency_calls_since (loop_after_built (1 # 1))
      (setup_pipeline 50 (loop_after_built (1 # 1))).2 in
  ∃ fu fd, ("a", fu) ∈ called ∧ ("a", fd) ∈ called ∧ (fu * (1 # 1) == fd * (1 # 1))%Q.
Proof.
  destruct (core_frequencies_assigned 50 (loop_after_built (1 # 1))
              (setup_pipeline 50 (loop_after_built (1 # 1))).2
              table_process_keeps_ports)
    as (_ & _ & _ & Hedge); [vm_compute; reflexivity|].
  apply (Hedge 1 (("a", "o"), ("a", "fb")) (1 # 1) (1 # 1)).
  - vm_compute. reflexivity.
  - split_and!; vm_compute; reflexivity.
  - right. split.
    + intros Hsize. vm_compute in Hsize. discriminate Hsize.
    + intros Hseed. vm_compute in Hseed. discriminate Hseed.
Defined.

(** C3 at S2: the pending connection [a.out -> c.x] becomes one [connect]
    per input mapping of [c.x]. *)
Lemma cluster_flattening_witness :
  map_cluster_connection ((("a", "out"), ("c", "x")), cluster_downstream)
    (entering_setup s2_built)
  = foreach [(("c", "x"), ("child1", "in")); (("c", "x"), ("child2", "in"))]
      (λ m : connection_t, connect "a" "out" m.2.1 m.2.2) (entering_setup s2_built).
Proof.
  destruct (cluster_flattening (entering_setup s2_built) s2_cluster ("a", "out") ("c", "x"))
    as (_ & Hdown & _).
  destruct Hdown as [_ Hexpand]; [vm_compute; reflexivity|].
  apply Hexpand. intros Heq. vm_compute in Heq. discriminate Heq.
Defined.

(** C4 at a setup whose [configure_processes] pass throws. *)
Lemma setup_pipeline_failure_path_witness :
  ∃ s', setup_pipeline 50 s4_built
        = (Throw (untyped_data_dependent_exception "a" "out"), s')
        ∧ setup s' = true ∧ setup_in_progress s' = false
        ∧ setup_successful s' = false.
Proof.
  destruct (setup_pipeline_failure_path 50 s4_built) as [Hfail _].
  - vm_compute. reflexivity.
  - intros Hsize. vm_compute in Hsize. discriminate Hsize.
  - apply (Hfail _ (setup_passes 50 (entering_setup s4_built)).2).
    vm_compute. reflexivity.
Defined.

(** C5: in S5 (processes [a], [b], [c]; connections [a.o -> b.i] and
    [b.o -> c.i]; port frequencies 1/1, 1/2, 1/1, 1/3) the frequency solver,
    given at least three rounds, returns the map [a -> 1/1], [b -> 2/1],
    [c -> 6/1]; the least common multiple of its denominators is 1; and a
    [setup_pipeline] with at least seven rounds for its loops returns after
    passing 1, 2 and 6 to [set_core_frequency] of [a], [b] and [c]. *)
Theorem s5_frequency_inference :
  connections s5_built = [(("a", "o"), ("b", "i")); (("b", "o"), ("c", "i"))]
  ∧ port_frequencies_of s5_built (("a", "o"), ("b", "i")) = Some (1 # 1, 1 # 2)
  ∧ port_frequencies_of s5_built (("b", "o"), ("c", "i")) = Some (1 # 1, 1 # 3)
  ∧ (∀ fuel, solve_frequencies (3 + fuel) ∅ (connections s5_built) s5_built
             = (Ret s5_frequencies, s5_built))
  ∧ s5_frequencies !! "a" = Some (1 # 1)
  ∧ s5_frequencies !! "b" = Some (2 # 1)
  ∧ s5_frequencies !! "c" = Some (6 # 1)
  ∧ denominators_lcm (freq_entries s5_frequencies) = 1%Z
  ∧ (∀ fuel, (setup_pipeline (7 + fuel) s5_built).1 = Ret tt)
  ∧ (∀ fuel, core_frequency_calls_since s5_built (setup_pipeline (7 + fuel) s5_built).2
             = [("a", 1 # 1); ("b", 2 # 1); ("c", 6 # 1)]).
Proof.
  split_and!; vm_compute; reflexivity.
Qed.

(** C6 at S2: removing the cluster [c] returns, removes its children and the
    cluster, and leaves the connection [a.out -> c.x] in
    [planned_connections] and in [cluster_connections]; the next
    [setup_pipeline] then fails on the missing cluster. *)
Theorem remove_cluster_keeps_its_connections :
  let r := remove_process 5 "c" s2_built in
  let c : connection_t := (("a", "out"), ("c", "x")) in
  is_Some (cluster_map s2_built !! "c")
  ∧ r.1 = Ret tt
  ∧ is_connection_with "c" c = true
  ∧ planned_connections r.2 = [c]
  ∧ cluster_connections r.2 = [(c, cluster_downstream)]
  ∧ cluster_map r.2 !! "c" = None
  ∧ process_map r.2 !! "child1" = None
  ∧ process_map r.2 !! "child2" = None
  ∧ (setup_pipeline 50 r.2).1 = Throw (no_such_process_exception "c").
Proof.
  split_and!; try (vm_compute; reflexivity).
  apply (bool_decide_unpack _). vm_compute. exact I.
Qed.

(** C8 at [sender_for_port b i]: before setup, after the failed setup of S4,
    and after the setup of S5. *)
Lemma guarded_queries_witness :
  let q := @ask_sender_for_port "b" "i" in
  run_query q s5_built = (Throw pipeline_not_setup_exception, s5_built)
  ∧ run_query q (setup_pipeline 50 s4_built).2
    = (Throw pipeline_not_ready_exception, (setup_pipeline 50 s4_built).2)
  ∧ ∃ a s', run_query q (setup_pipeline 50 s5_built).2 = (Ret a, s')
            ∧ lookup_answer q (setup_pipeline 50 s5_built).2 a s'.
Proof.
  intros q.
  destruct (guarded_queries (C:=table_config) (E:=table_edge) (P:=table_process) q)
    as (Hbefore & Hfailed & _ & Hready).
  split_and!.
  - apply Hbefore. vm_compute. reflexivity.
  - apply (Hfailed 50 s4_built (untyped_data_dependent_exception "a" "out")).
    + vm_compute. reflexivity.
    + intros Hsize. vm_compute in Hsize. discriminate Hsize.
    + vm_compute. reflexivity.
  - apply (Hready 50 s5_built). vm_compute. reflexivity.
Defined.

(** C9 at S2: the cluster [c] is added after the process [a]. *)
Lemma cluster_registered_only_as_cluster_witness :
  let s' := (add_process (Some s2_cluster) s2_before_cluster).2 in
  cluster_by_name "c" s' = (Ret s2_cluster, s')
  ∧ process_by_name "c" s' = (Throw (no_such_process_exception "c"), s').
Proof.
  intros s'.
  destruct (cluster_registered_only_as_cluster s2_before_cluster "c"
              [plain_process s2_child1; plain_process s2_child2] []
              [(("c", "x"), ("child1", "in")); (("c", "x"), ("child2", "in"))] [] s')
    with (q := s2_cluster) as (Hcluster & Hprocess & _).
  - vm_compute. reflexivity.
  - left.
  - split; [exact Hcluster|exact Hprocess].
Defined.

(** C10 at S5 after setup: nothing is connected to [a.none]. *)
Lemma unmatched_lookups_default_witness :
  let s := (setup_pipeline 50 s5_built).2 in
  sender_for_port "a" "none" s = (Ret ("", ""), s)
  ∧ upstream_for_port "a" "none" s = (Ret None, s)
  ∧ edge_for_connection "a" "o" "c" "i" s = (Ret None, s).
Proof.
  intros s.
  destruct (unmatched_lookups_default 50 s5_built s) as [Hport Hedge].
  { vm_compute. reflexivity. }
  assert (connections s = [(("a", "o"), ("b", "i")); (("b", "o"), ("c", "i"))]) as Hconns
    by (vm_compute; reflexivity).
  clearbody s.
  destruct (Hport "a" "none") as [Hsender Hupstream].
  { rewrite Hconns. intros c Hc.
    repeat (apply elem_of_cons in Hc as [->|Hc]); [discriminate..|].
    by apply elem_of_nil in Hc. }
  split_and!; [exact Hsender|exact Hupstream|]. apply Hedge.
  rewrite Hconns. intros Hc.
  repeat (apply elem_of_cons in Hc as [Hc|Hc]); [discriminate..|].
  by apply elem_of_nil in Hc.
Defined.

(** ** The further properties at the scenarios *)

(** X1 at S4 gone wrong: after the failed setup the registry is closed. *)
Lemma registry_frozen_after_setup_witness :
  let s := (setup_pipeline 50 s4_built).2 in
  add_process (Some (plain_process spare)) s = (Throw (add_after_setup_exception "d"), s)
  ∧ remove_process 1 "a" s = (Throw (remove_after_setup_exception "a"), s)
  ∧ setup_pipeline 50 s = (Throw pipeline_duplicate_setup_exception, s).
Proof.
  cbv zeta.
  destruct (registry_frozen_after_setup 50 s4_built
              (setup_pipeline 50 s4_built).1 (setup_pipeline 50 s4_built).2)
    as (Hadd & Hremove & _ & _ & Hsetup).
  - vm_compute. reflexivity.
  - intros Hsize. vm_compute in Hsize. discriminate Hsize.
  - apply surjective_pairing.
  - intros Hr. vm_compute in Hr. discriminate Hr.
  - split_and!; [exact (Hadd (plain_process spare))|exact (Hremove 0 "a")
                |exact (Hsetup 50)].
Defined.

(** X2 at the three processes of S5: [a] is taken, [d] is not. *)
Lemma add_plain_process_outcome_witness :
  add_process (Some (plain_process s5_a)) s5_registered
  = (Throw (duplicate_process_name_exception "a"), s5_registered)
  ∧ ∃ s', add_process (Some (plain_process spare)) s5_registered = (Ret tt, s')
          ∧ process_by_name "d" s' = (Ret spare, s')
          ∧ parent_cluster "d" s' = (Ret "", s').
Proof.
  split.
  - destruct (add_plain_process_outcome s5_registered s5_a) as [Htaken _].
    + vm_compute. reflexivity.
    + apply Htaken. left. exists s5_a. vm_compute. reflexivity.
  - destruct (add_plain_process_outcome s5_registered spare) as [_ Hfresh].
    + vm_compute. reflexivity.
    + destruct Hfresh as (s' & Hadd & _ & Hfind & Hparent & _); [vm_compute; reflexivity..|].
      exists s'. split_and!; [exact Hadd|exact Hfind|exact Hparent].
Defined.

(** X3 at the three processes of S5: [d] comes and goes. *)
Lemma add_remove_round_trip_witness :
  ∃ s1 s2,
    add_process (Some (plain_process spare)) s5_registered = (Ret tt, s1)
    ∧ remove_process 1 "d" s1 = (Ret tt, s2)
    ∧ process_map s2 = process_map s5_registered
    ∧ process_by_name "d" s2 = (Throw (no_such_process_exception "d"), s2).
Proof.
  destruct (add_remove_round_trip 0 s5_registered spare)
    as (s1 & s2 & Hadd & Hremove & Hmap & _ & _ & _ & _ & _ & _ & _ & _ & _ & Hgone);
    [vm_compute; reflexivity..|].
  exists s1, s2. split_and!; [exact Hadd|exact Hremove|exact Hmap|exact Hgone].
Defined.

(** X4 at a constant output facing a mutable input: the refused connection
    is planned all the same. *)
Lemma connect_plans_before_checking_witness :
  let r := connect "src" "o" "snk" "i" const_mutable_registered in
  r.1 = Throw (connection_flag_mismatch_exception (("src", "o"), ("snk", "i")))
  ∧ planned_connections r.2
    = planned_connections const_mutable_registered ++ [(("src", "o"), ("snk", "i"))].
Proof.
  cbv zeta. split; [vm_compute; reflexivity|].
  destruct (connect_plans_before_checking const_mutable_registered "src" "o" "snk" "i"
              (connect "src" "o" "snk" "i" const_mutable_registered).1
              (connect "src" "o" "snk" "i" const_mutable_registered).2)
    as [Hplanned _]; [vm_compute; reflexivity..|apply surjective_pairing|].
  exact Hplanned.
Defined.

(** X6 at S5 after setup: [b.i] is fed by [a.o]. *)
Lemma senders_and_receivers_agree_witness :
  let s := (setup_pipeline 50 s5_built).2 in
  ∃ u l, sender_for_port "b" "i" s = (Ret u, s)
         ∧ (u, ("b", "i")) ∈ connections s
         ∧ receivers_for_port u.1 u.2 s = (Ret l, s)
         ∧ ("b", "i") ∈ l.
Proof.
  intros s.
  assert (ensure_setup s = (Ret tt, s)) as Hguard by (vm_compute; reflexivity).
  assert (connections s = [(("a", "o"), ("b", "i")); (("b", "o"), ("c", "i"))]) as Hconns
    by (vm_compute; reflexivity).
  clearbody s.
  destruct (senders_and_receivers_agree s Hguard) as [_ Hsender].
  apply (Hsender ("a", "o")). rewrite Hconns. left.
Defined.

(** X7 at S5 after setup. *)
Lemma start_stop_round_trip_witness :
  let s := (setup_pipeline 50 s5_built).2 in
  ∃ s1, start s = (Ret tt, s1)
        ∧ running s1 = true
        ∧ reset s1 = (Throw reset_running_pipeline_exception, s1)
        ∧ stop s1 = (Ret tt, s).
Proof.
  intros s.
  assert (ensure_setup s = (Ret tt, s)) as Hguard by (vm_compute; reflexivity).
  assert (running s = false) as Hrunning by (vm_compute; reflexivity).
  clearbody s.
  destruct (start_stop_round_trip s Hguard Hrunning)
    as (s1 & Hstart & Hrun & Hreset & Hstop & _).
  exists s1. split_and!; [exact Hstart|exact Hrun|exact Hreset|exact Hstop].
Defined.

(** X8 at a flow-dependent output facing a typed input: the pinning that
    [connect] records outlives the [disconnect]. *)
Lemma connect_disconnect_round_trip_witness :
  let s1 := (connect "a" "o" "c" "i" flow_registered).2 in
  type_pinnings s1 = [((("a", "o"), ("c", "i")), push_upstream)]
  ∧ disconnect "a" "o" "c" "i" s1
    = (Ret tt, with_type_pinnings (λ _, type_pinnings s1) flow_registered).
Proof.
  intros s1. split; [vm_compute; reflexivity|].
  assert (connect "a" "o" "c" "i" flow_registered = (Ret tt, s1)) as Hconnect
    by (vm_compute; reflexivity).
  assert (planned_connections flow_registered = []) as Hplanned
    by (vm_compute; reflexivity).
  assert (connections flow_registered = []) as Hconns by (vm_compute; reflexivity).
  assert (data_dep_connections flow_registered = []) as Hdata
    by (vm_compute; reflexivity).
  assert (untyped_connections flow_registered = []) as Huntyped
    by (vm_compute; reflexivity).
  assert (cluster_connections flow_registered = []) as Hcluster
    by (vm_compute; reflexivity).
  clearbody s1.
  destruct (connect_disconnect_round_trip flow_registered "a" "o" "c" "i" s1)
    as [Hdisconnect _]; [vm_compute; reflexivity..| | | | | |exact Hconnect|exact Hdisconnect].
  - rewrite Hplanned. apply not_elem_of_nil.
  - rewrite Hconns. apply not_elem_of_nil.
  - rewrite Hdata. apply not_elem_of_nil.
  - rewrite Huntyped. apply not_elem_of_nil.
  - intros t. rewrite Hcluster. apply not_elem_of_nil.
Defined.

(** X9 at S2: the connections made for the cluster port are not planned. *)
Lemma setup_pipeline_keeps_planned_witness :
  planned_connections (setup_pipeline 50 s2_built).2 = planned_connections s2_built.
Proof.
  apply (setup_pipeline_keeps_planned 50 s2_built (setup_pipeline 50 s2_built).1).
  apply surjective_pairing.
Defined.

(** X10 at S5 after setup: both connections have their edge. *)
Lemma setup_wires_every_connection_witness :
  let s := (setup_pipeline 50 s5_built).2 in
  untyped_connections s = [] ∧ type_pinnings s = []
  ∧ (∃ e, edge_for_connection "a" "o" "b" "i" s = (Ret (Some e), s))
  ∧ (∃ e, edge_for_connection "b" "o" "c" "i" s = (Ret (Some e), s)).
Proof.
  intros s.
  assert (setup_pipeline 50 s5_built = (Ret tt, s)) as Hrun by (vm_compute; reflexivity).
  assert (connections s = [(("a", "o"), ("b", "i")); (("b", "o"), ("c", "i"))]) as Hconns
    by (vm_compute; reflexivity).
  clearbody s.
  destruct (setup_wires_every_connection 50 s5_built s Hrun)
    as (Huntyped & Hpinnings & Hedges).
  split_and!; [exact Huntyped|exact Hpinnings|apply Hedges|apply Hedges];
    rewrite Hconns; [left|right; left].
Defined.

(** X11 at S5. *)
Lemma setup_calls_in_order_witness :
  ∃ names core,
    process_names s5_built = (Ret names, s5_built)
    ∧ calls (setup_pipeline 50 s5_built).2 =
      calls s5_built ++ (call_configure <$> names) ++ (call_init <$> names) ++ core
    ∧ Forall is_core_frequency_call core.
Proof.
  apply (setup_calls_in_order 50 s5_built). vm_compute. reflexivity.
Defined.

(** X12 at S5 after setup. *)
Lemma reset_outcome_witness :
  let s := (setup_pipeline 50 s5_built).2 in
  let r := reset s in
  r.1 = Ret tt
  ∧ setup r.2 = false ∧ setup_in_progress r.2 = false
  ∧ planned_connections r.2 = planned_connections s
  ∧ edge_map r.2 = ∅.
Proof.
  intros s r.
  assert (r.1 = Ret tt) as Hret by (vm_compute; reflexivity).
  assert (running s = false) as Hrunning by (vm_compute; reflexivity).
  assert (reset s = (r.1, r.2)) as Hrun by apply surjective_pairing.
  clearbody r. clearbody s.
  destruct (reset_outcome s r.1 r.2 Hrunning Hrun)
    as (Hsetup & _ & _ & Hplanned & _ & Hreturned).
  destruct (Hreturned Hret) as (Hprogress & Hedges & _).
  split_and!; [exact Hret|exact Hsetup|exact Hprogress|exact Hplanned|exact Hedges].
Defined.

(** X13 at S5. *)
Lemma core_frequencies_are_whole_witness :
  Forall (λ nf : string * Q, Qden nf.2 = 1%positive)
    (core_frequency_calls_since s5_built (setup_pipeline 50 s5_built).2).
Proof.
  apply Forall_forall. intros [n f].
  apply (core_frequencies_are_whole 50 s5_built (setup_pipeline 50 s5_built).1).
  apply surjective_pairing.
Defined.

(** X14 at S1 after setup: the required input [b.in] has its edge. *)
Lemma required_ports_have_edges_witness :
  let s := (setup_pipeline 50 s1_built).2 in
  ∃ e, input_edge_for_port "b" "in" s = (Ret (Some e), s).
Proof.
  intros s.
  assert (check_for_required_ports 50 s = (Ret tt, s)) as Hrun
    by (vm_compute; reflexivity).
  pose (p := proc "b" [("in", port "int" [spec_flag_required] (1 # 1))] []).
  assert (process_map s !! "b" = Some p) as Hp by (vm_compute; reflexivity).
  clearbody s.
  destruct (required_ports_have_edges 50 s s Hrun) as [_ Hports].
  destruct (Hports "b" p Hp) as [Hinputs _].
  apply (Hinputs "in" (port "int" [spec_flag_required] (1 # 1))).
  - left.
  - reflexivity.
  - simpl. set_solver.
Defined.

(** X15 at S2: the children of [c] have [c] as their parent. *)
Lemma cluster_children_parented_witness :
  let s' := (add_process (Some s2_cluster) s2_before_cluster).2 in
  parent_stack s' = parent_stack s2_before_cluster
  ∧ parent_cluster "child1" s' = (Ret "c", s')
  ∧ parent_cluster "child2" s' = (Ret "c", s').
Proof.
  intros s'.
  destruct (cluster_children_parented s2_before_cluster "c"
              [plain_process s2_child1; plain_process s2_child2] []
              [(("c", "x"), ("child1", "in")); (("c", "x"), ("child2", "in"))] [] s')
    as (Hstack & _ & Hchildren).
  - vm_compute. reflexivity.
  - split_and!; [exact Hstack|apply (Hchildren (plain_process s2_child1))
                |apply (Hchildren (plain_process s2_child2))].
    + left.
    + right. left.
Defined.

(** X16 at the empty configuration. *)
Lemma new_pipeline_is_empty_witness :
  process_names empty_pipeline = (Ret [], empty_pipeline)
  ∧ (∀ fuel, setup_pipeline fuel empty_pipeline
             = (Throw no_processes_exception, empty_pipeline)).
Proof.
  destruct (new_pipeline_is_empty (Some []) empty_pipeline eq_refl)
    as (_ & Hnames & _ & Hsetup & _).
  split; [exact Hnames|exact Hsetup].
Defined.
